(** * bdfe: the command surface of the BDF font exporter (main.c)

    A shallow embedding of [main.c]: the option loop, the call of
    [bdf_convert], and the display preview, with the C library functions
    the option loop relies on.  The conversion engine itself (bdf.c) and
    the headers bdf.h, pi2c.h, rterm.h and ossd_i2c.h are not part of the
    sources at hand: the constants they define are parameters of the model
    (record [headers]), the engine is a parameter of the environment
    (record [env]), and the parts of the engine the properties speak about
    are modelled from the specification in module [Engine]. *)

From Stdlib Require Import ZArith List String Ascii Bool Lia.
From Stdlib Require Import DecimalString DecimalPos.
Import ListNotations.

Local Open Scope string_scope.
Local Open Scope list_scope.
Local Open Scope Z_scope.

(* ================================================================== *)
(** ** The C library, as main.c uses it *)

Module Libc.

(** The two data models the program is built for: the Raspberry Pi
    (32-bit [long]) and 64-bit hosts.  [int] and [unsigned] are 32 bits
    wide in both. *)
Inductive abi : Set := ILP32 | LP64.

Definition LONG_BIT (a : abi) : Z :=
  match a with ILP32 => 32 | LP64 => 64 end.

Definition ULONG_MAX (a : abi) : Z := 2 ^ LONG_BIT a - 1.
Definition LONG_MAX (a : abi) : Z := 2 ^ (LONG_BIT a - 1) - 1.
Definition LONG_MIN (a : abi) : Z := - 2 ^ (LONG_BIT a - 1).

(** Conversions to the fixed-width types of main.c. *)
Definition to_unsigned (z : Z) : Z := z mod 2 ^ 32.
Definition to_uint8 (z : Z) : Z := z mod 2 ^ 8.
Definition to_int (z : Z) : Z := (z + 2 ^ 31) mod 2 ^ 32 - 2 ^ 31.

Definition code (c : ascii) : Z := Z.of_N (N_of_ascii c).

Definition isdigit (c : ascii) : bool :=
  (48 <=? code c) && (code c <=? 57).

Definition isxdigit (c : ascii) : bool :=
  isdigit c
  || ((65 <=? code c) && (code c <=? 70))
  || ((97 <=? code c) && (code c <=? 102)).

Definition isspace (c : ascii) : bool :=
  (code c =? 32) || ((9 <=? code c) && (code c <=? 13)).

(** [*s] for a non-null [s]: the first character, NUL for the empty
    string. *)
Definition deref (s : string) : ascii :=
  match s with
  | EmptyString => zero
  | String c _ => c
  end.

(** [s + 1] for a non-empty [s]. *)
Definition next (s : string) : string :=
  match s with
  | EmptyString => EmptyString
  | String _ r => r
  end.

Definition digit_val (base : Z) (c : ascii) : option Z :=
  let n := code c in
  let v :=
    if isdigit c then Some (n - 48)
    else if (97 <=? n) && (n <=? 122) then Some (n - 87)
    else if (65 <=? n) && (n <=? 90) then Some (n - 55)
    else None in
  match v with
  | Some d => if d <? base then Some d else None
  | None => None
  end.

(** The digit loop of strtol/strtoul: the value read so far, whether any
    digit was read, and the unread rest. *)
Fixpoint scan_digits (base : Z) (s : string) (acc : Z) (any : bool)
  : Z * bool * string :=
  match s with
  | String c r =>
      match digit_val base c with
      | Some d => scan_digits base r (acc * base + d) true
      | None => (acc, any, s)
      end
  | EmptyString => (acc, any, s)
  end.

Fixpoint skip_space (s : string) : string :=
  match s with
  | String c r => if isspace c then skip_space r else s
  | EmptyString => s
  end.

Definition split_sign (s : string) : bool * string :=
  match s with
  | String "-" r => (true, r)
  | String "+" r => (false, r)
  | _ => (false, s)
  end.

(** The optional [0x] of base 16, taken only before a hexadecimal digit. *)
Definition skip_0x (base : Z) (s : string) : string :=
  if base =? 16 then
    match s with
    | String "0" (String x (String h r)) =>
        if (Ascii.eqb x "x" || Ascii.eqb x "X") && isxdigit h
        then String h r else s
    | _ => s
    end
  else s.

(** [strtoul(nptr, &end, base)]: the value (an [unsigned long]) and
    [end].  Out of range values give [ULONG_MAX]; a minus sign negates in
    [unsigned long]; without a digit the value is 0 and [end] is [nptr]. *)
Definition strtoul (a : abi) (nptr : string) (base : Z) : Z * string :=
  let '(neg, s) := split_sign (skip_space nptr) in
  let '(v, any, rest) := scan_digits base (skip_0x base s) 0 false in
  if any then
    if ULONG_MAX a <? v then (ULONG_MAX a, rest)
    else ((if neg then (- v) mod 2 ^ LONG_BIT a else v), rest)
  else (0, nptr).

(** [strtol(nptr, NULL, base)], saturating at [LONG_MIN] and [LONG_MAX]. *)
Definition strtol (a : abi) (nptr : string) (base : Z) : Z :=
  let '(neg, s) := split_sign (skip_space nptr) in
  let '(v, any, _) := scan_digits base (skip_0x base s) 0 false in
  if any then
    if neg then (if - v <? LONG_MIN a then LONG_MIN a else - v)
    else (if LONG_MAX a <? v then LONG_MAX a else v)
  else 0.

(** [atoi(s)] is [(int) strtol(s, NULL, 10)]. *)
Definition atoi (a : abi) (s : string) : Z := to_int (strtol a s 10).

Definition is_slash (c : ascii) : bool := Ascii.eqb c "/".

Fixpoint has_slash (s : string) : bool :=
  match s with
  | EmptyString => false
  | String c r => is_slash c || has_slash r
  end.

Fixpoint strip_slashes (s : string) : string :=
  match s with
  | EmptyString => EmptyString
  | String c r =>
      match strip_slashes r with
      | EmptyString => if is_slash c then EmptyString else String c EmptyString
      | r' => String c r'
      end
  end.

Fixpoint after_last_slash (s : string) : string :=
  match s with
  | EmptyString => EmptyString
  | String c r =>
      if has_slash r then after_last_slash r
      else if is_slash c then r else s
  end.

(** [basename] of libgen.h; [None] is the null pointer. *)
Definition basename (path : option string) : string :=
  match path with
  | None => "."
  | Some EmptyString => "."
  | Some p =>
      match strip_slashes p with
      | EmptyString => "/"
      | q => after_last_slash q
      end
  end.

(** The text of [%d]. *)
Definition decimal (z : Z) : string := NilZero.string_of_int (Z.to_int z).

Definition LF : string := String (ascii_of_nat 10) EmptyString.

(** A buffer holding the one character [c] followed by NUL. *)
Definition char_string (c : Z) : string :=
  if to_uint8 c =? 0 then EmptyString
  else String (ascii_of_N (Z.to_N (to_uint8 c))) EmptyString.

End Libc.

(* ================================================================== *)
(** ** main.c *)

Module Bdfe.
Import Libc.

(** [#define DISPLAY_FONT 0x80000000] *)
Definition DISPLAY_FONT : Z := 0x80000000.

(** What main.c takes from bdf.h, ossd_i2c.h, pi2c.h and rterm.h.  The
    values of the macros are not fixed here.  [ossd_dim] is the conversion
    on a store into the [gw] and [gh] fields of [ossd_font_t], whose
    declaration is in ossd_i2c.h. *)
Record headers : Type := {
  BDF_HEADER : Z;
  BDF_VERBOSE : Z;
  BDF_GPL : Z;
  BDF_NATIVE : Z;
  BDF_ROTATE : Z;
  BDF_FLIP : Z;
  BDF_DROPLAST : Z;
  OSSD_UPDOWN : Z;
  OSSD_FONT_USER : Z;
  OSSD_TEXT_REVERSE : Z;
  OSSD_TEXT_UNDERLINE : Z;
  OSSD_TEXT_OVERLINE : Z;
  PI2C_BUS : Z;
  TERM_MODE_RAW : Z;
  TERM_MODE_CAN : Z;
  ossd_dim : Z -> Z
}.

(** The fields of [bdfe_t] that main.c reads. *)
Record bdfe_t : Type := {
  gw : Z;
  bpg : Z;
  chars : Z;
  font : list Z
}.

(** [ossd_font_t], as main.c fills it. *)
Record ossd_font_t : Type := {
  of_gw : Z;
  of_gh : Z;
  of_go : Z;
  of_gn : Z;
  of_font : list Z
}.

(** What the program does to the outside, one constructor per call.
    The call of [bdf_convert] is one event, with what it returns: what
    the engine does during the call is in bdf.c.  [free(font)] has no
    event, the heap is not modelled. *)
Inductive event : Type :=
| printf (text : string)
| fprintf_stderr (text : string)
| bdf_convert_call (file : string) (gmin gmax ascender : Z) (flags : Z)
                   (result : option bdfe_t)
| pi2c_open (bus : Z) (result : Z)
| pi2c_select (bus : Z) (address : Z)
| pi2c_close (bus : Z)
| ossd_init (orientation : Z)
| ossd_set_user_font (user_font : ossd_font_t)
| ossd_select_font (f : Z)
| ossd_putlx (line x : Z) (str : string) (atr : Z)
| ossd_fill_screen (data : Z)
| stdin_mode (mode : Z)
| stdin_getch (timeout : Z) (key : Z).

(** The call of the conversion engine. *)
Definition is_conversion (e : event) : bool :=
  match e with
  | bdf_convert_call _ _ _ _ _ _ => true
  | _ => false
  end.

(** The usage text, the one thing written to standard output. *)
Definition is_usage_text (e : event) : bool :=
  match e with
  | printf _ => true
  | _ => false
  end.

(** Display initialization, font upload and preview output: what reaches
    the display or the I2C bus under it. *)
Definition is_display (e : event) : bool :=
  match e with
  | pi2c_open _ _ | pi2c_select _ _ | pi2c_close _
  | ossd_init _ | ossd_set_user_font _ | ossd_select_font _
  | ossd_putlx _ _ _ _ | ossd_fill_screen _ => true
  | _ => false
  end.

(** How a run ends: [main] returns, the run faults (a null pointer is
    read, a division by zero, a buffer overrun), or it is still running
    when the fuel of the model is spent. *)
Inductive outcome : Type :=
| Return (code : Z)
| Fault
| Running.

Inductive flow (A : Type) : Type :=
| Go (a : A)
| Halt (o : outcome).
Arguments Go {A} a.
Arguments Halt {A} o.

(** Computations of main.c: the events so far and how to go on. *)
Definition io (A : Type) : Type := (list event * flow A)%type.

Definition ret {A : Type} (x : A) : io A := ([], Go x).
Definition emit (e : event) : io unit := ([e], Go tt).
Definition halt {A : Type} (o : outcome) : io A := ([], Halt o).

Definition bind {A B : Type} (m : io A) (k : A -> io B) : io B :=
  match m with
  | (es, Go x) => let (es', r) := k x in (es ++ es', r)
  | (es, Halt o) => (es, Halt o)
  end.

Notation "x <- m ;; k" := (bind m (fun x => k))
  (at level 61, m at next level, right associativity).
Notation "m ;;; k" := (bind m (fun _ => k))
  (at level 61, right associativity).

(** The environment of a run: the conversion engine, the result of
    opening the I2C bus, and the keys typed at the preview. *)
Record env : Type := {
  bdf_convert : string -> Z -> Z -> Z -> Z -> option bdfe_t;
  pi2c_open_result : Z;
  stdin_keys : nat -> Z
}.

(** The locals of [main] that the option loop assigns. *)
Record opts : Type := {
  flags : Z;
  i2c_address : Z;
  orientation : Z;
  ascender : Z;
  gmin : Z;
  gmax : Z
}.

Definition initial : opts :=
  {| flags := 0; i2c_address := 0x3C; orientation := 0;
     ascender := 0; gmin := 32; gmax := 126 |}.

Definition or_flags (bit : Z) (v : opts) : opts :=
  {| flags := Z.lor (flags v) bit; i2c_address := i2c_address v;
     orientation := orientation v; ascender := ascender v;
     gmin := gmin v; gmax := gmax v |}.

Definition set_i2c_address (x : Z) (v : opts) : opts :=
  {| flags := flags v; i2c_address := x;
     orientation := orientation v; ascender := ascender v;
     gmin := gmin v; gmax := gmax v |}.

Definition set_orientation (x : Z) (v : opts) : opts :=
  {| flags := flags v; i2c_address := i2c_address v;
     orientation := x; ascender := ascender v;
     gmin := gmin v; gmax := gmax v |}.

Definition set_ascender (x : Z) (v : opts) : opts :=
  {| flags := flags v; i2c_address := i2c_address v;
     orientation := orientation v; ascender := x;
     gmin := gmin v; gmax := gmax v |}.

Definition set_range (lo hi : Z) (v : opts) : opts :=
  {| flags := flags v; i2c_address := i2c_address v;
     orientation := orientation v; ascender := ascender v;
     gmin := lo; gmax := hi |}.

(** The loop variable [i] with the locals. *)
Record cursor : Type := {
  idx : nat;
  vars : opts
}.

Definition same_arg (p : option string) (arg : string) : bool :=
  match p with
  | Some s => String.eqb arg s
  | None => false
  end.

Definition arg_is (arg : string) (sarg larg : option string) : bool :=
  if same_arg sarg arg then true
  else if same_arg larg arg then true
  else false.

Definition usage (name : string) : list event :=
  [ printf (name ++ " [options] <bdf file>" ++ LF)%string;
    printf ("  options are:" ++ LF)%string;
    printf ("  header:     print file header" ++ LF)%string;
    printf ("  verbose:    add extra info to the header" ++ LF)%string;
    printf ("  line:       one line per glyph" ++ LF)%string;
    printf ("  subset a-b: subset of glyphs to convert a to b, default 32-126"
            ++ LF)%string;
    printf ("  all:        print all glyphs, not just 32-126" ++ LF)%string;
    printf ("  native:     do not adjust font height 8 pixels" ++ LF)%string;
    printf ("  ascender H: add extra ascender of H pixels per glyph"
            ++ LF)%string;
    printf ("  rotate:     rotate glyphs' bitmaps CCW" ++ LF)%string;
    printf ("  display A:  show converted font on SSD1306 compatible display"
            ++ LF)%string;
    printf ("              using I2C bus 1, hexadecimal address A (default 3C)"
            ++ LF)%string;
    printf ("  updown:     display orientation is upside down" ++ LF)%string;
    printf ("  flip:       reverse bit order (used with rotate)" ++ LF)%string;
    printf ("  droplast:   leave off last byte (used for fonts where last byte is always 0x00)"
            ++ LF)%string ].

Section Main.

Variable K : headers.
Variable M : abi.
(** Whether [__MACOS_X__] is defined. *)
Variable macos : bool.
Variable E : env.
Variable argv : list string.

Definition argc : nat := List.length argv.

(** [argv[i]] where the program reads the string: [argv[argc]] is the
    null pointer, and reading through it faults. *)
Definition arg (i : nat) : io string :=
  match nth_error argv i with
  | Some s => ret s
  | None => halt Fault
  end.

(** [if (arg_is(argv[i], "-?", "help")) { usage(...); return 0; }] *)
Definition opt_help (c : cursor) : io cursor :=
  s <- arg (idx c) ;;
  if arg_is s (Some "-?") (Some "help")
  then (usage (basename (nth_error argv 0)), Halt (Return 0))
  else ret c.

(** [if (arg_is(argv[i], sarg, larg)) flags |= bit;] *)
Definition opt_flag (sarg larg : string) (bit : Z) (c : cursor)
  : io cursor :=
  s <- arg (idx c) ;;
  if arg_is s (Some sarg) (Some larg)
  then ret {| idx := idx c; vars := or_flags bit (vars c) |}
  else ret c.

(** Lines 107-110. *)
Definition opt_ascender (c : cursor) : io cursor :=
  s <- arg (idx c) ;;
  if arg_is s (Some "-a") (Some "ascender") then
    if (idx c <? argc)%nat then
      n <- arg (S (idx c)) ;;
      if isdigit (deref n)
      then ret {| idx := S (idx c);
                  vars := set_ascender (to_unsigned (atoi M n)) (vars c) |}
      else ret c
    else ret c
  else ret c.

(** Lines 119-127, on the argument of the subset option. *)
Definition parse_subset (n : string) : Z * Z :=
  let '(v, e) := strtoul M n 10 in
  let lo := to_unsigned v in
  let hi := lo in
  let hi :=
    if Ascii.eqb (deref e) "-"
    then to_unsigned (fst (strtoul M (next e) 10))
    else hi in
  if hi <? lo then (hi, lo) else (lo, hi).

(** Lines 115-129. *)
Definition opt_subset (c : cursor) : io cursor :=
  s <- arg (idx c) ;;
  if arg_is s (Some "-s") (Some "subset") then
    if (idx c <? argc)%nat then
      n <- arg (S (idx c)) ;;
      if isdigit (deref n)
      then let (lo, hi) := parse_subset n in
           ret {| idx := S (idx c); vars := set_range lo hi (vars c) |}
      else ret c
    else ret c
  else ret c.

(** Lines 131-134. *)
Definition opt_all (c : cursor) : io cursor :=
  s <- arg (idx c) ;;
  if arg_is s (Some "-a") (Some "all")
  then ret {| idx := idx c; vars := set_range 0 0xFFFFFFFF (vars c) |}
  else ret c.

(** Lines 142-150. *)
Definition opt_display (c : cursor) : io cursor :=
  s <- arg (idx c) ;;
  if arg_is s (Some "-d") (Some "display") then
    let v := or_flags DISPLAY_FONT (vars c) in
    if (idx c <? argc)%nat then
      n <- arg (S (idx c)) ;;
      if isxdigit (deref n) then
        let i2ca := to_unsigned (fst (strtoul M n 16)) in
        ret {| idx := S (idx c);
               vars := if negb (i2ca =? 0) && (i2ca <? 0x78)
                       then set_i2c_address (to_uint8 i2ca) v else v |}
      else ret {| idx := idx c; vars := v |}
    else ret {| idx := idx c; vars := v |}
  else ret c.

(** Lines 152-153. *)
Definition opt_updown (c : cursor) : io cursor :=
  s <- arg (idx c) ;;
  if arg_is s (Some "-u") (Some "updown")
  then ret {| idx := idx c;
              vars := set_orientation (to_uint8 (OSSD_UPDOWN K)) (vars c) |}
  else ret c.

(** The body of the [for] loop, lines 96-159: thirteen tests in a row,
    each on [argv[i]] for the value [i] has when the test is reached. *)
Definition body (c : cursor) : io cursor :=
  c <- opt_help c ;;
  c <- opt_flag "-h" "header" (BDF_HEADER K) c ;;
  c <- opt_flag "-v" "verbose" (BDF_VERBOSE K) c ;;
  c <- opt_ascender c ;;
  c <- opt_flag "-l" "line" (BDF_GPL K) c ;;
  c <- opt_subset c ;;
  c <- opt_all c ;;
  c <- opt_flag "-n" "native" (BDF_NATIVE K) c ;;
  c <- opt_flag "-r" "rotate" (BDF_ROTATE K) c ;;
  c <- opt_display c ;;
  c <- opt_updown c ;;
  c <- opt_flag "-f" "flip" (BDF_FLIP K) c ;;
  opt_flag "-l" "droplast" (BDF_DROPLAST K) c.

(** [for (int i = 1; i < argc; i++) { body }], from the cursor [c]. *)
Fixpoint option_loop (fuel : nat) (c : cursor) : io opts :=
  if (idx c <? argc)%nat then
    match fuel with
    | O => halt Running
    | S fuel' =>
        c' <- body c ;;
        option_loop fuel' {| idx := S (idx c'); vars := vars c' |}
    end
  else ret (vars c).

(** Lines 95-161: the fuel [argc] is never spent (lemma
    [parse_options_terminates]). *)
Definition parse_options : io opts :=
  option_loop argc {| idx := 1; vars := initial |}.

(** *** The loop body by cases on [argv[i]]

    [body_cases] is what the thirteen tests come to, by the kind of
    [argv[i]]; lemma [body_by_cases] shows it equal to [body]. *)

(** The tests that take no argument, in program order. *)
Definition plain (a : string) (v : opts) : opts :=
  let test (s l : string) (f : opts -> opts) (v : opts) :=
    if arg_is a (Some s) (Some l) then f v else v in
  let v := test "-h" "header" (or_flags (BDF_HEADER K)) v in
  let v := test "-v" "verbose" (or_flags (BDF_VERBOSE K)) v in
  let v := test "-l" "line" (or_flags (BDF_GPL K)) v in
  let v := test "-a" "all" (set_range 0 0xFFFFFFFF) v in
  let v := test "-n" "native" (or_flags (BDF_NATIVE K)) v in
  let v := test "-r" "rotate" (or_flags (BDF_ROTATE K)) v in
  let v := test "-u" "updown"
             (set_orientation (to_uint8 (OSSD_UPDOWN K))) v in
  let v := test "-f" "flip" (or_flags (BDF_FLIP K)) v in
  test "-l" "droplast" (or_flags (BDF_DROPLAST K)) v.

(** The three tests that follow the display option, met by its argument. *)
Definition after_display (n : string) (v : opts) : opts :=
  let test (s l : string) (f : opts -> opts) (v : opts) :=
    if arg_is n (Some s) (Some l) then f v else v in
  let v := test "-u" "updown"
             (set_orientation (to_uint8 (OSSD_UPDOWN K))) v in
  let v := test "-f" "flip" (or_flags (BDF_FLIP K)) v in
  test "-l" "droplast" (or_flags (BDF_DROPLAST K)) v.

Definition display_address (n : string) (v : opts) : opts :=
  let i2ca := to_unsigned (fst (strtoul M n 16)) in
  if negb (i2ca =? 0) && (i2ca <? 0x78)
  then set_i2c_address (to_uint8 i2ca) v else v.

Definition body_cases (c : cursor) : io cursor :=
  let i := idx c in
  let v := vars c in
  match nth_error argv i with
  | None => halt Fault
  | Some a =>
      if arg_is a (Some "-?") (Some "help") then
        (usage (basename (nth_error argv 0)), Halt (Return 0))
      else if arg_is a (Some "-a") (Some "ascender") then
        match nth_error argv (S i) with
        | None => halt Fault
        | Some n =>
            if isdigit (deref n)
            then ret {| idx := S i;
                        vars := set_ascender (to_unsigned (atoi M n)) v |}
            else ret {| idx := i; vars := plain a v |}
        end
      else if arg_is a (Some "-s") (Some "subset") then
        match nth_error argv (S i) with
        | None => halt Fault
        | Some n =>
            if isdigit (deref n)
            then let (lo, hi) := parse_subset n in
                 ret {| idx := S i; vars := set_range lo hi v |}
            else ret {| idx := i; vars := v |}
        end
      else if arg_is a (Some "-d") (Some "display") then
        match nth_error argv (S i) with
        | None => halt Fault
        | Some n =>
            if isxdigit (deref n)
            then ret {| idx := S i;
                        vars := after_display n
                                  (display_address n
                                     (or_flags DISPLAY_FONT v)) |}
            else ret {| idx := i; vars := or_flags DISPLAY_FONT v |}
        end
      else ret {| idx := i; vars := plain a v |}
  end.

(** [#ifndef __MACOS_X__ ... #endif] around a call of the display or of
    the I2C bus. *)
Definition hw (e : event) : io unit :=
  if macos then ret tt else emit e.

(** [stdin_getch(-1)], the [n]-th read of the run. *)
Definition getch (n : nat) : io Z :=
  let k := stdin_keys E n in
  emit (stdin_getch (-1) k) ;;; ret k.

Definition prompt : string :=
  ("Press any key to continue, 'q' to exit" ++ LF)%string.

(** Lines 184-189. *)
Definition user_font (font_ : bdfe_t) (v : opts) : ossd_font_t :=
  {| of_gw := ossd_dim K (gw font_);
     of_gh := ossd_dim K (bpg font_);
     of_go := to_uint8 (gmin v);
     of_gn := to_uint8 (chars font_);
     of_font := font font_ |}.

(** What may follow the conversion in the events of a run: neither a
    second conversion nor usage text, and no font upload but the one of
    lines 184-193. *)
Definition follows (fnt : bdfe_t) (v : opts) (e : event) : Prop :=
  is_conversion e = false /\ is_usage_text e = false /\
  forall uf, e = ossd_set_user_font uf -> uf = user_font fnt v.

Section Preview.

Variable fnt : bdfe_t.
Variable uf : ossd_font_t.
(** [int gh = (of.gh + 7)/8;] *)
Variable gh : Z.

(** Lines 224-229, with [cols] the number of rounds [i] still has to go:
    [for (...; i < (128/of.gw) && gidx < font->chars; i++, gidx++)]. *)
Fixpoint glyph_cells (cols : nat) (i line gidx : Z) : io Z :=
  match cols with
  | O => ret gidx
  | S cols' =>
      if gidx <? chars fnt then
        hw (ossd_putlx line (i * of_gw uf)
                       (char_string (gidx + of_go uf)) 0) ;;;
        glyph_cells cols' (i + 1) line (to_unsigned (gidx + 1))
      else ret gidx
  end.

(** The inner [for]: [128/of.gw] divides by zero when the width is 0. *)
Definition glyph_row (line gidx : Z) : io Z :=
  if of_gw uf =? 0 then halt Fault
  else glyph_cells (Z.to_nat (128 ÷ of_gw uf)) 0 line gidx.

(** Line 223: [for (int line = 0, l = 0; line < 8; line += gh, l++)]. *)
Fixpoint glyph_lines (fuel : nat) (line gidx : Z) : io Z :=
  if line <? 8 then
    match fuel with
    | O => halt Running
    | S fuel' =>
        gidx' <- glyph_row line gidx ;;
        glyph_lines fuel' (line + gh) gidx'
    end
  else ret gidx.

(** Lines 215-231, the [do ... while (gidx < font->chars)] loop; [nkey]
    counts the keys read so far. *)
Fixpoint pages (fuel : nat) (gidx : Z) (nkey : nat) : io unit :=
  match fuel with
  | O => halt Running
  | S fuel' =>
      quit <- (if 0 <? gidx then
                 emit (fprintf_stderr prompt) ;;;
                 k <- getch nkey ;;
                 if k =? 113 then ret true
                 else hw (ossd_fill_screen 0) ;;; ret false
               else ret false) ;;
      if (quit : bool) then ret tt
      else
        gidx' <- glyph_lines fuel' 0 gidx ;;
        if gidx' <? chars fnt
        then pages fuel' gidx' (if 0 <? gidx then S nkey else nkey)
        else ret tt
  end.

End Preview.

(** Lines 176-241: the preview on the display. *)
Definition preview (fuel : nat) (file : string) (fnt : bdfe_t) (v : opts)
  : io Z :=
  (if macos then ret tt
   else
     let r := pi2c_open_result E in
     emit (pi2c_open (PI2C_BUS K) r) ;;;
     if r <? 0 then
       emit (fprintf_stderr ("Unable to open i2c bus "
                             ++ decimal (PI2C_BUS K) ++ LF)%string) ;;;
       halt (Return (-1))
     else emit (pi2c_select (PI2C_BUS K) (i2c_address v))) ;;;
  let uf := user_font fnt v in
  hw (ossd_init (orientation v)) ;;;
  hw (ossd_set_user_font uf) ;;;
  hw (ossd_select_font (OSSD_FONT_USER K)) ;;;
  let gh := (of_gh uf + 7) ÷ 8 in
  let buf := (decimal (of_gw uf) ++ "x" ++ decimal (of_gh uf))%string in
  (* [char buf[16]; sprintf(buf, "%dx%d", of.gw, of.gh);] *)
  if (16 <=? String.length buf)%nat then halt Fault
  else
    hw (ossd_putlx 0 (-1) (basename (Some file)) (OSSD_TEXT_REVERSE K)) ;;;
    hw (ossd_putlx (8 - gh) (-1) buf
          (Z.lor (OSSD_TEXT_UNDERLINE K) (OSSD_TEXT_OVERLINE K))) ;;;
    emit (stdin_mode (TERM_MODE_RAW K)) ;;;
    emit (fprintf_stderr prompt) ;;;
    k <- getch 0 ;;
    (if k =? 113 then ret tt
     else hw (ossd_fill_screen 0) ;;; pages fnt uf gh fuel 0 1) ;;;
    (* exit: *)
    emit (stdin_mode (TERM_MODE_CAN K)) ;;;
    hw (pi2c_close (PI2C_BUS K)) ;;;
    ret 0.

(** Lines 163-174, and the preview when it is asked for. *)
Definition convert_and_show (fuel : nat) (v : opts) : io Z :=
  file <- arg (argc - 1) ;;
  let r := bdf_convert E file (gmin v) (gmax v) (ascender v) (flags v) in
  emit (bdf_convert_call file (gmin v) (gmax v) (ascender v) (flags v) r) ;;;
  match r with
  | None =>
      emit (fprintf_stderr
              ("Unable to convert '" ++ file ++ "'" ++ LF)%string) ;;;
      halt (Return (-1))
  | Some fnt =>
      if Z.land (flags v) DISPLAY_FONT =? 0 then ret 0
      else preview fuel file fnt v
  end.

Definition run (fuel : nat) : io Z :=
  if (argc <? 2)%nat
  then (usage (basename (nth_error argv 0)), Halt (Return (-1)))
  else
    v <- parse_options ;;
    convert_and_show fuel v.

(** [main(argc, argv)]: the events of the run and how it ends.  [fuel]
    bounds the rounds of the preview loops. *)
Definition main (fuel : nat) : list event * outcome :=
  match run fuel with
  | (es, Go code) => (es, Return code)
  | (es, Halt o) => (es, o)
  end.

End Main.

End Bdfe.

(* ================================================================== *)
(** ** The conversion engine, from the specification *)

Module Engine.
Import Libc Bdfe.

(** Modelled from the spec: the conversion engine (bdf.c, behind
    [bdf_convert]) is missing from the sources; section 3 of the
    specification gives its data.  One parsed glyph: codepoint, declared
    bitmap width and height, bounding-box offsets, and the scanline rows,
    each a list of bytes. *)
Record GlyphRecord : Type := {
  codepoint : Z;
  width : Z;
  height : Z;
  dx : Z;
  dy : Z;
  rows : list (list Z)
}.

(** Modelled from the spec: the bitmap of a glyph on its way through
    normalization and transform, the pixel width and the packed bytes. *)
Record Bitmap : Type := {
  bm_width : Z;
  bm_bytes : list Z
}.

(** Modelled from the spec: a glyph after normalization and transform,
    the byte buffer with the pixel width, plus the retained codepoint. *)
Record TransformedGlyph : Type := {
  tg_codepoint : Z;
  tg_width : Z;
  tg_bytes : list Z
}.

(** Modelled from the spec: the final artifact of section 3. *)
Record PackedFont : Type := {
  glyph_width : Z;
  bytes_per_glyph : Z;
  glyph_count : Z;
  first_codepoint : Z;
  packed : list Z
}.

(** Modelled from the spec: SubsetFilter (4.3), [retain(codepoint, min,
    max)] is true iff [min <= codepoint <= max]. *)
Definition retain (cp min max : Z) : bool :=
  (min <=? cp) && (cp <=? max).

(** Modelled from the spec: Flip (4.5) reverses the bit order within a
    packed byte, bit 0 and bit 7 swap, bit 1 and bit 6 swap, and so on. *)
Definition flip_byte (b : Z) : Z :=
  fold_right
    (fun i acc => if Z.testbit b i then Z.lor (Z.shiftl 1 (7 - i)) acc
                  else acc)
    0 [0; 1; 2; 3; 4; 5; 6; 7].

(** Modelled from the spec: Flip on the buffer of a glyph, every packed
    byte reversed. *)
Definition Flip (buf : list Z) : list Z := map flip_byte buf.

(** Modelled from the spec: a packed byte, eight bits. *)
Definition is_byte (b : Z) : Prop := 0 <= b < 256.

(** Modelled from the spec: DropLast (4.5) removes the final byte of the
    buffer and fails on an empty buffer. *)
Definition DropLast (buf : list Z) : option (list Z) :=
  match buf with
  | [] => None
  | _ => Some (removelast buf)
  end.

(** Modelled from the spec: a transform changes the bytes of a bitmap. *)
Definition with_bytes (g : Bitmap) (b : list Z) : Bitmap :=
  {| bm_width := bm_width g; bm_bytes := b |}.

(** Modelled from the spec: the glyphs are packed in ascending codepoint
    order (4.6); [insert_glyph] puts one glyph in its place. *)
Fixpoint insert_glyph (g : TransformedGlyph) (l : list TransformedGlyph)
  : list TransformedGlyph :=
  match l with
  | [] => [g]
  | h :: t =>
      if tg_codepoint g <=? tg_codepoint h then g :: l
      else h :: insert_glyph g t
  end.

(** Modelled from the spec: ascending codepoint order. *)
Definition by_codepoint (l : list TransformedGlyph)
  : list TransformedGlyph :=
  fold_right insert_glyph [] l.

(** Modelled from the spec: the lowest retained codepoint (4.6), of a
    non-empty list of glyphs. *)
Definition lowest_codepoint (g : TransformedGlyph)
  (l : list TransformedGlyph) : Z :=
  fold_left Z.min (map tg_codepoint l) (tg_codepoint g).

(** Modelled from the spec: FontAssembler (4.6) packs the surviving
    glyphs in ascending codepoint order and fails with EmptyFont when
    none survives. *)
Definition assemble (l : list TransformedGlyph) : option PackedFont :=
  match by_codepoint l with
  | [] => None
  | g :: rest =>
      Some {| glyph_width := tg_width g;
              bytes_per_glyph := Z.of_nat (List.length (tg_bytes g));
              glyph_count := Z.of_nat (List.length (g :: rest));
              first_codepoint := lowest_codepoint g rest;
              packed := List.concat (map tg_bytes (g :: rest)) |}
  end.

(** Modelled from the spec: a glyph whose transform fails is dropped,
    the others go on (section 7). *)
Fixpoint keep_some {X : Type} (l : list (option X)) : list X :=
  match l with
  | [] => []
  | Some x :: t => x :: keep_some t
  | None :: t => keep_some t
  end.

Section Pipeline.

(** Modelled from the spec: BdfTextScanner and GlyphCollector (4.1,
    4.2) on the named source, a parameter: the glyphs of the font, or
    nothing when the source cannot be opened or is malformed beyond
    per-glyph recovery. *)
Variable read_font : string -> option (list GlyphRecord).
(** Modelled from the spec: HeightNormalizer (4.4), a parameter, from
    the ascender and the native flag. *)
Variable normalize : Z -> bool -> GlyphRecord -> Bitmap.
(** Modelled from the spec: Rotate (4.5), a parameter. *)
Variable Rotate : Bitmap -> Bitmap.

(** Modelled from the spec: GeometryTransformer (4.5), rotate, then
    flip, then droplast, each if requested. *)
Definition transform (rotate flip droplast : bool) (g : Bitmap)
  : option Bitmap :=
  let g := if rotate then Rotate g else g in
  let g := if flip then with_bytes g (Flip (bm_bytes g)) else g in
  if droplast then option_map (with_bytes g) (DropLast (bm_bytes g))
  else Some g.

(** Modelled from the spec: one glyph through normalizer and
    transformer; its codepoint stays. *)
Definition shape (ascender : Z) (native rotate flip droplast : bool)
  (g : GlyphRecord) : option TransformedGlyph :=
  option_map
    (fun b => {| tg_codepoint := codepoint g; tg_width := bm_width b;
                 tg_bytes := bm_bytes b |})
    (transform rotate flip droplast (normalize ascender native g)).

(** Modelled from the spec: the glyphs that survive filtering (4.3). *)
Definition retained (glyphs : list GlyphRecord) (min max : Z)
  : list GlyphRecord :=
  filter (fun g => retain (codepoint g) min max) glyphs.

(** Modelled from the spec: the control flow of section 2, Scanner to
    Collector to Filter to Normalizer to Transformer to Assembler; a
    glyph whose transform fails is dropped. *)
Definition convert (file : string) (min max ascender : Z)
  (native rotate flip droplast : bool) : option PackedFont :=
  match read_font file with
  | None => None
  | Some glyphs =>
      assemble
        (keep_some
           (map (shape ascender native rotate flip droplast)
                (retained glyphs min max)))
  end.

(** Modelled from the spec: the artifact as [main] reads it, glyph
    width, bytes per glyph, glyph count and packed bytes (section 6). *)
Definition to_bdfe (p : PackedFont) : bdfe_t :=
  {| gw := glyph_width p; bpg := bytes_per_glyph p;
     chars := glyph_count p; font := packed p |}.

(** Modelled from the spec: a flag of the flag set (section 6) is
    requested when its bit is set in the flags of the call. *)
Definition has_flag (fl bit : Z) : bool := negb (Z.land fl bit =? 0).

(** Modelled from the spec: [bdf_convert] as the engine of the
    specification, for the environment of [main]. *)
Definition engine (K : headers)
  : string -> Z -> Z -> Z -> Z -> option bdfe_t :=
  fun file lo hi asc fl =>
    option_map to_bdfe
      (convert file lo hi asc
         (has_flag fl (BDF_NATIVE K)) (has_flag fl (BDF_ROTATE K))
         (has_flag fl (BDF_FLIP K)) (has_flag fl (BDF_DROPLAST K))).

End Pipeline.

End Engine.

(* ================================================================== *)
(** ** Statements about a run, and inputs for examples *)

Module Claims.
Import Libc Bdfe Engine.

(** The range handed to the conversion is the full unsigned range. *)
Definition full_range_passed (t : list event) : Prop :=
  forall file lo hi asc fl r,
    In (bdf_convert_call file lo hi asc fl r) t ->
    lo = 0 /\ hi = 4294967295.

(** The glyph offset handed to the display is the first codepoint of the
    packed font [p]. *)
Definition offset_is_first_codepoint (t : list event) (p : PackedFont)
  : Prop :=
  forall uf, In (ossd_set_user_font uf) t -> of_go uf = first_codepoint p.

(** No argument asks for a range: none is the subset option or the word
    [all], and [-a] only comes with a number after it, as the ascender. *)
Definition no_range_option (argv : list string) : Prop :=
  forall j s,
    (1 <= j)%nat -> nth_error argv j = Some s ->
    arg_is s (Some "-s") (Some "subset") = false /\
    s <> "all" /\
    (s = "-a" ->
     exists n, nth_error argv (S j) = Some n /\ isdigit (deref n) = true).

(** The round of the option loop on [argv[i]] takes [argv[i+1]] with
    it: the number of the ascender or of the subset option (lines
    108-109 and 116-117), or the address of the display option (lines
    144-145). *)
Definition takes_next (argv : list string) (i : nat) : bool :=
  match nth_error argv i, nth_error argv (S i) with
  | Some a, Some n =>
      (arg_is a (Some "-a") (Some "ascender") && isdigit (deref n))
      || (arg_is a (Some "-s") (Some "subset") && isdigit (deref n))
      || (arg_is a (Some "-d") (Some "display") && isxdigit (deref n))
  | _, _ => false
  end.

(** Where the round after the one on [argv[i]] starts. *)
Definition next_round (argv : list string) (i : nat) : nat :=
  if takes_next argv i then S (S i) else S i.

(** The arguments the loop of lines 95-161 has a round on, from
    [argv[i]] on: the others are taken by the round before them. *)
Fixpoint rounds_from (fuel : nat) (argv : list string) (i : nat)
  : list nat :=
  match fuel with
  | O => []
  | S fuel' =>
      if (i <? argc argv)%nat
      then i :: rounds_from fuel' argv (next_round argv i)
      else []
  end.

Definition rounds (argv : list string) : list nat :=
  rounds_from (argc argv) argv 1.

(** [argv[k]] asks for all glyphs: it is the word [all] and a round of
    the loop is on it, so it was not taken as the address of a display
    option; or it is [-a] before an argument that is no number. *)
Definition asks_all (argv : list string) (k : nat) : Prop :=
  (In k (rounds argv) /\ nth_error argv k = Some "all")
  \/ ((1 <= k)%nat /\ nth_error argv k = Some "-a" /\
      exists n, nth_error argv (S k) = Some n /\
                isdigit (deref n) = false).

(** No argument after [argv[k]] asks for all glyphs. *)
Definition no_all_after (argv : list string) (k : nat) : Prop :=
  forall j, (k < j)%nat -> ~ asks_all argv j.

(** No subset option with a number after it follows [argv[k]]. *)
Definition no_subset_after (argv : list string) (k : nat) : Prop :=
  forall j s n,
    (k < j)%nat -> nth_error argv j = Some s ->
    arg_is s (Some "-s") (Some "subset") = true ->
    nth_error argv (S j) = Some n -> isdigit (deref n) = false.

End Claims.

Module Sample.
Import Libc Bdfe Engine.

(** An assignment of the header constants, for examples. *)
Definition headers0 : headers :=
  {| BDF_HEADER := 1; BDF_VERBOSE := 2; BDF_GPL := 4; BDF_NATIVE := 8;
     BDF_ROTATE := 16; BDF_FLIP := 32; BDF_DROPLAST := 64;
     OSSD_UPDOWN := 1; OSSD_FONT_USER := 3; OSSD_TEXT_REVERSE := 1;
     OSSD_TEXT_UNDERLINE := 2; OSSD_TEXT_OVERLINE := 4;
     PI2C_BUS := 1; TERM_MODE_RAW := 1; TERM_MODE_CAN := 0;
     ossd_dim := to_uint8 |}.

(** The 8x8 glyph of section 8: all rows zero except row 3. *)
Definition glyph (cp : Z) : GlyphRecord :=
  {| codepoint := cp; width := 8; height := 8; dx := 0; dy := 0;
     rows := [[0]; [0]; [0]; [126]; [0]; [0]; [0]; [0]] |}.

(** Two fonts: [A.bdf] holds the glyph 65, [ABC.bdf] the glyphs 65, 66
    and 67; no other file can be opened. *)
Definition read_font0 (file : string) : option (list GlyphRecord) :=
  if String.eqb file "A.bdf" then Some [glyph 65]
  else if String.eqb file "ABC.bdf" then Some [glyph 65; glyph 66; glyph 67]
  else None.

(** Stand-ins for the normalizer and the rotation: the rows as they are,
    which is what section 8 expects of an 8-row glyph without flags. *)
Definition normalize0 (ascender : Z) (native : bool) (g : GlyphRecord)
  : Bitmap :=
  {| bm_width := width g; bm_bytes := List.concat (rows g) |}.

Definition Rotate0 (b : Bitmap) : Bitmap := b.

(** An environment with the engine over these fonts; every key typed at
    the preview is [q]. *)
Definition env0 : env :=
  {| bdf_convert := engine read_font0 normalize0 Rotate0 headers0;
     pi2c_open_result := 0;
     stdin_keys := fun _ => 113 |}.

End Sample.

(* ================================================================== *)
(** ** Vocabulary for the further properties of main.c *)

Module Props.
Import Libc Bdfe.

(** The options that set a flag and take no argument of their own, with
    the bit each one sets (lines 101-105, 112-113, 136-143, 155-159). *)
Definition flag_options (K : headers) : list (string * string * Z) :=
  [ ("-h", "header", BDF_HEADER K);
    ("-v", "verbose", BDF_VERBOSE K);
    ("-l", "line", BDF_GPL K);
    ("-n", "native", BDF_NATIVE K);
    ("-r", "rotate", BDF_ROTATE K);
    ("-d", "display", DISPLAY_FONT);
    ("-f", "flip", BDF_FLIP K);
    ("-l", "droplast", BDF_DROPLAST K) ].

Definition is_help (s : string) : bool :=
  arg_is s (Some "-?") (Some "help").

Definition is_updown (s : string) : bool :=
  arg_is s (Some "-u") (Some "updown").

Definition is_display_option (s : string) : bool :=
  arg_is s (Some "-d") (Some "display").

(** The options that read [argv[i+1]]. *)
Definition takes_argument (s : string) : bool :=
  arg_is s (Some "-a") (Some "ascender")
  || arg_is s (Some "-s") (Some "subset")
  || is_display_option s.

(** None of the seven flags of bdf.h has the bit of [DISPLAY_FONT]. *)
Definition flags_below_display (K : headers) : Prop :=
  Forall (fun b => Z.land b DISPLAY_FONT = 0)
    [BDF_HEADER K; BDF_VERBOSE K; BDF_GPL K; BDF_NATIVE K;
     BDF_ROTATE K; BDF_FLIP K; BDF_DROPLAST K].

(** What the preview may hand to the bus and to the display driver:
    the bus of pi2c.h, the address and the orientation of the option
    loop, and the result of opening the bus; and nothing at all when
    [__MACOS_X__] is defined. *)
Definition preview_sends (K : headers) (macos : bool) (E : env) (v : opts)
  (e : event) : Prop :=
  match e with
  | pi2c_open b r =>
      macos = false /\ b = PI2C_BUS K /\ r = pi2c_open_result E
  | pi2c_select b a =>
      macos = false /\ b = PI2C_BUS K /\ a = i2c_address v
  | pi2c_close b => macos = false /\ b = PI2C_BUS K
  | ossd_init o => macos = false /\ o = orientation v
  | ossd_set_user_font _ | ossd_select_font _
  | ossd_putlx _ _ _ _ | ossd_fill_screen _ => macos = false
  | _ => True
  end.

(** The glyph cells of the preview, as opposed to its two header lines:
    the calls [ossd_putlx(line, i*of.gw, buf, 0)] of line 227 have a
    column that is not negative, the header lines have the column -1. *)
Definition cell (e : event) : list (Z * Z * string) :=
  match e with
  | ossd_putlx line x str _ => if 0 <=? x then [(line, x, str)] else []
  | _ => []
  end.

Definition cells (t : list event) : list (Z * Z * string) :=
  flat_map cell t.

(** The characters of the glyphs [g, g+1, ..., g+n-1] as line 225 makes
    them, [buf[0] = gidx + of.go]. *)
Fixpoint glyph_chars (go g : Z) (n : nat) : list string :=
  match n with
  | O => []
  | S n' => char_string (g + go) :: glyph_chars go (g + 1) n'
  end.

(** What the display shows of these glyphs: nothing when
    [__MACOS_X__] is defined. *)
Definition drawn (macos : bool) (go g : Z) (n : nat) : list string :=
  if macos then [] else glyph_chars go g n.

(** An environment for examples: the conversion yields the font [fnt]
    for every file, opening the bus gives [bus], and every key typed at
    the preview is [key]. *)
Definition env_with (fnt : bdfe_t) (bus key : Z) : env :=
  {| bdf_convert := fun _ _ _ _ _ => Some fnt;
     pi2c_open_result := bus;
     stdin_keys := fun _ => key |}.

(** A font of [n] glyphs, [w] pixels wide, 8 bytes each, for examples. *)
Definition font_of (w n : Z) : bdfe_t :=
  {| gw := w; bpg := 8; chars := n; font := [] |}.

End Props.

(* ================================================================== *)
(** ** Properties of the option loop *)

Import Libc Bdfe.

Lemma bind_ret_l {X Y : Type} (x : X) (k : X -> io Y) :
  bind (ret x) k = k x.
Proof. unfold bind, ret. destruct (k x). reflexivity. Qed.

Lemma bind_halt_l {X Y : Type} es o (k : X -> io Y) :
  bind (es, Halt o) k = (es, Halt o).
Proof. reflexivity. Qed.

Lemma bind_go {X Y : Type} (m : io X) (k : X -> io Y) es y :
  bind m k = (es, Go y) ->
  exists es1 x es2, m = (es1, Go x) /\ k x = (es2, Go y) /\ es = es1 ++ es2.
Proof.
  unfold bind. destruct m as [es1 [x|o]]; [|discriminate].
  destruct (k x) as [es2 r] eqn:Hk. intros H. inversion H. subst.
  exists es1, x, es2. auto.
Qed.

Section StepEquations.
Variable K : headers.
Variable M : abi.
Variable argv : list string.

Lemma arg_some i a : nth_error argv i = Some a -> arg argv i = ret a.
Proof. unfold arg. intros ->. reflexivity. Qed.

Lemma arg_in_range i a :
  nth_error argv i = Some a -> (i <? argc argv)%nat = true.
Proof.
  intros H. apply Nat.ltb_lt. unfold argc. apply nth_error_Some. congruence.
Qed.

Lemma opt_help_eq i v a :
  nth_error argv i = Some a ->
  opt_help argv {| idx := i; vars := v |} =
  if arg_is a (Some "-?") (Some "help")
  then (usage (basename (nth_error argv 0)), Halt (Return 0))
  else ret {| idx := i; vars := v |}.
Proof.
  intros H. unfold opt_help. cbn [idx vars].
  rewrite (arg_some _ _ H), bind_ret_l. reflexivity.
Qed.

Lemma opt_flag_eq s l b i v a :
  nth_error argv i = Some a ->
  opt_flag argv s l b {| idx := i; vars := v |} =
  ret {| idx := i;
         vars := if arg_is a (Some s) (Some l) then or_flags b v else v |}.
Proof.
  intros H. unfold opt_flag. cbn [idx vars].
  rewrite (arg_some _ _ H), bind_ret_l.
  destruct (arg_is a (Some s) (Some l)); reflexivity.
Qed.

Lemma opt_all_eq i v a :
  nth_error argv i = Some a ->
  opt_all argv {| idx := i; vars := v |} =
  ret {| idx := i;
         vars := if arg_is a (Some "-a") (Some "all")
                 then set_range 0 0xFFFFFFFF v else v |}.
Proof.
  intros H. unfold opt_all. cbn [idx vars].
  rewrite (arg_some _ _ H), bind_ret_l.
  destruct (arg_is a _ _); reflexivity.
Qed.

Lemma opt_updown_eq i v a :
  nth_error argv i = Some a ->
  opt_updown K argv {| idx := i; vars := v |} =
  ret {| idx := i;
         vars := if arg_is a (Some "-u") (Some "updown")
                 then set_orientation (to_uint8 (OSSD_UPDOWN K)) v else v |}.
Proof.
  intros H. unfold opt_updown. cbn [idx vars].
  rewrite (arg_some _ _ H), bind_ret_l.
  destruct (arg_is a _ _); reflexivity.
Qed.

Lemma opt_ascender_eq i v a :
  nth_error argv i = Some a ->
  opt_ascender M argv {| idx := i; vars := v |} =
  if arg_is a (Some "-a") (Some "ascender") then
    match nth_error argv (S i) with
    | None => halt Fault
    | Some n =>
        if isdigit (deref n)
        then ret {| idx := S i;
                    vars := set_ascender (to_unsigned (atoi M n)) v |}
        else ret {| idx := i; vars := v |}
    end
  else ret {| idx := i; vars := v |}.
Proof.
  intros H. unfold opt_ascender. cbn [idx vars].
  rewrite (arg_some _ _ H), bind_ret_l.
  rewrite (arg_in_range _ _ H).
  destruct (arg_is a _ _); [|reflexivity].
  unfold arg. destruct (nth_error argv (S i)) as [n|]; [|reflexivity].
  rewrite bind_ret_l. reflexivity.
Qed.

Lemma opt_subset_eq i v a :
  nth_error argv i = Some a ->
  opt_subset M argv {| idx := i; vars := v |} =
  if arg_is a (Some "-s") (Some "subset") then
    match nth_error argv (S i) with
    | None => halt Fault
    | Some n =>
        if isdigit (deref n) then
          let (lo, hi) := parse_subset M n in
          ret {| idx := S i; vars := set_range lo hi v |}
        else ret {| idx := i; vars := v |}
    end
  else ret {| idx := i; vars := v |}.
Proof.
  intros H. unfold opt_subset. cbn [idx vars].
  rewrite (arg_some _ _ H), bind_ret_l.
  rewrite (arg_in_range _ _ H).
  destruct (arg_is a _ _); [|reflexivity].
  unfold arg. destruct (nth_error argv (S i)) as [n|]; [|reflexivity].
  rewrite bind_ret_l. reflexivity.
Qed.

Lemma opt_display_eq i v a :
  nth_error argv i = Some a ->
  opt_display M argv {| idx := i; vars := v |} =
  if arg_is a (Some "-d") (Some "display") then
    match nth_error argv (S i) with
    | None => halt Fault
    | Some n =>
        if isxdigit (deref n) then
          ret {| idx := S i;
                 vars := display_address M n (or_flags DISPLAY_FONT v) |}
        else ret {| idx := i; vars := or_flags DISPLAY_FONT v |}
    end
  else ret {| idx := i; vars := v |}.
Proof.
  intros H. unfold opt_display. cbn [idx vars].
  rewrite (arg_some _ _ H), bind_ret_l.
  rewrite (arg_in_range _ _ H).
  destruct (arg_is a _ _); [|reflexivity].
  unfold arg. destruct (nth_error argv (S i)) as [n|]; [|reflexivity].
  rewrite bind_ret_l. reflexivity.
Qed.


Lemma arg_is_true a s l :
  arg_is a (Some s) (Some l) = true <-> a = s \/ a = l.
Proof.
  unfold arg_is, same_arg.
  destruct (String.eqb_spec a s); [tauto|].
  destruct (String.eqb_spec a l); [tauto|].
  split; [discriminate | tauto].
Qed.

Lemma arg_is_false a s l :
  arg_is a (Some s) (Some l) = false <-> a <> s /\ a <> l.
Proof.
  rewrite <- not_true_iff_false, arg_is_true. tauto.
Qed.

Lemma digit_arg_is n s l :
  isdigit (deref n) = true ->
  isdigit (deref s) = false -> isdigit (deref l) = false ->
  arg_is n (Some s) (Some l) = false.
Proof.
  intros Hn Hs Hl. apply arg_is_false. split; intros ->; congruence.
Qed.

Ltac eval_arg_is :=
  repeat match goal with
  | |- context [arg_is ?a (Some ?s) (Some ?l)] =>
      let b := eval vm_compute in (arg_is a (Some s) (Some l)) in
      match b with
      | true => change (arg_is a (Some s) (Some l)) with true
      | false => change (arg_is a (Some s) (Some l)) with false
      end
  end; cbv iota.

Ltac step H :=
  first [ rewrite (opt_flag_eq _ _ _ _ _ _ H)
        | rewrite (opt_all_eq _ _ _ H)
        | rewrite (opt_updown_eq _ _ _ H)
        | rewrite (opt_ascender_eq _ _ _ H)
        | rewrite (opt_subset_eq _ _ _ H)
        | rewrite (opt_display_eq _ _ _ H) ];
  eval_arg_is; rewrite ?bind_ret_l.

(** A step on an argument that starts with a digit: no option matches. *)
Ltac step_digit Hn Hd :=
  step Hn;
  match type of Hd with
  | isdigit (deref ?n) = true =>
      rewrite ?(digit_arg_is n _ _ Hd) by reflexivity
  end;
  cbv iota; rewrite ?bind_ret_l.

Lemma body_by_cases c : body K M argv c = body_cases K M argv c.
Proof.
  destruct c as [i v]. unfold body_cases. cbn [idx vars].
  destruct (nth_error argv i) as [a|] eqn:Ha.
  2:{ unfold body, opt_help, arg. cbn [idx]. rewrite Ha. reflexivity. }
  unfold body. rewrite (opt_help_eq _ _ _ Ha).
  destruct (arg_is a (Some "-?") (Some "help")) eqn:Hhelp; [reflexivity|].
  rewrite bind_ret_l.
  destruct (arg_is a (Some "-a") (Some "ascender")) eqn:Hasc.
  { apply arg_is_true in Hasc.
    destruct Hasc; subst a; do 3 step Ha;
      (destruct (nth_error argv (S i)) as [n|] eqn:Hn; [|reflexivity]);
      (destruct (isdigit (deref n)) eqn:Hd; rewrite ?bind_ret_l).
    - repeat step_digit Hn Hd.
      reflexivity.
    - repeat step Ha. reflexivity.
    - repeat step_digit Hn Hd.
      reflexivity.
    - repeat step Ha. reflexivity. }
  destruct (arg_is a (Some "-s") (Some "subset")) eqn:Hsub.
  { apply arg_is_true in Hsub.
    destruct Hsub; subst a; do 5 step Ha;
      (destruct (nth_error argv (S i)) as [n|] eqn:Hn; [|reflexivity]);
      (destruct (isdigit (deref n)) eqn:Hd; rewrite ?bind_ret_l).
    - destruct (parse_subset M n) as [lo hi]. rewrite ?bind_ret_l.
      repeat step_digit Hn Hd.
      reflexivity.
    - repeat step Ha. reflexivity.
    - destruct (parse_subset M n) as [lo hi]. rewrite ?bind_ret_l.
      repeat step_digit Hn Hd.
      reflexivity.
    - repeat step Ha. reflexivity. }
  destruct (arg_is a (Some "-d") (Some "display")) eqn:Hdis.
  { apply arg_is_true in Hdis.
    destruct Hdis; subst a; do 9 step Ha;
      (destruct (nth_error argv (S i)) as [n|] eqn:Hn; [|reflexivity]);
      (destruct (isxdigit (deref n)) eqn:Hd; rewrite ?bind_ret_l).
    - repeat step Hn. reflexivity.
    - repeat step Ha. reflexivity.
    - repeat step Hn. reflexivity.
    - repeat step Ha. reflexivity. }
  do 3 step Ha. rewrite Hasc. cbv iota. rewrite bind_ret_l.
  step Ha. step Ha. rewrite Hsub. cbv iota. rewrite bind_ret_l.
  do 4 step Ha. rewrite Hdis. cbv iota. rewrite bind_ret_l.
  do 3 step Ha. unfold plain.
  reflexivity.
Qed.

End StepEquations.

(** *** Flag words *)

Lemma lor_sets f b : Z.land (Z.lor f b) b = b.
Proof.
  apply Z.bits_inj'. intros n _.
  rewrite Z.land_spec, Z.lor_spec.
  destruct (Z.testbit f n), (Z.testbit b n); reflexivity.
Qed.

Lemma lor_keeps f x b : Z.land f b = b -> Z.land (Z.lor f x) b = b.
Proof.
  intros H. apply Z.bits_inj'. intros n _.
  apply (f_equal (fun z => Z.testbit z n)) in H.
  rewrite Z.land_spec in H. rewrite Z.land_spec, Z.lor_spec.
  destruct (Z.testbit f n), (Z.testbit b n), (Z.testbit x n); simpl in *;
    congruence.
Qed.

Section BodyFacts.
Variable K : headers.
Variable M : abi.
Variable argv : list string.

(** What the tests without argument leave alone. *)
Lemma plain_range a v :
  (gmin (plain K a v), gmax (plain K a v)) =
  if arg_is a (Some "-a") (Some "all") then (0, 4294967295)
  else (gmin v, gmax v).
Proof.
  unfold plain.
  repeat match goal with
         | |- context [if ?b then _ else _] => destruct b
         end; reflexivity.
Qed.

Lemma plain_ascender a v : ascender (plain K a v) = ascender v.
Proof.
  unfold plain.
  repeat match goal with
         | |- context [if ?b then _ else _] => destruct b
         end; reflexivity.
Qed.

Lemma plain_flags a v b :
  Z.land (flags v) b = b -> Z.land (flags (plain K a v)) b = b.
Proof.
  intros H. unfold plain.
  repeat match goal with
         | |- context [if ?b then _ else _] => destruct b
         end; cbn [flags or_flags set_range set_orientation];
    repeat apply lor_keeps; exact H.
Qed.

Lemma after_display_range n v :
  gmin (after_display K n v) = gmin v /\ gmax (after_display K n v) = gmax v.
Proof.
  unfold after_display.
  repeat match goal with
         | |- context [if ?b then _ else _] => destruct b
         end; split; reflexivity.
Qed.

Lemma after_display_flags n v b :
  Z.land (flags v) b = b -> Z.land (flags (after_display K n v)) b = b.
Proof.
  intros H. unfold after_display.
  repeat match goal with
         | |- context [if ?b then _ else _] => destruct b
         end; cbn [flags or_flags set_range set_orientation];
    repeat apply lor_keeps; exact H.
Qed.

Lemma display_address_keeps n v :
  flags (display_address M n v) = flags v /\
  gmin (display_address M n v) = gmin v /\
  gmax (display_address M n v) = gmax v.
Proof.
  unfold display_address.
  destruct (_ && _); repeat split; reflexivity.
Qed.

Lemma parse_subset_ordered n lo hi :
  parse_subset M n = (lo, hi) -> lo <= hi.
Proof.
  unfold parse_subset. destruct (strtoul M n 10) as [v e].
  destruct (Ascii.eqb (deref e) "-");
    match goal with
    | |- context [?x <? ?y] => destruct (Z.ltb_spec x y)
    end; intros Heq; inversion Heq; subst; lia.
Qed.

(** One round of the loop that goes on to the next: it prints nothing,
    and it is one of six cases, three that leave [i] alone and three that
    take [argv[i+1]] as the argument of an option. *)
Lemma body_go c es c' :
  body K M argv c = (es, Go c') ->
  es = [] /\
  exists a,
    nth_error argv (idx c) = Some a /\
    arg_is a (Some "-?") (Some "help") = false /\
    ((idx c' = idx c /\ vars c' = plain K a (vars c) /\
      arg_is a (Some "-s") (Some "subset") = false /\
      arg_is a (Some "-d") (Some "display") = false /\
      (arg_is a (Some "-a") (Some "ascender") = true ->
       exists n, nth_error argv (S (idx c)) = Some n /\
                 isdigit (deref n) = false))
     \/ (idx c' = idx c /\ vars c' = vars c /\
         arg_is a (Some "-s") (Some "subset") = true)
     \/ (idx c' = idx c /\ vars c' = or_flags DISPLAY_FONT (vars c) /\
         arg_is a (Some "-d") (Some "display") = true)
     \/ (exists n,
           nth_error argv (S (idx c)) = Some n /\ isdigit (deref n) = true /\
           arg_is a (Some "-a") (Some "ascender") = true /\
           c' = {| idx := S (idx c);
                   vars := set_ascender (to_unsigned (atoi M n)) (vars c) |})
     \/ (exists n lo hi,
           nth_error argv (S (idx c)) = Some n /\ isdigit (deref n) = true /\
           arg_is a (Some "-s") (Some "subset") = true /\
           parse_subset M n = (lo, hi) /\
           c' = {| idx := S (idx c); vars := set_range lo hi (vars c) |})
     \/ (exists n,
           nth_error argv (S (idx c)) = Some n /\ isxdigit (deref n) = true /\
           arg_is a (Some "-d") (Some "display") = true /\
           c' = {| idx := S (idx c);
                   vars := after_display K n
                             (display_address M n
                                (or_flags DISPLAY_FONT (vars c))) |})).
Proof.
  rewrite body_by_cases. unfold body_cases.
  destruct (nth_error argv (idx c)) as [a|] eqn:Ha; [|discriminate].
  destruct (arg_is a (Some "-?") (Some "help")) eqn:Hhelp; [discriminate|].
  destruct (arg_is a (Some "-a") (Some "ascender")) eqn:Hasc.
  { destruct (nth_error argv (S (idx c))) as [n|] eqn:Hn; [|discriminate].
    assert (arg_is a (Some "-s") (Some "subset") = false /\
            arg_is a (Some "-d") (Some "display") = false) as [Hs Hdi].
    { apply arg_is_true in Hasc. destruct Hasc; subst; split; reflexivity. }
    destruct (isdigit (deref n)) eqn:Hd; intros H; inversion H; subst;
      (split; [reflexivity|]); exists a; (split; [reflexivity|]);
      (split; [exact Hhelp|]).
    - right; right; right; left. exists n. auto.
    - left. cbn [idx vars]. repeat (split; [tauto|]).
      intros _. exists n. auto. }
  destruct (arg_is a (Some "-s") (Some "subset")) eqn:Hsub.
  { destruct (nth_error argv (S (idx c))) as [n|] eqn:Hn; [|discriminate].
    destruct (isdigit (deref n)) eqn:Hd.
    - destruct (parse_subset M n) as [lo hi] eqn:Hp.
      intros H; inversion H; subst.
      split; [reflexivity|]. exists a. split; [reflexivity|].
      split; [exact Hhelp|].
      right; right; right; right; left. exists n, lo, hi. auto.
    - intros H; inversion H; subst.
      split; [reflexivity|]. exists a. split; [reflexivity|].
      split; [exact Hhelp|].
      right; left. auto. }
  destruct (arg_is a (Some "-d") (Some "display")) eqn:Hdis.
  { destruct (nth_error argv (S (idx c))) as [n|] eqn:Hn; [|discriminate].
    destruct (isxdigit (deref n)) eqn:Hd; intros H; inversion H; subst;
      (split; [reflexivity|]); exists a; (split; [reflexivity|]);
      (split; [exact Hhelp|]).
    - right; right; right; right; right. exists n. auto.
    - right; right; left. auto. }
  intros H; inversion H; subst.
  split; [reflexivity|]. exists a. split; [reflexivity|].
  split; [exact Hhelp|].
  left. cbn [idx vars]. repeat (split; [tauto|]). congruence.
Qed.

(** A round moves [i] by at most one, over an argument that starts with a
    hexadecimal digit. *)
Lemma body_index c es c' :
  body K M argv c = (es, Go c') ->
  idx c' = idx c \/
  (idx c' = S (idx c) /\
   exists n, nth_error argv (S (idx c)) = Some n /\
             isxdigit (deref n) = true).
Proof.
  intros H. apply body_go in H.
  destruct H as (_ & a & Ha & _ & [H|[H|[H|[H|[H|H]]]]]).
  - left. tauto.
  - left. tauto.
  - left. tauto.
  - right. destruct H as (n & Hn & Hd & _ & ->). split; [reflexivity|].
    exists n. split; [assumption|]. unfold isxdigit. rewrite Hd. reflexivity.
  - right. destruct H as (n & lo & hi & Hn & Hd & _ & _ & ->).
    split; [reflexivity|].
    exists n. split; [assumption|]. unfold isxdigit. rewrite Hd. reflexivity.
  - right. destruct H as (n & Hn & Hd & _ & ->). split; [reflexivity|].
    exists n. auto.
Qed.

(** The flags only grow. *)
Lemma body_flags c es c' b :
  body K M argv c = (es, Go c') ->
  Z.land (flags (vars c)) b = b -> Z.land (flags (vars c')) b = b.
Proof.
  intros H Hb. apply body_go in H.
  destruct H as (_ & a & Ha & _ & [H|[H|[H|[H|[H|H]]]]]).
  - destruct H as (_ & -> & _). apply plain_flags, Hb.
  - destruct H as (_ & -> & _). exact Hb.
  - destruct H as (_ & -> & _). apply lor_keeps, Hb.
  - destruct H as (n & _ & _ & _ & ->). exact Hb.
  - destruct H as (n & lo & hi & _ & _ & _ & _ & ->). exact Hb.
  - destruct H as (n & _ & _ & _ & ->). cbn [vars].
    apply after_display_flags.
    destruct (display_address_keeps n (or_flags DISPLAY_FONT (vars c)))
      as (-> & _).
    apply lor_keeps, Hb.
Qed.

(** The range stays ordered. *)
Lemma body_ordered c es c' :
  body K M argv c = (es, Go c') ->
  gmin (vars c) <= gmax (vars c) -> gmin (vars c') <= gmax (vars c').
Proof.
  intros H Hb. apply body_go in H.
  destruct H as (_ & a & Ha & _ & [H|[H|[H|[H|[H|H]]]]]).
  - destruct H as (_ & -> & _).
    pose proof (plain_range a (vars c)) as Hr.
    destruct (arg_is a (Some "-a") (Some "all")); inversion Hr; lia.
  - destruct H as (_ & -> & _). exact Hb.
  - destruct H as (_ & -> & _). exact Hb.
  - destruct H as (n & _ & _ & _ & ->). exact Hb.
  - destruct H as (n & lo & hi & _ & _ & _ & Hp & ->). cbn.
    eapply parse_subset_ordered, Hp.
  - destruct H as (n & _ & _ & _ & ->). cbn [vars].
    destruct (after_display_range n
                (display_address M n (or_flags DISPLAY_FONT (vars c))))
      as (-> & ->).
    destruct (display_address_keeps n (or_flags DISPLAY_FONT (vars c)))
      as (_ & -> & ->).
    exact Hb.
Qed.

(** When a round does not go on, it printed the usage text and returns
    0, or it read [argv[argc]]. *)
Lemma body_halt c es o :
  body K M argv c = (es, Halt o) ->
  (es = usage (basename (nth_error argv 0)) /\ o = Return 0) \/
  (es = [] /\ o = Fault).
Proof.
  rewrite body_by_cases. unfold body_cases.
  destruct (nth_error argv (idx c)) as [a|]; [|intros H; inversion H; auto].
  destruct (arg_is a (Some "-?") (Some "help")); [intros H; inversion H; auto|].
  repeat match goal with
  | |- context [if ?b then _ else _] => destruct b
  | |- context [match nth_error argv ?n with _ => _ end] =>
      destruct (nth_error argv n)
  | |- context [let (_, _) := ?p in _] => destruct p
  end; intros H; inversion H; auto.
Qed.

(** *** The loop *)

Lemma option_loop_invariant (I : cursor -> Prop) :
  (forall c es c',
      (idx c < argc argv)%nat -> I c -> body K M argv c = (es, Go c') ->
      I {| idx := S (idx c'); vars := vars c' |}) ->
  forall fuel c es v,
    I c -> option_loop K M argv fuel c = (es, Go v) ->
    es = [] /\ exists c', I c' /\ (argc argv <= idx c')%nat /\ vars c' = v.
Proof.
  intros Hstep. induction fuel as [|fuel IH]; intros c es v Hc; simpl;
    destruct (Nat.ltb_spec (idx c) (argc argv)) as [Hlt|Hge];
    try discriminate;
    try (intros H; inversion H; subst; split; [reflexivity|];
         exists c; auto).
  intros H. apply bind_go in H. destruct H as (es1 & c1 & es2 & H1 & H2 & ->).
  pose proof (Hstep _ _ _ Hlt Hc H1) as Hc1.
  destruct (body_go _ _ _ H1) as (-> & _).
  destruct (IH _ _ _ Hc1 H2) as (-> & c' & ?).
  split; [reflexivity|]. exists c'. assumption.
Qed.

(** The loop is over after at most [argc - i] rounds. *)
Lemma option_loop_fuel fuel c es :
  (argc argv <= idx c + fuel)%nat ->
  option_loop K M argv fuel c <> (es, Halt Running).
Proof.
  revert c es. induction fuel as [|fuel IH]; intros c es Hf; simpl;
    destruct (Nat.ltb_spec (idx c) (argc argv)) as [Hlt|Hge];
    try discriminate; try lia.
  unfold bind. destruct (body K M argv c) as [es1 [c1|o]] eqn:Hb.
  - destruct (option_loop K M argv fuel _) as [es2 r] eqn:Hl.
    intros H. inversion H. subst.
    apply (IH _ es2) in Hl; [assumption|]. cbn [idx].
    destruct (body_index _ _ _ Hb) as [->|[-> _]]; lia.
  - intros H. inversion H. subst.
    destruct (body_halt _ _ _ Hb) as [[_ ?]|[_ ?]]; discriminate.
Qed.

Lemma option_loop_halt fuel c es o :
  option_loop K M argv fuel c = (es, Halt o) ->
  (es = usage (basename (nth_error argv 0)) /\ o = Return 0) \/
  (es = [] /\ o = Fault) \/ (es = [] /\ o = Running).
Proof.
  revert c es. induction fuel as [|fuel IH]; intros c es; simpl;
    destruct (Nat.ltb_spec (idx c) (argc argv)) as [Hlt|Hge];
    try discriminate.
  - intros H. inversion H. auto.
  - unfold bind. destruct (body K M argv c) as [es1 [c1|o1]] eqn:Hb.
    + destruct (option_loop K M argv fuel _) as [es2 r] eqn:Hl.
      intros H. inversion H. subst.
      destruct (body_go _ _ _ Hb) as (-> & _). simpl.
      eapply IH, Hl.
    + intros H. inversion H. subst.
      destruct (body_halt _ _ _ Hb) as [?|?]; auto.
Qed.

(** The option loop of [main] ends: with the locals set, with the usage
    text, or with a fault. *)
Lemma parse_options_terminates es :
  parse_options K M argv <> (es, Halt Running).
Proof.
  apply option_loop_fuel. cbn [idx]. lia.
Qed.

Lemma parse_options_cases :
  (exists v, parse_options K M argv = ([], Go v)) \/
  parse_options K M argv
  = (usage (basename (nth_error argv 0)), Halt (Return 0)) \/
  parse_options K M argv = ([], Halt Fault).
Proof.
  destruct (parse_options K M argv) as [es [v|o]] eqn:H.
  - left. exists v. unfold parse_options in H.
    apply (option_loop_invariant (fun _ => True)) in H; auto.
    destruct H as (-> & _). reflexivity.
  - right. pose proof (parse_options_terminates es) as Ht.
    pose proof H as H'. apply option_loop_halt in H'.
    destruct H' as [[-> ->]|[[-> ->]|[-> ->]]]; auto. congruence.
Qed.
End BodyFacts.

(** *** The events of a run *)

Lemma events_bind {X Y : Type} (P : event -> Prop) (m : io X) (k : X -> io Y) :
  Forall P (fst m) -> (forall x, Forall P (fst (k x))) ->
  Forall P (fst (bind m k)).
Proof.
  intros Hm Hk. unfold bind. destruct m as [es [x|o]]; [|exact Hm].
  specialize (Hk x). destruct (k x) as [es' r]. simpl in *.
  apply Forall_app. split; assumption.
Qed.

Lemma events_ret {X : Type} (P : event -> Prop) (x : X) :
  Forall P (fst (ret x)).
Proof. constructor. Qed.

Lemma events_halt {X : Type} (P : event -> Prop) (o : outcome) :
  Forall P (fst (@halt X o)).
Proof. constructor. Qed.

Lemma events_emit (P : event -> Prop) (e : event) :
  P e -> Forall P (fst (emit e)).
Proof. intros H. repeat constructor. exact H. Qed.

Lemma events_hw (P : event -> Prop) (macos : bool) (e : event) :
  P e -> Forall P (fst (hw macos e)).
Proof.
  intros H. unfold hw.
  destruct macos; [apply events_ret | apply events_emit, H].
Qed.

Lemma events_getch (P : event -> Prop) (E : env) (n : nat) :
  (forall k, P (stdin_getch (-1) k)) -> Forall P (fst (getch E n)).
Proof.
  intros H. unfold getch. apply events_bind; [apply events_emit, H|].
  intros _. apply events_ret.
Qed.

Ltac events :=
  repeat first
    [ apply events_ret
    | apply events_halt
    | apply events_emit
    | apply events_hw
    | apply events_getch; intros ?
    | apply events_bind; [|intros ?]
    | match goal with
      | |- Forall _ (fst (if ?b then _ else _)) => destruct b
      end ].

Section RunFacts.
Variable K : headers.
Variable M : abi.
Variable macos : bool.
Variable E : env.
Variable argv : list string.

Lemma follows_other fnt v e :
  is_conversion e = false -> is_usage_text e = false ->
  (forall uf, e <> ossd_set_user_font uf) -> follows K fnt v e.
Proof.
  intros H1 H2 H3. repeat split; try assumption.
  intros uf Hu. destruct (H3 uf Hu).
Qed.

Ltac other := apply follows_other; [reflexivity | reflexivity | discriminate].

Lemma glyph_cells_events fnt v f uf cols i line gidx :
  Forall (follows K fnt v) (fst (glyph_cells macos f uf cols i line gidx)).
Proof.
  revert i gidx. induction cols as [|cols IH]; intros i gidx; cbn [glyph_cells].
  - apply events_ret.
  - destruct (gidx <? chars f); [|apply events_ret].
    apply events_bind; [apply events_hw; other|]. intros _. apply IH.
Qed.

Lemma glyph_lines_events fnt v f uf gh fuel line gidx :
  Forall (follows K fnt v) (fst (glyph_lines macos f uf gh fuel line gidx)).
Proof.
  revert line gidx. induction fuel as [|fuel IH]; intros line gidx;
    cbn [glyph_lines];
    destruct (line <? 8); try apply events_ret; try apply events_halt.
  apply events_bind.
  - unfold glyph_row. destruct (of_gw uf =? 0); [apply events_halt|].
    apply glyph_cells_events.
  - intros g. apply IH.
Qed.

Lemma pages_events fnt v f uf gh fuel gidx nkey :
  Forall (follows K fnt v) (fst (pages macos E f uf gh fuel gidx nkey)).
Proof.
  revert gidx nkey. induction fuel as [|fuel IH]; intros gidx nkey;
    cbn [pages].
  - apply events_halt.
  - apply events_bind.
    + events; other.
    + intros quit. destruct quit; [apply events_ret|].
      apply events_bind; [apply glyph_lines_events|].
      intros g. destruct (g <? chars f); [apply IH | apply events_ret].
Qed.

Lemma preview_events fuel file fnt v :
  Forall (follows K fnt v) (fst (preview K macos E fuel file fnt v)).
Proof.
  unfold preview.
  events; try other; try apply pages_events.
  repeat split; try reflexivity. intros uf H. inversion H. reflexivity.
Qed.

(** The three shapes of a run: usage text and nothing else; a fault in
    the option loop, with no event; or the conversion first and then the
    rest. *)
Lemma main_cases fuel :
  (fst (main K M macos E argv fuel) = usage (basename (nth_error argv 0)) /\
   (snd (main K M macos E argv fuel) = Return (-1) \/
    snd (main K M macos E argv fuel) = Return 0))
  \/ main K M macos E argv fuel = ([], Fault)
  \/ exists v file rest o,
       parse_options K M argv = ([], Go v) /\
       (2 <= argc argv)%nat /\
       nth_error argv (argc argv - 1) = Some file /\
       main K M macos E argv fuel =
       (bdf_convert_call file (gmin v) (gmax v) (ascender v) (flags v)
          (bdf_convert E file (gmin v) (gmax v) (ascender v) (flags v))
          :: rest, o) /\
       match bdf_convert E file (gmin v) (gmax v) (ascender v) (flags v) with
       | None =>
           rest = [fprintf_stderr
                     ("Unable to convert '" ++ file ++ "'" ++ LF)%string] /\
           o = Return (-1)
       | Some fnt => Forall (follows K fnt v) rest
       end.
Proof.
  unfold main, run.
  destruct (Nat.ltb_spec (argc argv) 2) as [Hlt|Hge].
  { left. simpl. auto. }
  destruct (parse_options_cases K M argv) as [[v Hv]|[Hu|Hf]].
  2:{ left. rewrite Hu. simpl. auto. }
  2:{ right; left. rewrite Hf. reflexivity. }
  right; right. rewrite Hv. change (@nil event, Go v) with (ret v).
  rewrite bind_ret_l. unfold convert_and_show.
  destruct (nth_error argv (argc argv - 1)) as [file|] eqn:Hfile.
  2:{ apply nth_error_None in Hfile. unfold argc in *. lia. }
  rewrite (arg_some _ _ _ Hfile), bind_ret_l.
  destruct (bdf_convert E file (gmin v) (gmax v) (ascender v) (flags v))
    as [fnt|] eqn:Hr.
  - destruct (Z.land (flags v) DISPLAY_FONT =? 0).
    + exists v, file, [], (Return 0). rewrite Hr. repeat split; auto.
    + pose proof (preview_events fuel file fnt v) as Hp.
      destruct (preview K macos E fuel file fnt v) as [es r].
      exists v, file, es,
        (match r with Go code => Return code | Halt o => o end).
      rewrite Hr. repeat split; auto.
      unfold bind, emit. destruct r; reflexivity.
  - exists v, file,
      [fprintf_stderr ("Unable to convert '" ++ file ++ "'" ++ LF)%string],
      (Return (-1)).
    rewrite Hr. repeat split; auto.
Qed.

(** The conversion that a run makes, read off its events. *)
Lemma main_conversion fuel file lo hi asc fl r :
  In (bdf_convert_call file lo hi asc fl r)
     (fst (main K M macos E argv fuel)) ->
  exists v rest o,
    parse_options K M argv = ([], Go v) /\
    (2 <= argc argv)%nat /\
    nth_error argv (argc argv - 1) = Some file /\
    lo = gmin v /\ hi = gmax v /\ asc = ascender v /\ fl = flags v /\
    r = bdf_convert E file lo hi asc fl /\
    main K M macos E argv fuel
    = (bdf_convert_call file lo hi asc fl r :: rest, o) /\
    match r with
    | None =>
        rest = [fprintf_stderr
                  ("Unable to convert '" ++ file ++ "'" ++ LF)%string] /\
        o = Return (-1)
    | Some fnt => Forall (follows K fnt v) rest
    end.
Proof.
  intros Hin.
  destruct (main_cases fuel) as [[Hu _]|[Hf|H]].
  - rewrite Hu in Hin. unfold usage in Hin. simpl in Hin.
    repeat (destruct Hin as [Hin|Hin]; [discriminate|]). destruct Hin.
  - rewrite Hf in Hin. destruct Hin.
  - destruct H as (v & file' & rest & o & Hv & Hargc & Hfile & Hm & Hr).
    rewrite Hm in Hin. simpl in Hin. destruct Hin as [Heq|Hin].
    + inversion Heq. subst. exists v, rest, o. repeat split; auto.
    + exfalso.
      destruct (bdf_convert E file' (gmin v) (gmax v) (ascender v) (flags v))
        as [fnt|].
      * rewrite Forall_forall in Hr. apply Hr in Hin.
        destruct Hin as (Hc & _). discriminate.
      * destruct Hr as [-> _]. simpl in Hin. destruct Hin as [Hin|[]].
        discriminate.
Qed.
End RunFacts.

(** *** strtoul on decimal numerals *)

Lemma scan_digits_end base rest acc any :
  digit_val base (deref rest) = None ->
  scan_digits base rest acc any = (acc, any, rest).
Proof.
  destruct rest as [|c r]; [reflexivity|]. simpl. intros ->. reflexivity.
Qed.

Lemma scan_digits_uint d rest acc any :
  digit_val 10 (deref rest) = None ->
  scan_digits 10 (NilEmpty.string_of_uint d ++ rest) acc any =
  (acc * 10 ^ Z.of_N (DecimalPos.Unsigned.usize d)
   + Z.of_N (DecimalPos.Unsigned.of_lu (Decimal.rev d)),
   match d with Decimal.Nil => any | _ => true end, rest).
Proof.
  intros Hrest. revert acc any.
  induction d; intros acc any;
    [ simpl; rewrite scan_digits_end by assumption; f_equal; f_equal; lia
    | .. ];
    cbn [NilEmpty.string_of_uint String.append scan_digits];
    match goal with
    | |- context [digit_val 10 ?c] =>
        let v := eval vm_compute in (digit_val 10 c) in
        change (digit_val 10 c) with v
    end;
    cbv iota; rewrite IHd;
    unfold Decimal.rev; cbn [Decimal.revapp DecimalPos.Unsigned.usize];
    match goal with
    | |- context [Decimal.revapp d (?D Decimal.Nil)] =>
        rewrite (DecimalPos.Unsigned.of_lu_revapp d (D Decimal.Nil))
    end;
    cbn [DecimalPos.Unsigned.of_lu];
    rewrite N2Z.inj_succ, Z.pow_succ_r by lia;
    rewrite N2Z.inj_add, N2Z.inj_mul, N2Z.inj_pow;
    fold (Decimal.rev d); simpl Z.of_N;
    (replace (match d with Decimal.Nil => true | _ => true end) with true
      by (destruct d; reflexivity));
    do 2 f_equal; ring.
Qed.

Lemma scan_digits_decimal z rest :
  0 <= z -> digit_val 10 (deref rest) = None ->
  scan_digits 10 (decimal z ++ rest) 0 false = (z, true, rest).
Proof.
  intros Hz Hrest. unfold decimal.
  assert (Hd : exists d, Z.to_int z = Decimal.Pos d /\ d <> Decimal.Nil /\
                         Z.of_N (Pos.of_uint d) = z).
  { destruct z as [|p|p]; [| |lia].
    - exists Decimal.zero. repeat split; discriminate.
    - exists (Pos.to_uint p). repeat split.
      + apply DecimalPos.Unsigned.to_uint_nonnil.
      + rewrite DecimalPos.Unsigned.of_to. reflexivity. }
  destruct Hd as (d & -> & Hnil & Hval).
  replace (NilZero.string_of_int (Decimal.Pos d))
    with (NilEmpty.string_of_uint d)
    by (destruct d; first [congruence | reflexivity]).
  rewrite scan_digits_uint by assumption.
  rewrite <- DecimalPos.Unsigned.of_uint_alt, Hval.
  rewrite Z.mul_0_l, Z.add_0_l.
  destruct d; first [congruence | reflexivity].
Qed.

Lemma decimal_starts_with_digit z rest :
  0 <= z -> isdigit (deref (decimal z ++ rest)) = true.
Proof.
  intros Hz. unfold decimal.
  destruct z as [|p|p]; [reflexivity| |lia].
  simpl Z.to_int. cbn [NilZero.string_of_int].
  pose proof (DecimalPos.Unsigned.to_uint_nonnil p) as Hn.
  destruct (Pos.to_uint p); try congruence; reflexivity.
Qed.

Lemma strtoul_decimal M z rest :
  0 <= z < 2 ^ 32 -> digit_val 10 (deref rest) = None ->
  strtoul M (decimal z ++ rest) 10 = (z, rest).
Proof.
  intros Hz Hrest. unfold strtoul.
  pose proof (decimal_starts_with_digit z rest (proj1 Hz)) as Hd.
  assert (Hs : split_sign (skip_space (decimal z ++ rest))
               = (false, (decimal z ++ rest)%string)).
  { destruct (decimal z ++ rest)%string as [|c r]; [reflexivity|].
    simpl in Hd. unfold isdigit in Hd.
    apply andb_true_iff in Hd. destruct Hd as [H1 H2].
    apply Z.leb_le in H1, H2.
    cbn [skip_space]. unfold isspace.
    replace (code c =? 32) with false by (symmetry; apply Z.eqb_neq; lia).
    replace (code c <=? 13) with false by (symmetry; apply Z.leb_gt; lia).
    rewrite andb_false_r. cbn [orb].
    unfold split_sign.
    destruct c as [[] [] [] [] [] [] [] []]; try reflexivity;
      vm_compute in H1; vm_compute in H2; try congruence;
      exfalso; first [apply H1; reflexivity | apply H2; reflexivity]. }
  rewrite Hs. unfold skip_0x. simpl (10 =? 16).  cbv iota.
  rewrite scan_digits_decimal by tauto.
  replace (ULONG_MAX M <? z) with false; [reflexivity|].
  symmetry. apply Z.ltb_ge. destruct M; unfold ULONG_MAX, LONG_BIT; lia.
Qed.

Lemma append_empty_r (s : string) : (s ++ "")%string = s.
Proof.
  induction s as [|c s IH]; simpl; [reflexivity|].
  rewrite IH. reflexivity.
Qed.

(** The subset argument [a-b] with [a > b]: the bounds come out
    swapped. *)
Lemma parse_subset_swaps M a b :
  0 <= b -> b < a -> a < 2 ^ 32 ->
  parse_subset M (decimal a ++ "-" ++ decimal b) = (b, a).
Proof.
  intros Hb Hab Ha. unfold parse_subset.
  rewrite strtoul_decimal by (try reflexivity; lia).
  cbn [deref String.append next]. 
  change (Ascii.eqb "-" "-") with true. cbv iota.
  assert (Hsnd : strtoul M (decimal b) 10 = (b, ""%string)).
  { rewrite <- (append_empty_r (decimal b)).
    apply strtoul_decimal; [lia | reflexivity]. }
  rewrite Hsnd. cbn [fst]. unfold to_unsigned.
  rewrite !Z.mod_small by lia.
  replace (b <? a) with true by (symmetry; apply Z.ltb_lt; lia).
  reflexivity.
Qed.

(** *** What the option loop leaves in the locals *)

Import Engine Claims.

Section ParseFacts.
Variable K : headers.
Variable M : abi.
Variable argv : list string.

Lemma past_the_end (c : cursor) j (s : string) :
  (argc argv <= idx c)%nat -> (idx c <= j)%nat ->
  nth_error argv j = Some s -> False.
Proof.
  intros H1 H2 H3.
  assert (nth_error argv j = None)
    by (apply nth_error_None; unfold argc in H1; lia).
  congruence.
Qed.

Lemma parse_options_ordered v :
  parse_options K M argv = ([], Go v) -> gmin v <= gmax v.
Proof.
  intros H. unfold parse_options in H.
  apply (option_loop_invariant K M argv
           (fun c => gmin (vars c) <= gmax (vars c))) in H.
  - destruct H as (_ & c' & Hc & _ & <-). exact Hc.
  - intros c es c' _ Hc Hb. cbn [vars]. eapply body_ordered; eassumption.
  - simpl. lia.
Qed.

(** A round on [-l] sets both flags and takes no argument. *)
Lemma line_round c :
  nth_error argv (idx c) = Some "-l" ->
  body K M argv c
  = ([], Go {| idx := idx c;
               vars := or_flags (BDF_DROPLAST K)
                         (or_flags (BDF_GPL K) (vars c)) |}).
Proof.
  intros H. rewrite body_by_cases. unfold body_cases. rewrite H. reflexivity.
Qed.

Lemma parse_options_line v :
  In "-l" (tl argv) ->
  parse_options K M argv = ([], Go v) ->
  Z.land (flags v) (BDF_GPL K) = BDF_GPL K /\
  Z.land (flags v) (BDF_DROPLAST K) = BDF_DROPLAST K.
Proof.
  intros Hl H. unfold parse_options in H.
  apply (option_loop_invariant K M argv
           (fun c =>
              (exists j, (idx c <= j)%nat /\ nth_error argv j = Some "-l") \/
              (Z.land (flags (vars c)) (BDF_GPL K) = BDF_GPL K /\
               Z.land (flags (vars c)) (BDF_DROPLAST K) = BDF_DROPLAST K)))
    in H.
  - destruct H as (_ & c' & [(j & Hj & Hn)|Hc] & Hend & <-).
    + destruct (past_the_end c' j _ Hend Hj Hn).
    + exact Hc.
  - intros c es c' Hlt [(j & Hj & Hn)|[H1 H2]] Hb; cbn [idx vars].
    + destruct (Nat.eq_dec j (idx c)) as [->|Hne].
      * right. rewrite (line_round c Hn) in Hb. inversion Hb. subst.
        cbn [vars or_flags flags]. split.
        -- apply lor_keeps, lor_sets.
        -- apply lor_sets.
      * left. exists j. split; [|exact Hn].
        destruct (body_index K M argv _ _ _ Hb) as [-> | [-> (n & Hn' & Hx)]];
          [lia|].
        destruct (Nat.eq_dec j (S (idx c))) as [->|Hne']; [|lia].
        rewrite Hn in Hn'. inversion Hn'. subst. discriminate.
    + right. split; eapply body_flags; eassumption.
  - left. cbn [idx].
    destruct argv as [|a0 rest]; [destruct Hl|]. simpl in Hl.
    apply In_nth_error in Hl. destruct Hl as [n Hn].
    exists (S n). split; [lia | exact Hn].
Qed.

Lemma parse_options_default v :
  no_range_option argv ->
  parse_options K M argv = ([], Go v) ->
  gmin v = 32 /\ gmax v = 126.
Proof.
  intros Hno H. unfold parse_options in H.
  apply (option_loop_invariant K M argv
           (fun c => (1 <= idx c)%nat /\
                     gmin (vars c) = 32 /\ gmax (vars c) = 126)) in H.
  - destruct H as (_ & c' & (_ & Hc) & _ & <-). exact Hc.
  - intros c es c' Hlt (Hi & Hlo & Hhi) Hb. cbn [idx vars].
    split; [lia|].
    destruct (body_go K M argv _ _ _ Hb)
      as (_ & a & Ha & _ & [Hc|[Hc|[Hc|[Hc|[Hc|Hc]]]]]);
      destruct (Hno _ _ Hi Ha) as (Hsub & Hall & Hasc).
    + destruct Hc as (_ & -> & _ & _ & Hnd).
      pose proof (plain_range K a (vars c)) as Hr.
      destruct (arg_is a (Some "-a") (Some "all")) eqn:Hm.
      * exfalso. apply arg_is_true in Hm. destruct Hm as [-> | ->];
          [|apply Hall; reflexivity].
        destruct (Hasc eq_refl) as (n & Hn & Hd).
        destruct (Hnd eq_refl) as (n' & Hn' & Hd'). congruence.
      * inversion Hr. split; congruence.
    + destruct Hc as (_ & _ & Hs). congruence.
    + destruct Hc as (_ & -> & _). auto.
    + destruct Hc as (n & _ & _ & _ & ->). auto.
    + destruct Hc as (n & lo & hi & _ & _ & Hs & _). congruence.
    + destruct Hc as (n & _ & _ & _ & ->). cbn [vars].
      destruct (after_display_range K n
                  (display_address M n (or_flags DISPLAY_FONT (vars c))))
        as (-> & ->).
      destruct (display_address_keeps M n (or_flags DISPLAY_FONT (vars c)))
        as (_ & -> & ->).
      auto.
  - simpl. repeat split; lia.
Qed.

(** A round on [-a]: the argument after it is the ascender when it
    starts with a digit, and otherwise the round asks for all glyphs. *)
Lemma short_a_round c n :
  nth_error argv (idx c) = Some "-a" ->
  nth_error argv (S (idx c)) = Some n ->
  body K M argv c =
  ([], Go (if isdigit (deref n)
           then {| idx := S (idx c);
                   vars := set_ascender (to_unsigned (atoi M n)) (vars c) |}
           else {| idx := idx c;
                   vars := set_range 0 4294967295 (vars c) |})).
Proof.
  intros Ha Hn. rewrite body_by_cases. unfold body_cases. rewrite Ha.
  change (arg_is "-a" (Some "-?") (Some "help")) with false.
  change (arg_is "-a" (Some "-a") (Some "ascender")) with true.
  cbv iota. rewrite Hn. destruct (isdigit (deref n)); reflexivity.
Qed.

(** A round on the word [all]. *)
Lemma all_round c :
  nth_error argv (idx c) = Some "all" ->
  body K M argv c =
  ([], Go {| idx := idx c; vars := set_range 0 4294967295 (vars c) |}).
Proof.
  intros Ha. rewrite body_by_cases. unfold body_cases. rewrite Ha.
  reflexivity.
Qed.

(** *** The rounds of the loop *)

Lemma rounds_from_In fuel i k :
  In k (rounds_from fuel argv i) -> (i <= k < argc argv)%nat.
Proof.
  revert i. induction fuel as [|fuel IH]; intros i; cbn [rounds_from];
    [intros []|].
  destruct (Nat.ltb_spec i (argc argv)) as [Hlt|Hge]; [|intros []].
  intros [<- | Hin]; [lia|].
  apply IH in Hin. unfold next_round in Hin.
  destruct (takes_next argv i); lia.
Qed.

(** The round after a round of [body] is the one [next_round] names. *)
Lemma body_next c es c' :
  body K M argv c = (es, Go c') ->
  S (idx c') = next_round argv (idx c).
Proof.
  rewrite body_by_cases. unfold body_cases, next_round, takes_next.
  destruct (nth_error argv (idx c)) as [a|]; [|discriminate].
  destruct (arg_is a (Some "-?") (Some "help")); [discriminate|].
  destruct (arg_is a (Some "-a") (Some "ascender")) eqn:Ha.
  { apply arg_is_true in Ha.
    destruct (nth_error argv (S (idx c))) as [n|]; [|discriminate].
    destruct Ha; subst a;
      change (arg_is _ (Some "-s") (Some "subset")) with false;
      change (arg_is _ (Some "-d") (Some "display")) with false;
      destruct (isdigit (deref n)); cbn [andb orb];
      intros H; inversion H; reflexivity. }
  destruct (arg_is a (Some "-s") (Some "subset")) eqn:Hs.
  { apply arg_is_true in Hs.
    destruct (nth_error argv (S (idx c))) as [n|]; [|discriminate].
    destruct Hs; subst a;
      change (arg_is _ (Some "-d") (Some "display")) with false;
      destruct (isdigit (deref n)); cbn [andb orb];
      try destruct (parse_subset M n);
      intros H; inversion H; reflexivity. }
  destruct (arg_is a (Some "-d") (Some "display")).
  { destruct (nth_error argv (S (idx c))) as [n|]; [|discriminate].
    destruct (isxdigit (deref n)); cbn [andb orb];
      intros H; inversion H; reflexivity. }
  destruct (nth_error argv (S (idx c))); cbn [andb orb];
    intros H; inversion H; reflexivity.
Qed.

(** An argument taken by the round before it starts with a decimal or
    a hexadecimal digit; every other argument has a round of its own. *)
Lemma takes_next_digit i :
  takes_next argv i = true ->
  exists n, nth_error argv (S i) = Some n /\ isxdigit (deref n) = true.
Proof.
  unfold takes_next.
  destruct (nth_error argv i) as [a|]; [|discriminate].
  destruct (nth_error argv (S i)) as [n|]; [|discriminate].
  intros H. exists n. split; [reflexivity|].
  destruct (isxdigit (deref n)) eqn:Hx; [reflexivity|].
  assert (Hd : isdigit (deref n) = false).
  { unfold isxdigit in Hx.
    destruct (isdigit (deref n)); [discriminate | reflexivity]. }
  rewrite Hd, !andb_false_r in H. discriminate.
Qed.

Lemma rounds_from_cover fuel i k s :
  (i <= k)%nat -> (k < i + fuel)%nat ->
  nth_error argv k = Some s -> isxdigit (deref s) = false ->
  In k (rounds_from fuel argv i).
Proof.
  intros Hik Hf Hs Hx. revert i Hik Hf.
  induction fuel as [|fuel IH]; intros i Hik Hf; [lia|].
  cbn [rounds_from].
  assert (Hk : (k < argc argv)%nat).
  { unfold argc. apply nth_error_Some. congruence. }
  replace (i <? argc argv)%nat with true
    by (symmetry; apply Nat.ltb_lt; lia).
  destruct (Nat.eq_dec i k) as [->|Hne]; [left; reflexivity|].
  right. unfold next_round.
  destruct (takes_next argv i) eqn:Ht; apply IH; try lia.
  destruct (takes_next_digit i Ht) as (n & Hn & Hd).
  destruct (Nat.eq_dec (S i) k) as [Heq|]; [|lia].
  subst k. congruence.
Qed.

Lemma rounds_cover k s :
  (1 <= k)%nat -> nth_error argv k = Some s ->
  isxdigit (deref s) = false -> In k (rounds argv).
Proof.
  intros Hk Hs Hx. unfold rounds.
  apply (rounds_from_cover (argc argv) 1 k s); try assumption.
  assert (k < argc argv)%nat
    by (unfold argc; apply nth_error_Some; congruence).
  lia.
Qed.

(** The loop has a round on every argument of [rounds]: one on which
    the body cannot go on stops the loop. *)
Lemma blocked_round j v :
  In j (rounds argv) ->
  (forall c es c',
      idx c = j -> body K M argv c = (es, Go c') -> False) ->
  parse_options K M argv = ([], Go v) -> False.
Proof.
  intros Hj Hstop H. unfold parse_options in H.
  apply (option_loop_invariant K M argv
           (fun c => exists f, In j (rounds_from f argv (idx c)))) in H.
  - destruct H as (_ & c' & (f & Hin) & Hend & _).
    apply rounds_from_In in Hin. lia.
  - intros c es c' Hlt (f & Hin) Hb. cbn [idx].
    destruct f as [|f]; [destruct Hin|]. cbn [rounds_from] in Hin.
    destruct (idx c <? argc argv)%nat; [|destruct Hin].
    destruct Hin as [Heq|Hin]; [destruct (Hstop _ _ _ Heq Hb)|].
    exists f. rewrite (body_next _ _ _ Hb). exact Hin.
  - exists (argc argv). exact Hj.
Qed.

(** The rounds from the cursor on are rounds of the whole loop. *)
Lemma option_loop_rounds (I : cursor -> Prop) :
  (forall c es c',
      (idx c < argc argv)%nat -> In (idx c) (rounds argv) -> I c ->
      body K M argv c = (es, Go c') ->
      I {| idx := S (idx c'); vars := vars c' |}) ->
  forall v,
    I {| idx := 1; vars := initial |} ->
    parse_options K M argv = ([], Go v) ->
    exists c', I c' /\ (argc argv <= idx c')%nat /\ vars c' = v.
Proof.
  intros Hstep v H0 H. unfold parse_options in H.
  apply (option_loop_invariant K M argv
           (fun c => I c /\
                     exists f, (argc argv <= idx c + f)%nat /\
                               forall j, In j (rounds_from f argv (idx c)) ->
                                         In j (rounds argv))) in H.
  - destruct H as (_ & c' & (Hc & _) & Hend & Hv). exists c'. auto.
  - intros c es c' Hlt (Hc & f & Hle & Hf) Hb. cbn [idx vars].
    destruct f as [|f]; [lia|]. cbn [rounds_from] in Hf.
    replace (idx c <? argc argv)%nat with true in Hf
      by (symmetry; apply Nat.ltb_lt; exact Hlt).
    split.
    + apply (Hstep c es c' Hlt); [apply Hf; left; reflexivity | | ];
        assumption.
    + exists f. rewrite (body_next _ _ _ Hb). split.
      * unfold next_round. destruct (takes_next argv (idx c)); lia.
      * intros j Hj. apply Hf. right. exact Hj.
  - split; [exact H0|]. exists (argc argv). cbn [idx].
    split; [lia | auto].
Qed.

Lemma parse_options_all k v :
  asks_all argv k -> no_subset_after argv k ->
  parse_options K M argv = ([], Go v) ->
  gmin v = 0 /\ gmax v = 4294967295.
Proof.
  intros Hall Hno H. unfold parse_options in H.
  assert (Hk : In k (rounds argv)).
  { destruct Hall as [[Hk _]|(Hk & Ha & _)]; [exact Hk|].
    apply (rounds_cover k "-a" Hk Ha). reflexivity. }
  apply (option_loop_invariant K M argv
           (fun c => (exists f, In k (rounds_from f argv (idx c))) \/
                     ((k < idx c)%nat /\
                      gmin (vars c) = 0 /\ gmax (vars c) = 4294967295)))
    in H.
  - destruct H as (_ & c' & [(f & Hin)|(_ & Hc)] & Hend & <-).
    + apply rounds_from_In in Hin. lia.
    + exact Hc.
  - intros c es c' Hlt Hc Hb. cbn [idx vars].
    destruct Hc as [(f & Hin)|(Hgt & Hlo & Hhi)].
    + destruct f as [|f]; [destruct Hin|]. cbn [rounds_from] in Hin.
      destruct (idx c <? argc argv)%nat; [|destruct Hin].
      destruct Hin as [Heq|Hin].
      * (* the round on the request itself *)
        right. subst k.
        destruct Hall as [[_ Ha]|(_ & Ha & n & Hn & Hd)].
        -- rewrite (all_round c Ha) in Hb. inversion Hb. subst.
           cbn. repeat split; lia.
        -- rewrite (short_a_round c n Ha Hn), Hd in Hb.
           inversion Hb. subst. cbn. repeat split; lia.
      * (* a round before it *)
        left. exists f. rewrite (body_next _ _ _ Hb). exact Hin.
    + right.
      destruct (body_go K M argv _ _ _ Hb)
        as (_ & a & Ha & _ & [Hc|[Hc|[Hc|[Hc|[Hc|Hc]]]]]).
      * destruct Hc as (-> & -> & _). split; [lia|].
        pose proof (plain_range K a (vars c)) as Hr.
        destruct (arg_is a (Some "-a") (Some "all"));
          inversion Hr; split; congruence.
      * destruct Hc as (-> & -> & _). split; [lia|]. auto.
      * destruct Hc as (-> & -> & _). split; [lia|]. auto.
      * destruct Hc as (n & _ & _ & _ & ->). cbn. split; [lia|]. auto.
      * destruct Hc as (n & lo & hi & Hn & Hd & Hs & _ & ->).
        rewrite (Hno _ _ _ Hgt Ha Hs Hn) in Hd. discriminate.
      * destruct Hc as (n & _ & _ & _ & ->). cbn [idx vars].
        split; [lia|].
        destruct (after_display_range K n
                    (display_address M n (or_flags DISPLAY_FONT (vars c))))
          as (-> & ->).
        destruct (display_address_keeps M n (or_flags DISPLAY_FONT (vars c)))
          as (_ & -> & ->).
        auto.
  - left. exists (argc argv). exact Hk.
Qed.

Lemma subset_round c s n :
  nth_error argv (idx c) = Some s ->
  arg_is s (Some "-s") (Some "subset") = true ->
  nth_error argv (S (idx c)) = Some n ->
  isdigit (deref n) = true ->
  body K M argv c
  = ([], Go {| idx := S (idx c);
               vars := set_range (fst (parse_subset M n))
                                 (snd (parse_subset M n)) (vars c) |}).
Proof.
  intros Hs Hm Hn Hd. rewrite body_by_cases. unfold body_cases.
  rewrite Hs, Hn. apply arg_is_true in Hm.
  destruct Hm; subst s;
    change (arg_is _ (Some "-?") (Some "help")) with false;
    change (arg_is _ (Some "-a") (Some "ascender")) with false;
    change (arg_is _ (Some "-s") (Some "subset")) with true;
    cbv iota; rewrite Hd; destruct (parse_subset M n); reflexivity.
Qed.

(** A round on the subset option with the argument [a-b], [a > b]. *)
Lemma subset_round_swaps c s a b :
  nth_error argv (idx c) = Some s ->
  arg_is s (Some "-s") (Some "subset") = true ->
  nth_error argv (S (idx c)) = Some (decimal a ++ "-" ++ decimal b)%string ->
  0 <= b -> b < a -> a < 2 ^ 32 ->
  body K M argv c
  = ([], Go {| idx := S (idx c); vars := set_range b a (vars c) |}).
Proof.
  intros Hs Hm Hn Hb Hab Ha. rewrite body_by_cases. unfold body_cases.
  rewrite Hs, Hn.
  apply arg_is_true in Hm.
  assert (Hd : isdigit (deref (decimal a ++ "-" ++ decimal b)) = true)
    by (apply decimal_starts_with_digit; lia).
  destruct Hm; subst s;
    change (arg_is _ (Some "-?") (Some "help")) with false;
    change (arg_is _ (Some "-a") (Some "ascender")) with false;
    change (arg_is _ (Some "-s") (Some "subset")) with true;
    cbv iota; rewrite Hd, (parse_subset_swaps M a b) by assumption;
    reflexivity.
Qed.
(** A subset option is never taken by the round before it: its words
    start with neither a decimal nor a hexadecimal digit. *)
Lemma subset_word_no_digit s :
  arg_is s (Some "-s") (Some "subset") = true ->
  isxdigit (deref s) = false.
Proof.
  intros H. apply arg_is_true in H. destruct H; subst; reflexivity.
Qed.

(** The range of the last subset option reaches the end of the loop. *)
Lemma parse_options_subset k s n lo hi v :
  (1 <= k)%nat ->
  nth_error argv k = Some s ->
  arg_is s (Some "-s") (Some "subset") = true ->
  nth_error argv (S k) = Some n -> isdigit (deref n) = true ->
  parse_subset M n = (lo, hi) ->
  no_subset_after argv k -> no_all_after argv k ->
  parse_options K M argv = ([], Go v) ->
  gmin v = lo /\ gmax v = hi.
Proof.
  intros Hk Hs Hm Hn Hd Hp Hnos Hnoa H.
  destruct (option_loop_rounds
              (fun c => (1 <= idx c)%nat /\
                        ((idx c <= k)%nat \/
                         ((k < idx c)%nat /\
                          gmin (vars c) = lo /\ gmax (vars c) = hi))))
    with (v := v) as (c' & (_ & Hc) & Hend & <-); try assumption.
  - intros c es c' Hlt Hround (Hi & Hc) Hb. cbn [idx vars].
    split; [lia|].
    destruct Hc as [Hle|(Hgt & Hlo & Hhi)].
    + destruct (Nat.eq_dec (idx c) k) as [Heq|Hne].
      * (* the round on the subset option *)
        right. subst k.
        rewrite (subset_round c s n Hs Hm Hn Hd), Hp in Hb.
        inversion Hb. subst. cbn. repeat split; lia.
      * (* a round before it does not take it as its argument *)
        left.
        destruct (body_index K M argv _ _ _ Hb)
          as [-> | [-> (n' & Hn' & Hx)]]; [lia|].
        destruct (Nat.eq_dec (S (idx c)) k) as [Heq|]; [|lia].
        exfalso. subst k. rewrite Hs in Hn'. inversion Hn'. subst n'.
        rewrite (subset_word_no_digit s Hm) in Hx. discriminate.
    + right.
      destruct (body_go K M argv _ _ _ Hb)
        as (_ & a & Ha & _ & [Hc|[Hc|[Hc|[Hc|[Hc|Hc]]]]]).
      * destruct Hc as (-> & -> & _ & _ & Hasc). split; [lia|].
        pose proof (plain_range K a (vars c)) as Hr.
        destruct (arg_is a (Some "-a") (Some "all")) eqn:Hall.
        -- exfalso. apply (Hnoa (idx c) Hgt).
           apply arg_is_true in Hall. destruct Hall as [-> | ->].
           ++ right. split; [lia|]. split; [exact Ha|].
              apply Hasc. reflexivity.
           ++ left. split; assumption.
        -- inversion Hr. split; congruence.
      * destruct Hc as (-> & -> & _). split; [lia|]. auto.
      * destruct Hc as (-> & -> & _). split; [lia|]. auto.
      * destruct Hc as (n' & _ & _ & _ & ->). cbn. split; [lia|]. auto.
      * destruct Hc as (n' & lo' & hi' & Hn' & Hd' & Hs' & _ & ->).
        rewrite (Hnos _ _ _ Hgt Ha Hs' Hn') in Hd'. discriminate.
      * destruct Hc as (n' & _ & _ & _ & ->). cbn [idx vars].
        split; [lia|].
        destruct (after_display_range K n'
                    (display_address M n' (or_flags DISPLAY_FONT (vars c))))
          as (-> & ->).
        destruct (display_address_keeps M n'
                    (or_flags DISPLAY_FONT (vars c)))
          as (_ & -> & ->).
        auto.
  - cbn [idx]. split; [lia|]. left. exact Hk.
  - destruct Hc as [Hle|(_ & Hc)]; [|exact Hc].
    exfalso. assert (nth_error argv (S k) = None)
      by (apply nth_error_None; unfold argc in Hend; lia).
    congruence.
Qed.

(** What [parse_subset] makes of two numbers with a dash between them,
    the first one the larger. *)
Lemma parse_subset_parsed n a e b :
  strtoul M n 10 = (a, e) -> deref e = "-"%char ->
  fst (strtoul M (next e) 10) = b ->
  to_unsigned b < to_unsigned a ->
  parse_subset M n = (to_unsigned b, to_unsigned a).
Proof.
  intros Ha He Hb Hlt. unfold parse_subset. rewrite Ha, He, Hb.
  change (Ascii.eqb "-" "-") with true. cbv iota.
  replace (to_unsigned b <? to_unsigned a) with true
    by (symmetry; apply Z.ltb_lt; exact Hlt).
  reflexivity.
Qed.

End ParseFacts.

(** *** The engine of the specification *)

Lemma flip_byte_twice b : is_byte b -> flip_byte (flip_byte b) = b.
Proof.
  intros [H0 H1].
  assert (Hall : forallb (fun x => flip_byte (flip_byte x) =? x)
                   (map Z.of_nat (seq 0 256)) = true)
    by (vm_compute; reflexivity).
  rewrite forallb_forall in Hall. apply Z.eqb_eq, Hall.
  apply in_map_iff. exists (Z.to_nat b). split; [lia|].
  apply in_seq. lia.
Qed.

Lemma flip_byte_is_byte b : is_byte (flip_byte b).
Proof.
  unfold flip_byte, is_byte. cbn [fold_right].
  repeat match goal with
         | |- context [if ?c then _ else _] => destruct c
         end; vm_compute; split; congruence.
Qed.

Section EngineFacts.
Variable read_font : string -> option (list GlyphRecord).
Variable normalize : Z -> bool -> GlyphRecord -> Bitmap.
Variable Rotate : Bitmap -> Bitmap.

(** Without droplast no glyph is lost in the transform. *)
Lemma shape_keeps asc native rotate flip g :
  exists t,
    shape normalize Rotate asc native rotate flip false g = Some t /\
    tg_codepoint t = codepoint g.
Proof.
  unfold shape, transform. cbn [option_map]. eexists. split; reflexivity.
Qed.

(** Section 8: the subset 65-66 of a font with the codepoints 65, 66 and
    67 has two glyphs, the first codepoint being 65. *)
Lemma convert_subset_65_66 file glyphs asc native rotate flip :
  read_font file = Some glyphs ->
  map codepoint glyphs = [65; 66; 67] ->
  exists p,
    convert read_font normalize Rotate file 65 66 asc
            native rotate flip false = Some p /\
    first_codepoint p = 65 /\ glyph_count p = 2.
Proof.
  intros Hf Hc. unfold convert. rewrite Hf.
  destruct glyphs as [|g1 [|g2 [|g3 [|g4 rest]]]]; try discriminate.
  inversion Hc as [[H1 H2 H3]].
  unfold retained. cbn [filter]. rewrite H1, H2, H3.
  change (retain 65 65 66) with true. change (retain 66 65 66) with true.
  change (retain 67 65 66) with false. cbv iota. cbn [map].
  destruct (shape_keeps asc native rotate flip g1) as (t1 & -> & Ht1).
  destruct (shape_keeps asc native rotate flip g2) as (t2 & -> & Ht2).
  cbn [keep_some]. unfold assemble, by_codepoint. cbn [fold_right insert_glyph].
  rewrite Ht1, Ht2, H1, H2. change (65 <=? 66) with true. cbv iota.
  eexists. split; [reflexivity|].
  cbn [first_codepoint glyph_count]. unfold lowest_codepoint.
  cbn [map fold_left]. rewrite Ht1, Ht2, H1, H2. split; reflexivity.
Qed.
End EngineFacts.

(** The first codepoint of a packed font is the lowest codepoint among
    the glyphs that went into it. *)
Lemma insert_glyph_in x g l :
  In x (insert_glyph g l) <-> x = g \/ In x l.
Proof.
  induction l as [|h t IH]; simpl.
  - intuition congruence.
  - destruct (tg_codepoint g <=? tg_codepoint h); simpl.
    + intuition congruence.
    + rewrite IH. intuition congruence.
Qed.

Lemma by_codepoint_in x l : In x (by_codepoint l) <-> In x l.
Proof.
  unfold by_codepoint. induction l as [|g l IH]; simpl; [tauto|].
  rewrite insert_glyph_in, IH. intuition congruence.
Qed.

Lemma fold_min_le l z :
  fold_left Z.min l z <= z /\ forall x, In x l -> fold_left Z.min l z <= x.
Proof.
  revert z. induction l as [|y l IH]; intros z; simpl.
  - split; [lia | tauto].
  - destruct (IH (Z.min z y)) as [H1 H2]. split; [lia|].
    intros x [<-|Hx]; [lia | auto].
Qed.

Lemma fold_min_in l z :
  fold_left Z.min l z = z \/ In (fold_left Z.min l z) l.
Proof.
  revert z. induction l as [|y l IH]; intros z; simpl; [auto|].
  destruct (IH (Z.min z y)) as [H|H]; [|auto].
  rewrite H. destruct (Z.min_spec z y) as [[_ ->]|[_ ->]]; auto.
Qed.

Lemma first_codepoint_is_lowest l p :
  assemble l = Some p ->
  (exists g, In g l /\ tg_codepoint g = first_codepoint p) /\
  (forall g, In g l -> first_codepoint p <= tg_codepoint g).
Proof.
  unfold assemble. destruct (by_codepoint l) as [|g rest] eqn:Hs;
    [discriminate|].
  intros H. inversion H. subst p. cbn [first_codepoint].
  unfold lowest_codepoint.
  assert (Hin : forall x, In x l <-> x = g \/ In x rest).
  { intros x. rewrite <- by_codepoint_in, Hs. simpl. intuition congruence. }
  destruct (fold_min_le (map tg_codepoint rest) (tg_codepoint g)) as [H1 H2].
  split.
  - destruct (fold_min_in (map tg_codepoint rest) (tg_codepoint g))
      as [He|He].
    + exists g. split; [apply Hin; auto | congruence].
    + apply in_map_iff in He. destruct He as (x & Hx & Hxin).
      exists x. split; [apply Hin; auto | exact Hx].
  - intros x Hx. apply Hin in Hx. destruct Hx as [->|Hx]; [exact H1|].
    apply H2, in_map, Hx.
Qed.

(** EmptyFont: when no glyph of the font is in the range, the conversion
    yields nothing. *)
Lemma convert_empty_subset read_font normalize Rotate
  file glyphs lo hi asc native rotate flip droplast :
  read_font file = Some glyphs ->
  retained glyphs lo hi = [] ->
  convert read_font normalize Rotate file lo hi asc
          native rotate flip droplast = None.
Proof.
  intros Hf Hr. unfold convert. rewrite Hf, Hr. reflexivity.
Qed.

(** *** The preview comes to an end *)

Lemma snd_bind {X Y : Type} (m : io X) (k : X -> io Y) :
  snd (bind m k) =
  match snd m with
  | Go x => snd (k x)
  | Halt o => Halt o
  end.
Proof.
  unfold bind. destruct m as [es [x|o]]; [|reflexivity].
  destruct (k x) as [es' r] eqn:Hk. simpl. rewrite Hk. reflexivity.
Qed.

Lemma snd_hw macos e : snd (hw macos e) = Go tt.
Proof. unfold hw. destruct macos; reflexivity. Qed.

Lemma snd_getch E n : snd (getch E n) = Go (stdin_keys E n).
Proof. reflexivity. Qed.

Section PreviewEnds.
Variable macos : bool.
Variable E : env.
Variable fnt : bdfe_t.
Variable uf : ossd_font_t.
Variable gh : Z.
Hypothesis chars_fit : 0 <= chars fnt < 2 ^ 32.
Hypothesis width_fits : 1 <= of_gw uf <= 128.
Hypothesis height_pos : 1 <= gh.

(** One row of glyphs: it ends, and it shows a glyph if one is left. *)
Lemma glyph_cells_go cols i line gidx :
  0 <= gidx ->
  exists g,
    snd (glyph_cells macos fnt uf cols i line gidx) = Go g /\
    gidx <= g /\
    ((0 < cols)%nat -> gidx < chars fnt -> gidx < g).
Proof.
  revert i gidx. induction cols as [|cols IH]; intros i gidx Hg;
    cbn [glyph_cells].
  - exists gidx. split; [reflexivity|]. split; lia.
  - destruct (Z.ltb_spec gidx (chars fnt)) as [Hlt|Hge].
    + rewrite snd_bind, snd_hw.
      assert (Hw : to_unsigned (gidx + 1) = gidx + 1)
        by (unfold to_unsigned; apply Z.mod_small; lia).
      rewrite Hw.
      destruct (IH (i + 1) (gidx + 1)) as (g & Hgo & Hle & _); [lia|].
      exists g. split; [exact Hgo|]. split; lia.
    + exists gidx. split; [reflexivity|]. split; lia.
Qed.

Lemma glyph_row_go line gidx :
  0 <= gidx ->
  exists g,
    snd (glyph_row macos fnt uf line gidx) = Go g /\
    gidx <= g /\ (gidx < chars fnt -> gidx < g).
Proof.
  intros Hg. unfold glyph_row.
  destruct (Z.eqb_spec (of_gw uf) 0) as [H0|_]; [lia|].
  destruct (glyph_cells_go (Z.to_nat (128 ÷ of_gw uf)) 0 line gidx Hg)
    as (g & Hgo & Hle & Hlt).
  exists g. split; [exact Hgo|]. split; [exact Hle|].
  apply Hlt.
  assert (1 <= 128 ÷ of_gw uf).
  { rewrite Z.quot_div_nonneg by lia.
    apply Z.div_le_lower_bound; lia. }
  lia.
Qed.

(** The rows of one page: eight rounds are enough. *)
Lemma glyph_lines_go fuel line gidx :
  0 <= gidx -> 0 <= line -> (Z.to_nat (8 - line) <= fuel)%nat ->
  exists g,
    snd (glyph_lines macos fnt uf gh fuel line gidx) = Go g /\
    gidx <= g /\ (line < 8 -> gidx < chars fnt -> gidx < g).
Proof.
  revert line gidx. induction fuel as [|fuel IH]; intros line gidx Hg Hl Hf;
    cbn [glyph_lines]; destruct (Z.ltb_spec line 8) as [Hlt|Hge];
    try lia;
    try (exists gidx; split; [reflexivity|]; split; lia).
  rewrite snd_bind.
  destruct (glyph_row_go line gidx Hg) as (g1 & -> & Hle1 & Hlt1).
  destruct (IH (line + gh) g1) as (g & Hgo & Hle & _); try lia.
  exists g. split; [exact Hgo|]. split; lia.
Qed.

(** The pages: every page shows a glyph, so the loop is over after at
    most as many pages as there are glyphs. *)
Lemma pages_end fuel gidx nkey :
  0 <= gidx -> (Z.to_nat (chars fnt - gidx) + 9 <= fuel)%nat ->
  snd (pages macos E fnt uf gh fuel gidx nkey) = Go tt.
Proof.
  revert gidx nkey. induction fuel as [|fuel IH]; intros gidx nkey Hg Hf;
    [lia|].
  cbn [pages]. rewrite snd_bind.
  assert (Hrest : forall q : bool,
             snd (if q then ret tt
                  else gidx' <- glyph_lines macos fnt uf gh fuel 0 gidx ;;
                       if gidx' <? chars fnt
                       then pages macos E fnt uf gh fuel gidx'
                              (if 0 <? gidx then S nkey else nkey)
                       else ret tt) = Go tt).
  { intros [|]; [reflexivity|]. rewrite snd_bind.
    destruct (glyph_lines_go fuel 0 gidx Hg) as (g & -> & Hle & Hlt);
      [lia | lia |].
    destruct (Z.ltb_spec g (chars fnt)) as [Hmore|Hdone]; [|reflexivity].
    apply IH; lia. }
  destruct (0 <? gidx); [|apply Hrest].
  rewrite snd_bind. cbn [emit snd]. unfold getch.
  rewrite !snd_bind. cbn [emit snd ret].
  destruct (stdin_keys E nkey =? 113); [apply Hrest|].
  rewrite snd_bind, snd_hw. apply Hrest.
Qed.
End PreviewEnds.

(** With a glyph width between 1 and 128 and a glyph of at least one
    byte, the preview of a font of less than 2^32 glyphs is over within
    the fuel of one round per glyph and nine more. *)
Lemma preview_ends K macos E fuel file fnt v :
  0 <= chars fnt < 2 ^ 32 ->
  1 <= of_gw (user_font K fnt v) <= 128 ->
  1 <= of_gh (user_font K fnt v) ->
  (Z.to_nat (chars fnt) + 9 <= fuel)%nat ->
  snd (preview K macos E fuel file fnt v) <> Halt Running.
Proof.
  intros Hc Hw Hh Hf. unfold preview.
  assert (Hgh : 1 <= (of_gh (user_font K fnt v) + 7) ÷ 8).
  { rewrite Z.quot_div_nonneg by lia. apply Z.div_le_lower_bound; lia. }
  repeat first
    [ rewrite snd_bind
    | rewrite snd_hw
    | rewrite snd_getch
    | rewrite (pages_end _ E fnt (user_font K fnt v) _ Hc Hw Hgh)
        by (try lia; rewrite Z.sub_0_r; exact Hf)
    | match goal with
      | |- context [if ?b then _ else _] => destruct b
      end
    | progress cbn [emit ret halt snd] ];
    discriminate.
Qed.

(** [main] comes to an end, given fuel for the preview of the font that
    the conversion yields. *)
Lemma main_ends K M macos E argv fuel :
  (forall file lo hi asc fl fnt,
      bdf_convert E file lo hi asc fl = Some fnt ->
      0 <= chars fnt < 2 ^ 32 /\
      1 <= ossd_dim K (gw fnt) <= 128 /\
      1 <= ossd_dim K (bpg fnt) /\
      (Z.to_nat (chars fnt) + 9 <= fuel)%nat) ->
  snd (main K M macos E argv fuel) <> Running.
Proof.
  intros Hfont. unfold main, run.
  destruct (argc argv <? 2)%nat; [discriminate|].
  destruct (parse_options_cases K M argv) as [[v Hv]|[Hu|Hf]];
    [|rewrite Hu; discriminate|rewrite Hf; discriminate].
  rewrite Hv. change (@nil event, Go v) with (ret v). rewrite bind_ret_l.
  unfold convert_and_show, arg.
  destruct (nth_error argv (argc argv - 1)) as [file|]; [|discriminate].
  rewrite bind_ret_l.
  destruct (bdf_convert E file (gmin v) (gmax v) (ascender v) (flags v))
    as [fnt|] eqn:Hr; [|discriminate].
  destruct (Z.land (flags v) DISPLAY_FONT =? 0); [discriminate|].
  destruct (Hfont _ _ _ _ _ _ Hr) as (Hc & Hw & Hh & Hfuel).
  pose proof (preview_ends K macos E fuel file fnt v Hc Hw Hh Hfuel) as Hp.
  unfold bind, emit.
  destruct (preview K macos E fuel file fnt v) as [es [code|o]];
    [discriminate|].
  simpl in *. congruence.
Qed.

(** *** The shape of the events *)

Lemma usage_is_usage_text name :
  Forall (fun e => is_usage_text e = true) (usage name).
Proof. unfold usage. repeat constructor. Qed.

Lemma main_shape K M macos E argv fuel :
  Forall (fun e => is_usage_text e = true)
         (fst (main K M macos E argv fuel))
  \/ exists c rest,
       fst (main K M macos E argv fuel) = c :: rest /\
       is_conversion c = true /\
       Forall (fun e => is_conversion e = false /\ is_usage_text e = false)
              rest.
Proof.
  destruct (main_cases K M macos E argv fuel) as [[Hu _]|[Hf|H]].
  - left. rewrite Hu. apply usage_is_usage_text.
  - left. rewrite Hf. constructor.
  - right. destruct H as (v & file & rest & o & _ & _ & _ & Hm & Hr).
    rewrite Hm. eexists _, rest. split; [reflexivity|].
    split; [reflexivity|].
    destruct (bdf_convert E file (gmin v) (gmax v) (ascender v) (flags v))
      as [fnt|].
    + eapply Forall_impl; [|exact Hr]. intros e (H1 & H2 & _). auto.
    + destruct Hr as [-> _]. repeat constructor.
Qed.

Lemma usage_text_kind e :
  is_usage_text e = true -> is_conversion e = false /\ is_display e = false.
Proof. destruct e; try discriminate. auto. Qed.

(* ================================================================== *)
(** ** The properties of the specification *)

Import Sample.

(** C4. When the conversion fails, that is when [bdf_convert] yields no
    font, the run consists of the conversion call and the report
    "Unable to convert" on standard error, and [main] returns -1, a
    non-zero exit status: nothing reaches the display or the I2C bus and
    nothing is written to standard output. *)
Theorem failed_conversion_stops K M macos E argv fuel file lo hi asc fl :
  In (bdf_convert_call file lo hi asc fl None)
     (fst (main K M macos E argv fuel)) ->
  main K M macos E argv fuel =
  ([bdf_convert_call file lo hi asc fl None;
    fprintf_stderr ("Unable to convert '" ++ file ++ "'" ++ LF)%string],
   Return (-1))
  /\ -1 <> 0
  /\ forall e, In e (fst (main K M macos E argv fuel)) ->
               is_display e = false /\ is_usage_text e = false.
Proof.
  intros Hin.
  destruct (main_conversion K M macos E argv fuel _ _ _ _ _ _ Hin)
    as (v & rest & o & _ & _ & _ & _ & _ & _ & _ & _ & Hm & -> & ->).
  split; [exact Hm|]. split; [lia|].
  rewrite Hm. intros e [<-|[<-|[]]]; split; reflexivity.
Qed.

Lemma failed_conversion_stops_witness :
  main headers0 LP64 false env0 ["bdfe"; "missing.bdf"] 0 =
  ([bdf_convert_call "missing.bdf" 32 126 0 0 None;
    fprintf_stderr
      ("Unable to convert '" ++ "missing.bdf" ++ "'" ++ LF)%string],
   Return (-1)).
Proof.
  apply (failed_conversion_stops headers0 LP64 false env0
           ["bdfe"; "missing.bdf"] 0 "missing.bdf" 32 126 0 0).
  vm_compute. left. reflexivity.
Defined.

(** C8. In every run the conversion is the first thing that happens:
    nothing precedes the call of [bdf_convert] in the events of the run,
    and every display initialization, font upload and preview output
    comes after it, as does everything else that is not the usage text.
    A run that prints the usage text converts nothing. *)
Theorem conversion_precedes_output K M macos E argv fuel :
  (forall pre c post,
      fst (main K M macos E argv fuel) = pre ++ c :: post ->
      is_conversion c = true -> pre = [])
  /\ (forall e,
         In e (fst (main K M macos E argv fuel)) -> is_display e = true ->
         exists c rest,
           fst (main K M macos E argv fuel) = c :: rest /\
           is_conversion c = true /\ In e rest)
  /\ (forall e c,
         In e (fst (main K M macos E argv fuel)) -> is_usage_text e = true ->
         In c (fst (main K M macos E argv fuel)) -> is_conversion c = false)
  /\ (forall e,
         In e (fst (main K M macos E argv fuel)) ->
         is_usage_text e = false -> is_conversion e = false ->
         exists c rest,
           fst (main K M macos E argv fuel) = c :: rest /\
           is_conversion c = true /\ In e rest).
Proof.
  destruct (main_shape K M macos E argv fuel)
    as [Hu|(c0 & rest & Ht & Hc0 & Hr)].
  - rewrite Forall_forall in Hu. repeat split.
    + intros pre c post Heq Hc. exfalso.
      assert (Hin : In c (fst (main K M macos E argv fuel)))
        by (rewrite Heq; apply in_elt).
      apply Hu, usage_text_kind in Hin. destruct Hin. congruence.
    + intros e Hin Hd. exfalso.
      apply Hu, usage_text_kind in Hin. destruct Hin. congruence.
    + intros e c _ _ Hin. apply Hu, usage_text_kind in Hin. tauto.
    + intros e Hin Hn _. apply Hu in Hin. congruence.
  - rewrite Ht. rewrite Forall_forall in Hr. repeat split.
    + intros pre c post Heq Hc. destruct pre as [|p pre]; [reflexivity|].
      exfalso. inversion Heq. subst.
      assert (Hin : In c (pre ++ c :: post)) by apply in_elt.
      apply Hr in Hin. destruct Hin. congruence.
    + intros e [<-|Hin] Hd.
      * destruct c0; discriminate.
      * exists c0, rest. auto.
    + intros e c [<-|Hin] Hu.
      * destruct c0; discriminate.
      * apply Hr in Hin. destruct Hin. congruence.
    + intros e [<-|Hin] _ Hn; [congruence|].
      exists c0, rest. auto.
Qed.

Lemma conversion_precedes_output_witness :
  exists c rest,
    fst (main headers0 LP64 false env0 ["bdfe"; "-d"; "3C"; "A.bdf"] 1)
    = c :: rest /\
    is_conversion c = true /\ In (ossd_init 0) rest.
Proof.
  apply (proj1 (proj2 (conversion_precedes_output headers0 LP64 false env0
                         ["bdfe"; "-d"; "3C"; "A.bdf"] 1))).
  - vm_compute. right. right. right. left. reflexivity.
  - reflexivity.
Defined.

(** C5. The conversion is always called with an ordered range,
    [min <= max]; the round of the option loop on a subset argument
    [a-b] with [a > b] leaves the bounds swapped, [b] as the minimum and
    [a] as the maximum; and these swapped bounds are the ones the
    conversion is called with, when no later argument asks for another
    subset or for all glyphs: for the two numbers as [strtoul] reads
    them, and so for [a-b] written in decimal. *)
Theorem subset_range_is_ordered K M macos E argv fuel :
  (forall file lo hi asc fl r,
      In (bdf_convert_call file lo hi asc fl r)
         (fst (main K M macos E argv fuel)) ->
      lo <= hi)
  /\ (forall c s a b,
         nth_error argv (idx c) = Some s ->
         arg_is s (Some "-s") (Some "subset") = true ->
         nth_error argv (S (idx c))
         = Some (decimal a ++ "-" ++ decimal b)%string ->
         0 <= b -> b < a -> a < 2 ^ 32 ->
         body K M argv c
         = ([], Go {| idx := S (idx c); vars := set_range b a (vars c) |}))
  /\ (forall k s n a e b file lo hi asc fl r,
         (1 <= k)%nat ->
         nth_error argv k = Some s ->
         arg_is s (Some "-s") (Some "subset") = true ->
         nth_error argv (S k) = Some n -> isdigit (deref n) = true ->
         strtoul M n 10 = (a, e) -> deref e = "-"%char ->
         fst (strtoul M (next e) 10) = b ->
         to_unsigned b < to_unsigned a ->
         no_subset_after argv k -> no_all_after argv k ->
         In (bdf_convert_call file lo hi asc fl r)
            (fst (main K M macos E argv fuel)) ->
         lo = to_unsigned b /\ hi = to_unsigned a)
  /\ (forall k s a b file lo hi asc fl r,
         (1 <= k)%nat ->
         nth_error argv k = Some s ->
         arg_is s (Some "-s") (Some "subset") = true ->
         nth_error argv (S k)
         = Some (decimal a ++ "-" ++ decimal b)%string ->
         0 <= b -> b < a -> a < 2 ^ 32 ->
         no_subset_after argv k -> no_all_after argv k ->
         In (bdf_convert_call file lo hi asc fl r)
            (fst (main K M macos E argv fuel)) ->
         lo = b /\ hi = a).
Proof.
  split; [|split; [|split]].
  - intros file lo hi asc fl r Hin.
    destruct (main_conversion K M macos E argv fuel _ _ _ _ _ _ Hin)
      as (v & rest & o & Hv & _ & _ & -> & -> & _).
    apply (parse_options_ordered K M argv v Hv).
  - intros c s a b. apply subset_round_swaps.
  - intros k s n a e b file lo hi asc fl r Hk Hs Hm Hn Hd Ha He Hb Hlt
      Hnos Hnoa Hin.
    destruct (main_conversion K M macos E argv fuel _ _ _ _ _ _ Hin)
      as (v & rest & o & Hv & _ & _ & -> & -> & _).
    apply (parse_options_subset K M argv k s n _ _ v Hk Hs Hm Hn Hd);
      try assumption.
    apply parse_subset_parsed with (e := e); assumption.
  - intros k s a b file lo hi asc fl r Hk Hs Hm Hn Hb Hab Ha Hnos Hnoa Hin.
    destruct (main_conversion K M macos E argv fuel _ _ _ _ _ _ Hin)
      as (v & rest & o & Hv & _ & _ & -> & -> & _).
    apply (parse_options_subset K M argv k s _ _ _ v Hk Hs Hm Hn);
      try assumption.
    + apply decimal_starts_with_digit. lia.
    + apply parse_subset_swaps; assumption.
Qed.

Lemma subset_range_is_ordered_witness :
  65 <= 66 /\
  body headers0 LP64 ["bdfe"; "-s"; "66-65"; "A.bdf"]
       {| idx := 1; vars := initial |}
  = ([], Go {| idx := 2; vars := set_range 65 66 initial |}) /\
  (65 = to_unsigned 65 /\ 66 = to_unsigned 66) /\
  (65 = 65 /\ 66 = 66).
Proof.
  assert (Hnos : no_subset_after ["bdfe"; "-s"; "66-65"; "A.bdf"] 1).
  { intros j s n Hj Hs Hm Hn.
    destruct j as [|[|[|[|j]]]]; simpl in Hs; try lia;
      try (destruct j; discriminate);
      inversion Hs; subst; discriminate. }
  assert (Hnoa : no_all_after ["bdfe"; "-s"; "66-65"; "A.bdf"] 1).
  { intros j Hj [[Hin Hw]|(_ & Hw & _)].
    - vm_compute in Hin. destruct Hin as [<- | [<- | []]]; [lia|].
      discriminate.
    - destruct j as [|[|[|[|j]]]]; simpl in Hw; try lia;
        try (destruct j; discriminate); discriminate. }
  assert (Hin : In (bdf_convert_call "A.bdf" 65 66 0 0
                      (bdf_convert env0 "A.bdf" 65 66 0 0))
                   (fst (main headers0 LP64 false env0
                           ["bdfe"; "-s"; "66-65"; "A.bdf"] 0)))
    by (vm_compute; left; reflexivity).
  split; [|split; [|split]].
  - apply (proj1 (subset_range_is_ordered headers0 LP64 false env0
                    ["bdfe"; "-s"; "66-65"; "A.bdf"] 0)
             "A.bdf" 65 66 0 0
             (bdf_convert env0 "A.bdf" 65 66 0 0)).
    exact Hin.
  - apply (proj1 (proj2 (subset_range_is_ordered headers0 LP64 false env0
                    ["bdfe"; "-s"; "66-65"; "A.bdf"] 0))
             {| idx := 1; vars := initial |} "-s" 66 65);
      first [reflexivity | lia].
  - apply (proj1 (proj2 (proj2
                    (subset_range_is_ordered headers0 LP64 false env0
                       ["bdfe"; "-s"; "66-65"; "A.bdf"] 0)))
             1%nat "-s" "66-65"%string 66 "-65"%string 65
             "A.bdf" 65 66 0 0 (bdf_convert env0 "A.bdf" 65 66 0 0));
      first [exact Hnos | exact Hnoa | exact Hin | reflexivity | lia].
  - apply (proj2 (proj2 (proj2
                    (subset_range_is_ordered headers0 LP64 false env0
                       ["bdfe"; "-s"; "66-65"; "A.bdf"] 0)))
             1%nat "-s" 66 65
             "A.bdf" 65 66 0 0 (bdf_convert env0 "A.bdf" 65 66 0 0));
      first [exact Hnos | exact Hnoa | exact Hin | reflexivity | lia].
Defined.

(** C6. When no argument asks for a subset or for all glyphs, the
    conversion is called with the range of printable ASCII, 32 to 126. *)
Theorem default_range_is_printable_ascii
  K M macos E argv fuel file lo hi asc fl r :
  no_range_option argv ->
  In (bdf_convert_call file lo hi asc fl r)
     (fst (main K M macos E argv fuel)) ->
  lo = 32 /\ hi = 126.
Proof.
  intros Hno Hin.
  destruct (main_conversion K M macos E argv fuel _ _ _ _ _ _ Hin)
    as (v & rest & o & Hv & _ & _ & -> & -> & _).
  apply (parse_options_default K M argv v Hno Hv).
Qed.

Lemma default_range_is_printable_ascii_witness : 32 = 32 /\ 126 = 126.
Proof.
  apply (default_range_is_printable_ascii headers0 LP64 false env0
           ["bdfe"; "-a"; "2"; "A.bdf"] 0 "A.bdf" 32 126 2 0
           (bdf_convert env0 "A.bdf" 32 126 2 0)).
  - intros j s Hj Hs.
    destruct j as [|[|[|[|j]]]]; simpl in Hs; try lia;
      try (destruct j; discriminate);
      inversion Hs; subst; repeat split; try discriminate.
    intros _. exists "2". split; reflexivity.
  - vm_compute. left. reflexivity.
Defined.

(** C3. When [-l] is among the arguments, the flags of the conversion
    have both the one-glyph-per-line bit and the drop-last bit set. *)
Theorem line_option_sets_both_flags
  K M macos E argv fuel file lo hi asc fl r :
  In "-l" (tl argv) ->
  In (bdf_convert_call file lo hi asc fl r)
     (fst (main K M macos E argv fuel)) ->
  Z.land fl (BDF_GPL K) = BDF_GPL K /\
  Z.land fl (BDF_DROPLAST K) = BDF_DROPLAST K.
Proof.
  intros Hl Hin.
  destruct (main_conversion K M macos E argv fuel _ _ _ _ _ _ Hin)
    as (v & rest & o & Hv & _ & _ & _ & _ & _ & -> & _).
  apply (parse_options_line K M argv v Hl Hv).
Qed.

Lemma line_option_sets_both_flags_witness :
  Z.land 68 (BDF_GPL headers0) = BDF_GPL headers0 /\
  Z.land 68 (BDF_DROPLAST headers0) = BDF_DROPLAST headers0.
Proof.
  apply (line_option_sets_both_flags headers0 LP64 false env0
           ["bdfe"; "-l"; "A.bdf"] 0 "A.bdf" 32 126 0 68
           (bdf_convert env0 "A.bdf" 32 126 0 68)).
  - simpl. left. reflexivity.
  - vm_compute. left. reflexivity.
Defined.

(** C7, as stated, fails: the word [all] followed by a subset option.
    The conversion is called with the range of the subset, 65 to 66. *)
Lemma all_then_subset_passes_subset :
  asks_all ["bdfe"; "all"; "-s"; "65-66"; "ABC.bdf"] 1 /\
  In (bdf_convert_call "ABC.bdf" 65 66 0 0
        (bdf_convert env0 "ABC.bdf" 65 66 0 0))
     (fst (main headers0 LP64 false env0
             ["bdfe"; "all"; "-s"; "65-66"; "ABC.bdf"] 0)) /\
  ~ full_range_passed
      (fst (main headers0 LP64 false env0
              ["bdfe"; "all"; "-s"; "65-66"; "ABC.bdf"] 0)).
Proof.
  assert (Hin : In (bdf_convert_call "ABC.bdf" 65 66 0 0
                      (bdf_convert env0 "ABC.bdf" 65 66 0 0))
                   (fst (main headers0 LP64 false env0
                           ["bdfe"; "all"; "-s"; "65-66"; "ABC.bdf"] 0)))
    by (vm_compute; left; reflexivity).
  split; [|split; [exact Hin|]].
  - left. split; [vm_compute; left; reflexivity | reflexivity].
  - intros H. destruct (H _ _ _ _ _ _ Hin) as [H0 _]. discriminate.
Qed.

(** C7, amended. When an argument asks for all glyphs (the word [all]
    on which the loop has a round, that is, not taken as the address of
    a display option, or [-a] before an argument that is no number) and
    no subset option with a number after it follows, the conversion is
    called with the full unsigned range, 0 to 4294967295. *)
Theorem all_mode_passes_full_range K M macos E argv fuel k :
  asks_all argv k -> no_subset_after argv k ->
  full_range_passed (fst (main K M macos E argv fuel)).
Proof.
  intros Hall Hno file lo hi asc fl r Hin.
  destruct (main_conversion K M macos E argv fuel _ _ _ _ _ _ Hin)
    as (v & rest & o & Hv & _ & _ & -> & -> & _).
  apply (parse_options_all K M argv k v Hall Hno Hv).
Qed.

Lemma all_mode_passes_full_range_witness :
  full_range_passed
    (fst (main headers0 LP64 false env0
            ["bdfe"; "-d"; "display"; "all"; "ABC.bdf"] 0)).
Proof.
  apply (all_mode_passes_full_range headers0 LP64 false env0
           ["bdfe"; "-d"; "display"; "all"; "ABC.bdf"] 0 3).
  - left. split; [vm_compute; right; left; reflexivity | reflexivity].
  - intros j s n Hj Hs Hm Hn.
    destruct j as [|[|[|[|[|j]]]]]; simpl in Hs; try lia;
      try (destruct j; discriminate);
      inversion Hs; subst; discriminate.
Defined.

(** C2, as stated, fails: [-a 5] is the ascender and nothing else.  The
    conversion is called with the default range, 32 to 126. *)
Lemma short_a_with_number_keeps_range :
  In (bdf_convert_call "A.bdf" 32 126 5 0
        (bdf_convert env0 "A.bdf" 32 126 5 0))
     (fst (main headers0 LP64 false env0 ["bdfe"; "-a"; "5"; "A.bdf"] 0)) /\
  ~ full_range_passed
      (fst (main headers0 LP64 false env0 ["bdfe"; "-a"; "5"; "A.bdf"] 0)).
Proof.
  assert (Hin : In (bdf_convert_call "A.bdf" 32 126 5 0
                      (bdf_convert env0 "A.bdf" 32 126 5 0))
                   (fst (main headers0 LP64 false env0
                           ["bdfe"; "-a"; "5"; "A.bdf"] 0)))
    by (vm_compute; left; reflexivity).
  split; [exact Hin|].
  intros H. destruct (H _ _ _ _ _ _ Hin) as [H0 _]. discriminate.
Qed.

(** C2, amended. The round of the option loop on [-a] does one of two
    things.  When the next argument starts with a decimal digit, the
    round takes it as the ascender and leaves the range as it was.  When
    the next argument does not start with a digit, the round sets the
    range to 0 and 4294967295 and leaves the ascender as it was. *)
Theorem short_a_is_ascender_or_all K M argv c n :
  nth_error argv (idx c) = Some "-a" ->
  nth_error argv (S (idx c)) = Some n ->
  body K M argv c =
  ([], Go (if isdigit (deref n)
           then {| idx := S (idx c);
                   vars := set_ascender (to_unsigned (atoi M n)) (vars c) |}
           else {| idx := idx c;
                   vars := set_range 0 4294967295 (vars c) |})).
Proof. apply short_a_round. Qed.

Lemma short_a_is_ascender_or_all_witness :
  body headers0 LP64 ["bdfe"; "-a"; "5"; "A.bdf"]
       {| idx := 1; vars := initial |}
  = ([], Go {| idx := 2; vars := set_ascender 5 initial |})
  /\ body headers0 LP64 ["bdfe"; "-a"; "A.bdf"]
          {| idx := 1; vars := initial |}
     = ([], Go {| idx := 1; vars := set_range 0 4294967295 initial |}).
Proof.
  split.
  - apply (short_a_is_ascender_or_all headers0 LP64
             ["bdfe"; "-a"; "5"; "A.bdf"]
             {| idx := 1; vars := initial |} "5"); reflexivity.
  - apply (short_a_is_ascender_or_all headers0 LP64
             ["bdfe"; "-a"; "A.bdf"]
             {| idx := 1; vars := initial |} "A.bdf"); reflexivity.
Defined.

(** C9. Spec-modelled.  Flip, the reversal of the bit order within every
    packed byte, applied twice to a glyph buffer gives the buffer
    back. *)
Theorem Flip_is_self_inverse buf :
  Forall is_byte buf -> Flip (Flip buf) = buf.
Proof.
  induction 1 as [|b buf Hb _ IH]; [reflexivity|].
  unfold Flip in *. cbn [map]. rewrite IH, (flip_byte_twice b Hb).
  reflexivity.
Qed.

Lemma Flip_is_self_inverse_witness :
  Flip (Flip [0; 0; 0; 126; 1; 128; 255; 77]) = [0; 0; 0; 126; 1; 128; 255; 77].
Proof.
  apply (Flip_is_self_inverse [0; 0; 0; 126; 1; 128; 255; 77]).
  repeat constructor; unfold is_byte; lia.
Defined.

(** C1, as stated, fails: the font [A.bdf] holds the one glyph 65, and
    the default range 32 to 126 retains it, so that 65 is the lowest
    retained codepoint; the glyph offset handed to the display is 32. *)
Lemma display_offset_not_lowest_retained :
  let t := fst (main headers0 LP64 false env0
                  ["bdfe"; "-d"; "3C"; "A.bdf"] 1) in
  let p := {| glyph_width := 8; bytes_per_glyph := 8; glyph_count := 1;
              first_codepoint := 65;
              packed := [0; 0; 0; 126; 0; 0; 0; 0] |} in
  convert read_font0 normalize0 Rotate0 "A.bdf" 32 126 0
          false false false false = Some p /\
  In (bdf_convert_call "A.bdf" 32 126 0 2147483648 (Some (to_bdfe p))) t /\
  In (ossd_set_user_font
        {| of_gw := 8; of_gh := 8; of_go := 32; of_gn := 1;
           of_font := [0; 0; 0; 126; 0; 0; 0; 0] |}) t /\
  ~ offset_is_first_codepoint t p.
Proof.
  cbv zeta.
  assert (Hin : In (ossd_set_user_font
                      {| of_gw := 8; of_gh := 8; of_go := 32; of_gn := 1;
                         of_font := [0; 0; 0; 126; 0; 0; 0; 0] |})
                   (fst (main headers0 LP64 false env0
                           ["bdfe"; "-d"; "3C"; "A.bdf"] 1))).
  { vm_compute. do 4 right. left. reflexivity. }
  split; [reflexivity|]. split; [vm_compute; left; reflexivity|].
  split; [exact Hin|].
  intros H. specialize (H _ Hin). discriminate.
Qed.

(** C1, amended. In a run that converts a font and uploads it to the
    display, the glyph offset handed to the display driver is the minimum
    of the requested range cut to 8 bits, [(uint8_t)gmin].  In
    particular the subset 65-66 of a font with the codepoints 65, 66 and
    67 is uploaded with the offset 65 and the glyph count 2, which are
    the first codepoint and the glyph count of the packed font. *)
Theorem display_offset_is_range_minimum
  K M macos E argv fuel file lo hi asc fl fnt uf :
  In (bdf_convert_call file lo hi asc fl (Some fnt))
     (fst (main K M macos E argv fuel)) ->
  In (ossd_set_user_font uf) (fst (main K M macos E argv fuel)) ->
  of_go uf = to_uint8 lo /\
  forall read_font normalize Rotate glyphs,
    bdf_convert E = engine read_font normalize Rotate K ->
    read_font file = Some glyphs ->
    map codepoint glyphs = [65; 66; 67] ->
    lo = 65 -> hi = 66 -> has_flag fl (BDF_DROPLAST K) = false ->
    exists p,
      convert read_font normalize Rotate file 65 66 asc
              (has_flag fl (BDF_NATIVE K)) (has_flag fl (BDF_ROTATE K))
              (has_flag fl (BDF_FLIP K)) false = Some p /\
      first_codepoint p = 65 /\ glyph_count p = 2 /\
      of_go uf = first_codepoint p /\ of_gn uf = glyph_count p.
Proof.
  intros Hc Hu.
  destruct (main_conversion K M macos E argv fuel _ _ _ _ _ _ Hc)
    as (v & rest & o & _ & _ & _ & Hlo & _ & _ & _ & Hr & Hm & Hrest).
  rewrite Hm in Hu. destruct Hu as [Hu|Hu]; [discriminate|].
  rewrite Forall_forall in Hrest.
  destruct (Hrest _ Hu) as (_ & _ & Huf). specialize (Huf uf eq_refl).
  assert (Hgo : of_go uf = to_uint8 lo) by (rewrite Huf, Hlo; reflexivity).
  split; [exact Hgo|].
  intros read_font normalize Rotate glyphs HE Hf Hcp -> -> Hdrop.
  destruct (convert_subset_65_66 read_font normalize Rotate file glyphs asc
              (has_flag fl (BDF_NATIVE K)) (has_flag fl (BDF_ROTATE K))
              (has_flag fl (BDF_FLIP K)) Hf Hcp) as (p & Hp & Hfirst & Hcount).
  exists p. repeat split; try assumption.
  - rewrite Hgo, Hfirst. reflexivity.
  - rewrite HE in Hr. unfold engine in Hr. rewrite Hdrop, Hp in Hr.
    inversion Hr. subst fnt. rewrite Huf. cbn. rewrite Hcount. reflexivity.
Qed.

Lemma display_offset_is_range_minimum_witness :
  let uf := {| of_gw := 8; of_gh := 8; of_go := 65; of_gn := 2;
               of_font := [0; 0; 0; 126; 0; 0; 0; 0;
                           0; 0; 0; 126; 0; 0; 0; 0] |} in
  of_go uf = to_uint8 65 /\
  exists p,
    convert read_font0 normalize0 Rotate0 "ABC.bdf" 65 66 0
            false false false false = Some p /\
    first_codepoint p = 65 /\ glyph_count p = 2 /\
    of_go uf = first_codepoint p /\ of_gn uf = glyph_count p.
Proof.
  cbv zeta.
  destruct (display_offset_is_range_minimum headers0 LP64 false env0
              ["bdfe"; "-s"; "65-66"; "-d"; "3C"; "ABC.bdf"] 1
              "ABC.bdf" 65 66 0 2147483648
              {| gw := 8; bpg := 8; chars := 2;
                 font := [0; 0; 0; 126; 0; 0; 0; 0;
                          0; 0; 0; 126; 0; 0; 0; 0] |}
              {| of_gw := 8; of_gh := 8; of_go := 65; of_gn := 2;
                 of_font := [0; 0; 0; 126; 0; 0; 0; 0;
                             0; 0; 0; 126; 0; 0; 0; 0] |})
    as [Hgo Hscenario].
  - vm_compute. left. reflexivity.
  - vm_compute. do 4 right. left. reflexivity.
  - split; [exact Hgo|].
    apply (Hscenario read_font0 normalize0 Rotate0
             [glyph 65; glyph 66; glyph 67]); reflexivity.
Defined.

(* ================================================================== *)
(** ** Further properties of main.c *)

Import Props.

Lemma nth_error_tl (argv : list string) j s :
  (1 <= j)%nat -> nth_error argv j = Some s -> In s (tl argv).
Proof.
  intros Hj H. destruct j as [|j]; [lia|].
  destruct argv as [|a0 rest]; [discriminate|].
  simpl in *. eapply nth_error_In, H.
Qed.

Lemma in_tl_nth_error (argv : list string) s :
  In s (tl argv) -> exists j, (1 <= j)%nat /\ nth_error argv j = Some s.
Proof.
  destruct argv as [|a0 rest]; [intros []|]. simpl. intros H.
  apply In_nth_error in H. destruct H as [n Hn].
  exists (S n). split; [lia | exact Hn].
Qed.

Lemma in_tl_argc (argv : list string) s :
  In s (tl argv) -> (argc argv <? 2)%nat = false.
Proof.
  destruct argv as [|a0 [|a1 rest]]; simpl; tauto.
Qed.

Lemma lor_clear f b d :
  Z.land f d = 0 -> Z.land b d = 0 -> Z.land (Z.lor f b) d = 0.
Proof.
  intros Hf Hb. rewrite Z.land_lor_distr_l, Hf, Hb. reflexivity.
Qed.

Section MoreBodyFacts.
Variable K : headers.
Variable M : abi.
Variable argv : list string.

Ltac split_ifs :=
  repeat match goal with
         | |- context [if ?b then _ else _] => destruct b eqn:?
         end.

Lemma plain_keeps a v :
  i2c_address (plain K a v) = i2c_address v /\
  ascender (plain K a v) = ascender v.
Proof. unfold plain. split_ifs; split; reflexivity. Qed.

Lemma plain_orientation a v :
  orientation (plain K a v) =
  if is_updown a then to_uint8 (OSSD_UPDOWN K) else orientation v.
Proof.
  unfold plain, is_updown.
  destruct (arg_is a (Some "-u") (Some "updown")); split_ifs; reflexivity.
Qed.

Lemma after_display_keeps n v :
  i2c_address (after_display K n v) = i2c_address v /\
  ascender (after_display K n v) = ascender v.
Proof. unfold after_display. split_ifs; split; reflexivity. Qed.

Lemma after_display_orientation n v :
  orientation (after_display K n v) =
  if is_updown n then to_uint8 (OSSD_UPDOWN K) else orientation v.
Proof.
  unfold after_display, is_updown.
  destruct (arg_is n (Some "-u") (Some "updown")); split_ifs; reflexivity.
Qed.

Lemma display_address_orientation n v :
  orientation (display_address M n v) = orientation v /\
  ascender (display_address M n v) = ascender v.
Proof. unfold display_address. destruct (_ && _); split; reflexivity. Qed.

Lemma display_address_valid n v :
  0 < i2c_address v < 120 -> 0 < i2c_address (display_address M n v) < 120.
Proof.
  intros Hv. unfold display_address.
  destruct (negb (to_unsigned (fst (strtoul M n 16)) =? 0)) eqn:H0;
    [|exact Hv].
  destruct (Z.ltb_spec (to_unsigned (fst (strtoul M n 16))) 120) as [Hlt|];
    [|exact Hv].
  cbn [andb set_i2c_address i2c_address].
  apply negb_true_iff, Z.eqb_neq in H0.
  assert (0 <= to_unsigned (fst (strtoul M n 16)))
    by (unfold to_unsigned; apply Z.mod_pos_bound; lia).
  unfold to_uint8. rewrite Z.mod_small; lia.
Qed.

Lemma plain_flags_clear a v :
  flags_below_display K ->
  Z.land (flags v) DISPLAY_FONT = 0 ->
  Z.land (flags (plain K a v)) DISPLAY_FONT = 0.
Proof.
  intros HK Hv. unfold flags_below_display in HK.
  repeat match goal with
         | H : Forall _ (_ :: _) |- _ => inversion H; subst; clear H
         end.
  unfold plain. split_ifs;
    cbn [flags or_flags set_range set_orientation];
    repeat apply lor_clear; assumption.
Qed.

(** The round on a help word does not go on. *)
Lemma help_round_stops c h es c' :
  nth_error argv (idx c) = Some h -> is_help h = true ->
  body K M argv c = (es, Go c') -> False.
Proof.
  intros Hh Hhelp Hb. apply body_go in Hb.
  destruct Hb as (_ & a & Ha & Hno & _).
  unfold is_help in Hhelp. congruence.
Qed.

(** The round on an option that reads [argv[i+1]], when [argv[i]] is the
    last argument, does not go on. *)
Lemma dangling_round_stops c s es c' :
  nth_error argv (idx c) = Some s -> takes_argument s = true ->
  nth_error argv (S (idx c)) = None ->
  body K M argv c = (es, Go c') -> False.
Proof.
  intros Hs Ht Hn. rewrite body_by_cases. unfold body_cases.
  rewrite Hs, Hn. unfold takes_argument, is_display_option in Ht.
  destruct (arg_is s (Some "-?") (Some "help")); [discriminate|].
  destruct (arg_is s (Some "-a") (Some "ascender")); [discriminate|].
  destruct (arg_is s (Some "-s") (Some "subset")); [discriminate|].
  destruct (arg_is s (Some "-d") (Some "display")); discriminate.
Qed.

(** A round leaves the I2C address between 1 and 119. *)
Lemma body_address c es c' :
  body K M argv c = (es, Go c') ->
  0 < i2c_address (vars c) < 120 -> 0 < i2c_address (vars c') < 120.
Proof.
  intros H Hv. apply body_go in H.
  destruct H as (_ & a & Ha & _ & [H|[H|[H|[H|[H|H]]]]]).
  - destruct H as (_ & -> & _).
    destruct (plain_keeps a (vars c)) as [-> _]. exact Hv.
  - destruct H as (_ & -> & _). exact Hv.
  - destruct H as (_ & -> & _). exact Hv.
  - destruct H as (n & _ & _ & _ & ->). exact Hv.
  - destruct H as (n & lo & hi & _ & _ & _ & _ & ->). exact Hv.
  - destruct H as (n & _ & _ & _ & ->). cbn [vars].
    destruct (after_display_keeps n
                (display_address M n (or_flags DISPLAY_FONT (vars c))))
      as [-> _].
    apply display_address_valid. exact Hv.
Qed.

(** The orientation after a round: that of the updown option if the
    round met it, and else what it was. *)
Lemma body_orientation c es c' :
  body K M argv c = (es, Go c') ->
  orientation (vars c') = orientation (vars c) \/
  (orientation (vars c') = to_uint8 (OSSD_UPDOWN K) /\
   exists j s, (idx c <= j <= idx c')%nat /\
               nth_error argv j = Some s /\ is_updown s = true).
Proof.
  intros H. apply body_go in H.
  destruct H as (_ & a & Ha & _ & [H|[H|[H|[H|[H|H]]]]]).
  - destruct H as (Hi & -> & _). rewrite plain_orientation.
    destruct (is_updown a) eqn:Hu; [|auto].
    right. split; [reflexivity|]. exists (idx c), a. repeat split; auto; lia.
  - destruct H as (_ & -> & _). auto.
  - destruct H as (_ & -> & _). auto.
  - destruct H as (n & _ & _ & _ & ->). auto.
  - destruct H as (n & lo & hi & _ & _ & _ & _ & ->). auto.
  - destruct H as (n & Hn & _ & _ & ->). cbn [vars idx].
    rewrite after_display_orientation.
    destruct (display_address_orientation n (or_flags DISPLAY_FONT (vars c)))
      as [-> _].
    destruct (is_updown n) eqn:Hu; [|auto].
    right. split; [reflexivity|]. exists (S (idx c)), n.
    repeat split; auto; lia.
Qed.

(** Without the display option a round leaves the bit of [DISPLAY_FONT]
    clear. *)
Lemma body_flags_clear c es c' a :
  flags_below_display K ->
  nth_error argv (idx c) = Some a -> is_display_option a = false ->
  body K M argv c = (es, Go c') ->
  Z.land (flags (vars c)) DISPLAY_FONT = 0 ->
  Z.land (flags (vars c')) DISPLAY_FONT = 0.
Proof.
  intros HK Ha Hnd H Hv. apply body_go in H.
  unfold is_display_option in Hnd.
  destruct H as (_ & a' & Ha' & _ & H).
  rewrite Ha in Ha'. inversion Ha'. subst a'.
  destruct H as [H|[H|[H|[H|[H|H]]]]].
  - destruct H as (_ & -> & _). apply plain_flags_clear; assumption.
  - destruct H as (_ & -> & _). exact Hv.
  - destruct H as (_ & _ & H). congruence.
  - destruct H as (n & _ & _ & _ & ->). exact Hv.
  - destruct H as (n & lo & hi & _ & _ & _ & _ & ->). exact Hv.
  - destruct H as (n & _ & _ & H & _). congruence.
Qed.
End MoreBodyFacts.

Section MoreParseFacts.
Variable K : headers.
Variable M : abi.
Variable argv : list string.

(** An argument that the loop must meet as [argv[i]], and on which the
    round does not go on, keeps the loop from coming to its end. *)
Lemma blocked_loop j w v :
  (1 <= j)%nat -> nth_error argv j = Some w ->
  isdigit (deref w) = false ->
  (isxdigit (deref w) = true ->
   j = 1%nat \/
   forall p, nth_error argv (j - 1) = Some p -> is_display_option p = false) ->
  (forall c es c',
      idx c = j -> body K M argv c = (es, Go c') -> False) ->
  parse_options K M argv = ([], Go v) -> False.
Proof.
  intros Hj Hw Hnd Hnx Hstop H. unfold parse_options in H.
  apply (option_loop_invariant K M argv
           (fun c => (1 <= idx c <= j)%nat)) in H.
  - destruct H as (_ & c' & Hc & Hend & _).
    apply (past_the_end argv c' j w Hend); [lia | exact Hw].
  - intros c es c' Hlt Hc Hb. cbn [idx].
    destruct (Nat.eq_dec (idx c) j) as [Heq|Hne];
      [destruct (Hstop _ _ _ Heq Hb)|].
    destruct (body_go K M argv _ _ _ Hb)
      as (_ & a & Ha & _ & [Hk|[Hk|[Hk|[Hk|[Hk|Hk]]]]]).
    + destruct Hk as (-> & _). lia.
    + destruct Hk as (-> & _). lia.
    + destruct Hk as (-> & _). lia.
    + destruct Hk as (n & Hn & Hd & _ & ->). cbn [idx].
      destruct (Nat.eq_dec (S (idx c)) j) as [Heq|]; [|lia].
      subst j. rewrite Hw in Hn. inversion Hn. subst. congruence.
    + destruct Hk as (n & lo & hi & Hn & Hd & _ & _ & ->). cbn [idx].
      destruct (Nat.eq_dec (S (idx c)) j) as [Heq|]; [|lia].
      subst j. rewrite Hw in Hn. inversion Hn. subst. congruence.
    + destruct Hk as (n & Hn & Hd & Hdis & ->). cbn [idx].
      destruct (Nat.eq_dec (S (idx c)) j) as [Heq|]; [|lia].
      exfalso. subst j. rewrite Hw in Hn. inversion Hn. subst n.
      destruct (Hnx Hd) as [H1|Hp]; [lia|].
      replace (S (idx c) - 1)%nat with (idx c) in Hp by lia.
      unfold is_display_option in Hp. rewrite (Hp _ Ha) in Hdis.
      discriminate.
  - cbn [idx]. lia.
Qed.

Lemma parse_options_help h v :
  In h (tl argv) -> is_help h = true ->
  parse_options K M argv = ([], Go v) -> False.
Proof.
  intros Hin Hh. apply in_tl_nth_error in Hin. destruct Hin as (j & Hj & Hn).
  assert (Hlit : h = "-?" \/ h = "help") by (apply arg_is_true, Hh).
  apply (blocked_loop j h v Hj Hn).
  - destruct Hlit; subst; reflexivity.
  - destruct Hlit; subst; discriminate.
  - intros c es c' Hi Hb. subst j.
    eapply help_round_stops; eassumption.
Qed.

Lemma parse_options_address v :
  parse_options K M argv = ([], Go v) -> 0 < i2c_address v < 120.
Proof.
  intros H. unfold parse_options in H.
  apply (option_loop_invariant K M argv
           (fun c => 0 < i2c_address (vars c) < 120)) in H.
  - destruct H as (_ & c' & Hc & _ & <-). exact Hc.
  - intros c es c' _ Hc Hb. cbn [vars]. eapply body_address; eassumption.
  - simpl. lia.
Qed.

Lemma parse_options_no_display v :
  flags_below_display K ->
  (forall s, In s (tl argv) -> is_display_option s = false) ->
  parse_options K M argv = ([], Go v) ->
  Z.land (flags v) DISPLAY_FONT = 0.
Proof.
  intros HK Hno H. unfold parse_options in H.
  apply (option_loop_invariant K M argv
           (fun c => (1 <= idx c)%nat /\
                     Z.land (flags (vars c)) DISPLAY_FONT = 0)) in H.
  - destruct H as (_ & c' & (_ & Hc) & _ & <-). exact Hc.
  - intros c es c' Hlt (Hi & Hc) Hb. cbn [idx vars].
    destruct (body_index K M argv _ _ _ Hb) as [Hx|[Hx _]];
      (split; [lia|]);
      destruct (nth_error argv (idx c)) as [a|] eqn:Ha;
      try (apply nth_error_None in Ha; unfold argc in Hlt; lia);
      eapply body_flags_clear; eauto;
      apply Hno; eapply nth_error_tl; eauto.
  - cbn. split; [lia | reflexivity].
Qed.

Lemma parse_options_no_updown v :
  (forall s, In s (tl argv) -> is_updown s = false) ->
  parse_options K M argv = ([], Go v) -> orientation v = 0.
Proof.
  intros Hno H. unfold parse_options in H.
  apply (option_loop_invariant K M argv
           (fun c => (1 <= idx c)%nat /\ orientation (vars c) = 0)) in H.
  - destruct H as (_ & c' & (_ & Hc) & _ & <-). exact Hc.
  - intros c es c' Hlt (Hi & Hc) Hb. cbn [idx vars].
    split; [destruct (body_index K M argv _ _ _ Hb) as [Hx|[Hx _]]; lia|].
    destruct (body_orientation K M argv _ _ _ Hb)
      as [->|(_ & j & s & Hj & Hs & Hu)]; [exact Hc|].
    rewrite (Hno s) in Hu; [discriminate|].
    eapply nth_error_tl; [|exact Hs]. lia.
  - cbn. split; [lia | reflexivity].
Qed.

Lemma parse_options_updown u v :
  In u (tl argv) -> is_updown u = true ->
  parse_options K M argv = ([], Go v) ->
  orientation v = to_uint8 (OSSD_UPDOWN K).
Proof.
  intros Hin Hu H. apply in_tl_nth_error in Hin.
  destruct Hin as (k & Hk & Hn).
  assert (Hlit : u = "-u" \/ u = "updown") by (apply arg_is_true, Hu).
  unfold parse_options in H.
  apply (option_loop_invariant K M argv
           (fun c =>
              (exists j, (idx c <= j)%nat /\ nth_error argv j = Some u) \/
              orientation (vars c) = to_uint8 (OSSD_UPDOWN K))) in H.
  - destruct H as (_ & c' & [(j & Hj & Hnj)|Hc] & Hend & <-).
    + destruct (past_the_end argv c' j _ Hend Hj Hnj).
    + exact Hc.
  - intros c es c' Hlt [(j & Hj & Hnj)|Hc] Hb; cbn [idx vars].
    + destruct (Nat.eq_dec j (idx c)) as [->|Hne].
      * right.
        assert (Hr : body K M argv c
                     = ([], Go {| idx := idx c;
                                  vars := set_orientation
                                            (to_uint8 (OSSD_UPDOWN K))
                                            (vars c) |})).
        { rewrite body_by_cases. unfold body_cases. rewrite Hnj.
          destruct Hlit; subst u; reflexivity. }
        rewrite Hr in Hb. inversion Hb. reflexivity.
      * left. exists j. split; [|exact Hnj].
        destruct (body_index K M argv _ _ _ Hb)
          as [-> | [-> (n & Hn' & Hx)]]; [lia|].
        destruct (Nat.eq_dec j (S (idx c))) as [->|Hne']; [|lia].
        rewrite Hnj in Hn'. inversion Hn'. subst n.
        destruct Hlit; subst u; discriminate.
    + right.
      destruct (body_orientation K M argv _ _ _ Hb) as [->|[-> _]];
        [exact Hc | reflexivity].
  - left. exists k. cbn [idx]. auto.
Qed.
End MoreParseFacts.

Section FlagWords.
Variable K : headers.
Variable M : abi.
Variable argv : list string.

(** The words of the table of flag options, one by one. *)
Lemma flag_word_cases s l bit w :
  In (s, l, bit) (flag_options K) -> w = s \/ w = l ->
  (w = "-h" /\ bit = BDF_HEADER K) \/ (w = "header" /\ bit = BDF_HEADER K) \/
  (w = "-v" /\ bit = BDF_VERBOSE K) \/ (w = "verbose" /\ bit = BDF_VERBOSE K) \/
  (w = "-l" /\ bit = BDF_GPL K) \/ (w = "line" /\ bit = BDF_GPL K) \/
  (w = "-n" /\ bit = BDF_NATIVE K) \/ (w = "native" /\ bit = BDF_NATIVE K) \/
  (w = "-r" /\ bit = BDF_ROTATE K) \/ (w = "rotate" /\ bit = BDF_ROTATE K) \/
  (w = "-d" /\ bit = DISPLAY_FONT) \/ (w = "display" /\ bit = DISPLAY_FONT) \/
  (w = "-f" /\ bit = BDF_FLIP K) \/ (w = "flip" /\ bit = BDF_FLIP K) \/
  (w = "-l" /\ bit = BDF_DROPLAST K) \/
  (w = "droplast" /\ bit = BDF_DROPLAST K).
Proof.
  unfold flag_options. simpl.
  intros [H|[H|[H|[H|[H|[H|[H|[H|[]]]]]]]]] [Hw|Hw];
    inversion H; subst; tauto.
Qed.

Ltac flag_bit :=
  cbn [flags vars or_flags set_range set_orientation set_i2c_address];
  first [ apply lor_sets
        | apply lor_keeps, lor_sets
        | apply lor_keeps, lor_keeps, lor_sets ].

(** The round that meets a flag word as [argv[i]] sets its bit. *)
Lemma flag_word_round s l bit w c es c' :
  In (s, l, bit) (flag_options K) -> w = s \/ w = l ->
  nth_error argv (idx c) = Some w ->
  body K M argv c = (es, Go c') ->
  Z.land (flags (vars c')) bit = bit.
Proof.
  intros Hin Hw Ha. rewrite body_by_cases. unfold body_cases. rewrite Ha.
  destruct (flag_word_cases s l bit w Hin Hw)
    as [H|[H|[H|[H|[H|[H|[H|[H|[H|[H|[H|[H|[H|[H|[H|H]]]]]]]]]]]]]]];
    destruct H as [-> ->];
    match goal with
    | |- context [arg_is ?a (Some "-d") (Some "display")] =>
        let b := eval vm_compute in (arg_is a (Some "-d") (Some "display")) in
        match b with
        | false => intros H; inversion H; subst; flag_bit
        | true => idtac
        end
    end;
    change (arg_is _ (Some "-?") (Some "help")) with false;
    change (arg_is _ (Some "-a") (Some "ascender")) with false;
    change (arg_is _ (Some "-s") (Some "subset")) with false;
    change (arg_is _ (Some "-d") (Some "display")) with true;
    cbv iota;
    (destruct (nth_error argv (S (idx c))) as [n|]; [|discriminate]);
    (destruct (isxdigit (deref n)); intros H; inversion H; subst;
     cbn [vars]; [apply after_display_flags|];
     try (destruct (display_address_keeps M n
                      (or_flags DISPLAY_FONT (vars c))) as (-> & _));
     apply lor_sets).
Qed.

(** The round that takes a flag word as the argument of the display
    option sets its bit all the same. *)
Lemma flag_word_taken s l bit w c es c' :
  In (s, l, bit) (flag_options K) -> w = s \/ w = l ->
  nth_error argv (S (idx c)) = Some w -> idx c' = S (idx c) ->
  body K M argv c = (es, Go c') ->
  Z.land (flags (vars c')) bit = bit.
Proof.
  intros Hin Hw Hn Hi Hb.
  assert (Hnd : isdigit (deref w) = false).
  { destruct (flag_word_cases s l bit w Hin Hw)
      as [H|[H|[H|[H|[H|[H|[H|[H|[H|[H|[H|[H|[H|[H|[H|H]]]]]]]]]]]]]]];
      destruct H as [-> _]; reflexivity. }
  destruct (body_go K M argv _ _ _ Hb)
    as (_ & a & Ha & _ & [Hk|[Hk|[Hk|[Hk|[Hk|Hk]]]]]);
    try (destruct Hk as (Hk & _); lia).
  - destruct Hk as (n & Hn' & Hd & _). congruence.
  - destruct Hk as (n & lo & hi & Hn' & Hd & _). congruence.
  - destruct Hk as (n & Hn' & Hd & _ & ->). cbn [vars].
    rewrite Hn in Hn'. inversion Hn'. subst n.
    destruct (flag_word_cases s l bit w Hin Hw)
      as [H|[H|[H|[H|[H|[H|[H|[H|[H|[H|[H|[H|[H|[H|[H|H]]]]]]]]]]]]]]];
      destruct H as [-> ->]; try discriminate.
    + apply after_display_flags.
      destruct (display_address_keeps M "display"
                  (or_flags DISPLAY_FONT (vars c))) as (-> & _).
      apply lor_sets.
    + unfold after_display.
      change (arg_is "flip" (Some "-u") (Some "updown")) with false.
      change (arg_is "flip" (Some "-f") (Some "flip")) with true.
      change (arg_is "flip" (Some "-l") (Some "droplast")) with false.
      flag_bit.
    + unfold after_display.
      change (arg_is "droplast" (Some "-u") (Some "updown")) with false.
      change (arg_is "droplast" (Some "-f") (Some "flip")) with false.
      change (arg_is "droplast" (Some "-l") (Some "droplast")) with true.
      flag_bit.
Qed.

Lemma parse_options_flag s l bit w v :
  In (s, l, bit) (flag_options K) -> w = s \/ w = l ->
  In w (tl argv) ->
  parse_options K M argv = ([], Go v) ->
  Z.land (flags v) bit = bit.
Proof.
  intros Hin Hw Harg H. apply in_tl_nth_error in Harg.
  destruct Harg as (k & Hk & Hn). unfold parse_options in H.
  apply (option_loop_invariant K M argv
           (fun c =>
              (exists j, (idx c <= j)%nat /\ nth_error argv j = Some w) \/
              Z.land (flags (vars c)) bit = bit)) in H.
  - destruct H as (_ & c' & [(j & Hj & Hnj)|Hc] & Hend & <-).
    + destruct (past_the_end argv c' j _ Hend Hj Hnj).
    + exact Hc.
  - intros c es c' Hlt [(j & Hj & Hnj)|Hc] Hb; cbn [idx vars].
    + destruct (Nat.eq_dec j (idx c)) as [->|Hne].
      * right. eapply flag_word_round; eassumption.
      * destruct (body_index K M argv _ _ _ Hb) as [Hi | [Hi _]].
        -- left. exists j. split; [lia | exact Hnj].
        -- destruct (Nat.eq_dec j (S (idx c))) as [->|Hne'].
           ++ right. eapply flag_word_taken; eassumption.
           ++ left. exists j. split; [lia | exact Hnj].
    + right. eapply body_flags; eassumption.
  - left. exists k. cbn [idx]. auto.
Qed.

Lemma parse_options_dangling w v :
  In (argc argv - 1)%nat (rounds argv) ->
  nth_error argv (argc argv - 1) = Some w ->
  takes_argument w = true ->
  parse_options K M argv = ([], Go v) -> False.
Proof.
  intros Hround Hw Ht.
  apply (blocked_round K M argv (argc argv - 1) v Hround).
  intros c es c' Hi Hb.
  eapply (dangling_round_stops K M argv c w); try eassumption.
  - rewrite Hi. exact Hw.
  - apply nth_error_None. apply rounds_from_In in Hround.
    unfold argc in *. lia.
Qed.
End FlagWords.

(** *** From the option loop to the conversion and the preview *)

Lemma events_hw_macos (P : event -> Prop) (macos : bool) (e : event) :
  (macos = false -> P e) -> Forall P (fst (hw macos e)).
Proof.
  intros H. unfold hw. destruct macos; [apply events_ret|].
  apply events_emit, H. reflexivity.
Qed.

Section MainFacts.
Variable K : headers.
Variable M : abi.
Variable macos : bool.
Variable E : env.
Variable argv : list string.

(** What [main] comes to once the option loop is over. *)
Lemma main_after_options fuel v :
  (argc argv <? 2)%nat = false ->
  parse_options K M argv = ([], Go v) ->
  exists file,
    nth_error argv (argc argv - 1) = Some file /\
    main K M macos E argv fuel =
    let call r := bdf_convert_call file (gmin v) (gmax v) (ascender v)
                    (flags v) r in
    match bdf_convert E file (gmin v) (gmax v) (ascender v) (flags v) with
    | None =>
        ([call None;
          fprintf_stderr ("Unable to convert '" ++ file ++ "'" ++ LF)%string],
         Return (-1))
    | Some fnt =>
        if Z.land (flags v) DISPLAY_FONT =? 0
        then ([call (Some fnt)], Return 0)
        else (call (Some fnt) :: fst (preview K macos E fuel file fnt v),
              match snd (preview K macos E fuel file fnt v) with
              | Go code => Return code
              | Halt o => o
              end)
    end.
Proof.
  intros Hargc Hv. unfold main, run. rewrite Hargc, Hv.
  change (@nil event, Go v) with (ret v). rewrite bind_ret_l.
  unfold convert_and_show.
  destruct (nth_error argv (argc argv - 1)) as [file|] eqn:Hfile.
  2:{ apply nth_error_None in Hfile. apply Nat.ltb_ge in Hargc.
      unfold argc in *. lia. }
  exists file. split; [reflexivity|].
  rewrite (arg_some _ _ _ Hfile), bind_ret_l. cbv zeta.
  destruct (bdf_convert E file (gmin v) (gmax v) (ascender v) (flags v))
    as [fnt|]; [|reflexivity].
  destruct (Z.land (flags v) DISPLAY_FONT =? 0); [reflexivity|].
  unfold bind, emit.
  destruct (preview K macos E fuel file fnt v) as [es [code|o]];
    reflexivity.
Qed.

(** When the option loop is not over, [main] is over with it. *)
Lemma main_without_options fuel :
  (argc argv <? 2)%nat = false ->
  (forall v, parse_options K M argv <> ([], Go v)) ->
  main K M macos E argv fuel
  = (usage (basename (nth_error argv 0)), Return 0)
  \/ main K M macos E argv fuel = ([], Fault).
Proof.
  intros Hargc Hno. unfold main, run. rewrite Hargc.
  destruct (parse_options_cases K M argv) as [[v Hv]|[Hu|Hf]].
  - destruct (Hno v Hv).
  - left. rewrite Hu. reflexivity.
  - right. rewrite Hf. reflexivity.
Qed.

Lemma pages_sends v fnt uf gh fuel gidx nkey :
  Forall (preview_sends K macos E v)
         (fst (pages macos E fnt uf gh fuel gidx nkey)).
Proof.
  revert gidx nkey. induction fuel as [|fuel IH]; intros gidx nkey;
    cbn [pages]; [apply events_halt|].
  apply events_bind.
  - destruct (0 <? gidx); [|apply events_ret].
    apply events_bind; [apply events_emit; exact I|]. intros _.
    apply events_bind; [apply events_getch; intros; exact I|]. intros k.
    destruct (k =? 113); [apply events_ret|].
    apply events_bind; [apply events_hw_macos; intros H; exact H|].
    intros _. apply events_ret.
  - intros quit. destruct quit; [apply events_ret|].
    apply events_bind.
    + clear IH. generalize 0 at 1. revert gidx.
      induction fuel as [|fuel IHl]; intros gidx line; cbn [glyph_lines];
        destruct (line <? 8); try apply events_ret; try apply events_halt.
      apply events_bind; [|intros g; apply IHl].
      unfold glyph_row. destruct (of_gw uf =? 0); [apply events_halt|].
      generalize (Z.to_nat (128 ÷ of_gw uf)). generalize 0 at 1.
      intros i cols. revert i gidx.
      induction cols as [|cols IHc]; intros i gidx; cbn [glyph_cells];
        [apply events_ret|].
      destruct (gidx <? chars fnt); [|apply events_ret].
      apply events_bind; [apply events_hw_macos; intros H; exact H|].
      intros _. apply IHc.
    + intros g. destruct (g <? chars fnt); [apply IH | apply events_ret].
Qed.

Lemma preview_sends_all fuel file fnt v :
  Forall (preview_sends K macos E v)
         (fst (preview K macos E fuel file fnt v)).
Proof.
  unfold preview.
  repeat first
    [ apply events_ret
    | apply events_halt
    | apply pages_sends
    | apply events_getch; intros ?; exact I
    | apply events_bind; [|intros ?]
    | match goal with
      | |- Forall _ (fst (if macos then _ else _)) =>
          destruct macos eqn:?
      | |- Forall _ (fst (if ?b then _ else _)) => destruct b
      end
    | apply events_hw_macos; intros ?; cbn; auto
    | apply events_emit; cbn; auto ].
Qed.

(** The events of a run after the conversion are those of the preview. *)
Lemma main_sends fuel e :
  In e (fst (main K M macos E argv fuel)) ->
  is_display e = true ->
  exists v, parse_options K M argv = ([], Go v) /\
            preview_sends K macos E v e /\
            Z.land (flags v) DISPLAY_FONT <> 0.
Proof.
  intros Hin Hd.
  destruct (Nat.ltb_spec (argc argv) 2) as [Hlt|Hge].
  { unfold main, run in Hin.
    replace (argc argv <? 2)%nat with true in Hin
      by (symmetry; apply Nat.ltb_lt; exact Hlt).
    simpl in Hin.
    pose proof (usage_is_usage_text (basename (nth_error argv 0))) as Hu.
    rewrite Forall_forall in Hu. apply Hu, usage_text_kind in Hin.
    destruct Hin. congruence. }
  assert (Hargc : (argc argv <? 2)%nat = false) by (apply Nat.ltb_ge; lia).
  destruct (parse_options_cases K M argv) as [[v Hv]|Hno].
  - exists v. split; [exact Hv|].
    destruct (main_after_options fuel v Hargc Hv) as (file & _ & Hm).
    rewrite Hm in Hin. cbv zeta in Hin.
    destruct (bdf_convert E file (gmin v) (gmax v) (ascender v) (flags v))
      as [fnt|].
    + destruct (Z.eqb_spec (Z.land (flags v) DISPLAY_FONT) 0) as [H0|H0].
      * destruct Hin as [<-|[]]. discriminate.
      * split; [|exact H0]. destruct Hin as [<-|Hin]; [discriminate|].
        pose proof (preview_sends_all fuel file fnt v) as Hp.
        rewrite Forall_forall in Hp. apply Hp, Hin.
    + destruct Hin as [<-|[<-|[]]]; discriminate.
  - exfalso.
    destruct (main_without_options fuel Hargc) as [Hm|Hm].
    + intros v Hv. destruct Hno as [Hu|Hf]; congruence.
    + rewrite Hm in Hin. simpl in Hin.
      pose proof (usage_is_usage_text (basename (nth_error argv 0))) as Hu.
      rewrite Forall_forall in Hu. apply Hu, usage_text_kind in Hin.
      destruct Hin. congruence.
    + rewrite Hm in Hin. destruct Hin.
Qed.
End MainFacts.

(** *** The option loop, seen from the command line *)

(** X1. When [-?] or [help] is among the arguments, nothing is
    converted: the run prints the usage text and returns 0, unless an
    option before the help word has read past the last argument. *)
Theorem help_never_converts K M macos E argv fuel h :
  In h (tl argv) -> is_help h = true ->
  main K M macos E argv fuel
  = (usage (basename (nth_error argv 0)), Return 0)
  \/ main K M macos E argv fuel = ([], Fault).
Proof.
  intros Hin Hh. apply main_without_options.
  - eapply in_tl_argc, Hin.
  - intros v Hv. eapply parse_options_help; eassumption.
Qed.

Lemma help_never_converts_witness :
  main headers0 LP64 false env0 ["bdfe"; "-r"; "help"; "A.bdf"] 0
  = (usage "bdfe", Return 0)
  \/ main headers0 LP64 false env0 ["bdfe"; "-r"; "help"; "A.bdf"] 0
     = ([], Fault).
Proof.
  apply (help_never_converts headers0 LP64 false env0
           ["bdfe"; "-r"; "help"; "A.bdf"] 0 "help").
  - simpl. right. left. reflexivity.
  - reflexivity.
Defined.

(** X2. When the last argument is an option that reads the argument
    after it (ascender, subset or display, long or short), and the loop
    has a round on it, that is, it is not itself taken as the address of
    a display option before it, nothing is converted: the round on it
    reads [argv[argc]], the null pointer, and the run faults, unless a
    help word has ended it before. *)
Theorem dangling_option_never_converts K M macos E argv fuel w :
  (2 <= argc argv)%nat ->
  nth_error argv (argc argv - 1) = Some w ->
  takes_argument w = true ->
  isxdigit (deref w) = false \/ In (argc argv - 1)%nat (rounds argv) ->
  main K M macos E argv fuel = ([], Fault)
  \/ main K M macos E argv fuel
     = (usage (basename (nth_error argv 0)), Return 0).
Proof.
  intros Hargc Hw Ht Hround.
  assert (Hr : In (argc argv - 1)%nat (rounds argv)).
  { destruct Hround as [Hx|Hr]; [|exact Hr].
    apply (rounds_cover argv _ w); [lia | exact Hw | exact Hx]. }
  destruct (main_without_options K M macos E argv fuel) as [H|H]; auto.
  - apply Nat.ltb_ge. lia.
  - intros v Hv. eapply parse_options_dangling; eassumption.
Qed.

Lemma dangling_option_never_converts_witness :
  main headers0 LP64 false env0 ["bdfe"; "-d"; "display"; "display"] 0
  = ([], Fault)
  \/ main headers0 LP64 false env0 ["bdfe"; "-d"; "display"; "display"] 0
     = (usage "bdfe", Return 0).
Proof.
  apply (dangling_option_never_converts headers0 LP64 false env0
           ["bdfe"; "-d"; "display"; "display"] 0 "display").
  - simpl. lia.
  - reflexivity.
  - reflexivity.
  - right. vm_compute. right. left. reflexivity.
Defined.

(** X3. No flag option is lost: when one of the words of the table of
    flag options is among the arguments, the flags of the conversion
    have its bit, also when the word was taken as the address of a
    display option. *)
Theorem flag_options_reach_conversion
  K M macos E argv fuel s l bit w file lo hi asc fl r :
  In (s, l, bit) (flag_options K) -> w = s \/ w = l ->
  In w (tl argv) ->
  In (bdf_convert_call file lo hi asc fl r)
     (fst (main K M macos E argv fuel)) ->
  Z.land fl bit = bit.
Proof.
  intros Ht Hw Harg Hin.
  destruct (main_conversion K M macos E argv fuel _ _ _ _ _ _ Hin)
    as (v & rest & o & Hv & _ & _ & _ & _ & _ & -> & _).
  eapply parse_options_flag; eassumption.
Qed.

Lemma flag_options_reach_conversion_witness :
  Z.land 2147483680 (BDF_FLIP headers0) = BDF_FLIP headers0.
Proof.
  apply (flag_options_reach_conversion headers0 LP64 false env0
           ["bdfe"; "-d"; "flip"; "A.bdf"] 1
           "-f" "flip" (BDF_FLIP headers0) "flip"
           "A.bdf" 32 126 0 2147483680
           (bdf_convert env0 "A.bdf" 32 126 0 2147483680)).
  - simpl. do 6 right. left. reflexivity.
  - right. reflexivity.
  - simpl. right. left. reflexivity.
  - vm_compute. left. reflexivity.
Defined.

(** X4. The display is initialized upside down exactly when [-u] or
    [updown] is among the arguments: [ossd_init] gets [OSSD_UPDOWN] as
    a [uint8_t] then, and 0 otherwise. *)
Theorem orientation_follows_updown K M macos E argv fuel o :
  In (ossd_init o) (fst (main K M macos E argv fuel)) ->
  o = if existsb is_updown (tl argv)
      then to_uint8 (OSSD_UPDOWN K) else 0.
Proof.
  intros Hin.
  destruct (main_sends K M macos E argv fuel _ Hin eq_refl)
    as (v & Hv & (_ & ->) & _).
  destruct (existsb is_updown (tl argv)) eqn:Hex.
  - apply existsb_exists in Hex. destruct Hex as (u & Hu & Hup).
    eapply parse_options_updown; eassumption.
  - eapply parse_options_no_updown; [|exact Hv].
    intros s Hs. destruct (is_updown s) eqn:Hup; [|reflexivity].
    assert (existsb is_updown (tl argv) = true)
      by (apply existsb_exists; exists s; auto).
    congruence.
Qed.

Lemma orientation_follows_updown_witness :
  1 = if existsb is_updown (tl ["bdfe"; "updown"; "-d"; "3C"; "A.bdf"])
      then to_uint8 (OSSD_UPDOWN headers0) else 0.
Proof.
  apply (orientation_follows_updown headers0 LP64 false env0
           ["bdfe"; "updown"; "-d"; "3C"; "A.bdf"] 1 1).
  vm_compute. do 3 right. left. reflexivity.
Defined.

(** X5. The I2C address that is selected is the bus address of a
    device, between 1 and 119 (0x77): the default 0x3C, or a
    hexadecimal argument of the display option in that range; an
    argument out of the range leaves the address as it was. *)
Theorem i2c_address_is_valid K M macos E argv fuel b a :
  In (pi2c_select b a) (fst (main K M macos E argv fuel)) ->
  b = PI2C_BUS K /\ 0 < a < 120.
Proof.
  intros Hin.
  destruct (main_sends K M macos E argv fuel _ Hin eq_refl)
    as (v & Hv & (_ & -> & ->) & _).
  split; [reflexivity|]. eapply parse_options_address, Hv.
Qed.

Lemma i2c_address_is_valid_witness :
  1 = PI2C_BUS headers0 /\ 0 < 60 < 120.
Proof.
  apply (i2c_address_is_valid headers0 LP64 false env0
           ["bdfe"; "-d"; "FF"; "A.bdf"] 1 1 60).
  vm_compute. do 2 right. left. reflexivity.
Defined.

(** X6. Without a display option, and with the seven flags of bdf.h
    below the bit of [DISPLAY_FONT], a successful conversion is all that
    happens: [main] returns 0 right after the call. *)
Theorem no_display_without_option
  K M macos E argv fuel file lo hi asc fl fnt :
  flags_below_display K ->
  (forall s, In s (tl argv) -> is_display_option s = false) ->
  In (bdf_convert_call file lo hi asc fl (Some fnt))
     (fst (main K M macos E argv fuel)) ->
  main K M macos E argv fuel
  = ([bdf_convert_call file lo hi asc fl (Some fnt)], Return 0).
Proof.
  intros HK Hno Hin.
  destruct (main_conversion K M macos E argv fuel _ _ _ _ _ _ Hin)
    as (v & rest & o & Hv & Hargc & Hfile & -> & -> & -> & -> & Hr & _).
  assert (Hlt : (argc argv <? 2)%nat = false) by (apply Nat.ltb_ge; lia).
  destruct (main_after_options K M macos E argv fuel v Hlt Hv)
    as (file' & Hfile' & Hm).
  rewrite Hfile in Hfile'. inversion Hfile'. subst file'.
  rewrite Hm. cbv zeta. rewrite <- Hr.
  rewrite (parse_options_no_display K M argv v HK Hno Hv). reflexivity.
Qed.

Lemma no_display_without_option_witness :
  main headers0 LP64 false env0 ["bdfe"; "-r"; "A.bdf"] 0
  = ([bdf_convert_call "A.bdf" 32 126 0 16
        (Some {| gw := 8; bpg := 8; chars := 1;
                 font := [0; 0; 0; 126; 0; 0; 0; 0] |})],
     Return 0).
Proof.
  apply (no_display_without_option headers0 LP64 false env0
           ["bdfe"; "-r"; "A.bdf"] 0 "A.bdf" 32 126 0 16).
  - repeat constructor.
  - intros s Hs. simpl in Hs.
    destruct Hs as [<-|[<-|[]]]; reflexivity.
  - vm_compute. left. reflexivity.
Defined.

(** X7. A build with [__MACOS_X__] never touches the I2C bus or the
    display, whatever the arguments. *)
Theorem macos_build_has_no_display K M E argv fuel e :
  In e (fst (main K M true E argv fuel)) -> is_display e = false.
Proof.
  intros Hin. destruct (is_display e) eqn:Hd; [|reflexivity].
  destruct (main_sends K M true E argv fuel _ Hin Hd) as (v & _ & Hs & _).
  destruct e; try discriminate; simpl in Hs;
    try discriminate; destruct Hs; discriminate.
Qed.

Lemma macos_build_has_no_display_witness :
  is_display (stdin_getch (-1) 113) = false.
Proof.
  apply (macos_build_has_no_display headers0 LP64 env0
           ["bdfe"; "-d"; "3C"; "A.bdf"] 1).
  vm_compute. do 3 right. left. reflexivity.
Defined.

(** *** How the preview ends *)

Lemma fst_bind {X Y : Type} (m : io X) (k : X -> io Y) :
  fst (bind m k) =
  fst m ++ match snd m with
           | Go x => fst (k x)
           | Halt _ => []
           end.
Proof.
  unfold bind. destruct m as [es [x|o]]; simpl.
  - destruct (k x). reflexivity.
  - rewrite app_nil_r. reflexivity.
Qed.

(** A computation that does not return from [main] in the middle. *)
Lemma no_return_bind {X Y : Type} (m : io X) (k : X -> io Y) :
  (forall code, snd m <> Halt (Return code)) ->
  (forall x code, snd (k x) <> Halt (Return code)) ->
  forall code, snd (bind m k) <> Halt (Return code).
Proof.
  intros Hm Hk code. rewrite snd_bind.
  destruct (snd m) as [x|o] eqn:Hs; [apply Hk|].
  intros H. inversion H. subst. apply (Hm code). reflexivity.
Qed.

Lemma ends_bind {X Y : Type} (m : io X) (k : X -> io Y) tail :
  (forall x c, snd (k x) = Go c -> exists pre, fst (k x) = pre ++ tail) ->
  forall c, snd (bind m k) = Go c ->
            exists pre, fst (bind m k) = pre ++ tail.
Proof.
  intros Hk c. rewrite snd_bind, fst_bind.
  destruct (snd m) as [x|o]; [|discriminate].
  intros Hc. destruct (Hk x c Hc) as (pre & ->).
  exists (fst m ++ pre). rewrite app_assoc. reflexivity.
Qed.

Section PreviewOutcome.
Variable K : headers.
Variable macos : bool.
Variable E : env.

Lemma glyph_lines_no_return fnt uf gh fuel line gidx code :
  snd (glyph_lines macos fnt uf gh fuel line gidx) <> Halt (Return code).
Proof.
  revert line gidx code.
  induction fuel as [|fuel IH]; intros line gidx code;
    cbn [glyph_lines]; destruct (line <? 8); try discriminate.
  apply no_return_bind; [|intros g c; apply IH].
  intros c. unfold glyph_row. destruct (of_gw uf =? 0); [discriminate|].
  generalize (Z.to_nat (128 ÷ of_gw uf)). generalize 0 at 1.
  intros i cols. revert i gidx.
  induction cols as [|cols IHc]; intros i gidx; cbn [glyph_cells];
    [discriminate|].
  destruct (gidx <? chars fnt); [|discriminate].
  rewrite snd_bind, snd_hw. apply IHc.
Qed.

Lemma pages_no_return fnt uf gh fuel gidx nkey code :
  snd (pages macos E fnt uf gh fuel gidx nkey) <> Halt (Return code).
Proof.
  revert gidx nkey code.
  induction fuel as [|fuel IH]; intros gidx nkey code;
    cbn [pages]; [discriminate|].
  apply no_return_bind.
  - intros c. destruct (0 <? gidx); [|discriminate].
    rewrite snd_bind. cbn [emit snd]. rewrite snd_bind, snd_getch.
    destruct (stdin_keys E nkey =? 113); [discriminate|].
    rewrite snd_bind, snd_hw. discriminate.
  - intros quit c. destruct quit; [discriminate|].
    apply no_return_bind; [intros c'; apply glyph_lines_no_return|].
    intros g c'. destruct (g <? chars fnt); [apply IH | discriminate].
Qed.

(** The end of the preview, label [exit] of line 233. *)
Lemma preview_exit fuel file fnt v :
  (forall code,
      snd (preview K macos E fuel file fnt v) = Go code ->
      code = 0 /\
      exists pre,
        fst (preview K macos E fuel file fnt v)
        = pre ++ stdin_mode (TERM_MODE_CAN K)
              :: (if macos then [] else [pi2c_close (PI2C_BUS K)]))
  /\ (forall code,
         snd (preview K macos E fuel file fnt v) = Halt (Return code) ->
         macos = false /\ pi2c_open_result E < 0 /\ code = -1 /\
         fst (preview K macos E fuel file fnt v)
         = [pi2c_open (PI2C_BUS K) (pi2c_open_result E);
            fprintf_stderr ("Unable to open i2c bus "
                            ++ decimal (PI2C_BUS K) ++ LF)%string]).
Proof.
  unfold preview.
  set (tail := stdin_mode (TERM_MODE_CAN K)
                 :: (if macos then [] else [pi2c_close (PI2C_BUS K)])).
  set (rest := bind (hw macos (ossd_init (orientation v))) _).
  assert (Hrest_go : forall c, snd rest = Go c ->
                               c = 0 /\ exists pre, fst rest = pre ++ tail).
  { intros c Hc. split.
    - revert Hc. unfold rest.
      repeat first
        [ rewrite snd_bind | rewrite snd_hw | rewrite snd_getch
        | progress cbn [emit ret halt snd]
        | match goal with
          | |- context [if ?b then _ else _] => destruct b
          | |- context [match snd ?m with _ => _ end] => destruct (snd m)
          end ]; congruence.
    - revert c Hc. unfold rest.
      do 3 (apply ends_bind; intros _).
      intros c. destruct (_ <=? _)%nat; [discriminate|]. revert c.
      do 4 (apply ends_bind; intros _).
      apply ends_bind. intros k c. rewrite snd_bind, fst_bind.
      match goal with
      | |- context [snd ?m] => destruct (snd m); [|discriminate]
      end.
      intros _. eexists. f_equal. unfold tail, hw, emit, ret, bind.
      destruct macos; reflexivity. }
  assert (Hrest_ret : forall c, snd rest <> Halt (Return c)).
  { unfold rest.
    repeat first
      [ apply no_return_bind; [intros ?|intros ? ?]
      | rewrite snd_hw | rewrite snd_getch
      | apply pages_no_return
      | match goal with
        | |- context [if ?b then _ else _] => destruct b
        end
      | discriminate ]. }
  clearbody rest.
  destruct macos.
  - rewrite bind_ret_l. split; [exact Hrest_go|].
    intros c Hc. destruct (Hrest_ret c Hc).
  - destruct (Z.ltb_spec (pi2c_open_result E) 0) as [Hneg|Hok].
    + cbn. split; [discriminate|]. intros c Hc. inversion Hc. auto.
    + split.
      * intros c. rewrite snd_bind, fst_bind. cbn [emit bind snd fst].
        intros Hc. destruct (Hrest_go c Hc) as (-> & pre & ->).
        split; [reflexivity|]. eexists. rewrite app_assoc. reflexivity.
      * intros c. rewrite snd_bind. cbn [emit bind snd fst].
        intros Hc. destruct (Hrest_ret c Hc).
Qed.
End PreviewOutcome.

(** A run with an event of the display, the bus or the terminal is a run
    of the preview. *)
Lemma main_preview K M macos E argv fuel e :
  In e (fst (main K M macos E argv fuel)) ->
  is_display e = true \/ (exists m, e = stdin_mode m) ->
  exists v file fnt,
    main K M macos E argv fuel =
    (bdf_convert_call file (gmin v) (gmax v) (ascender v) (flags v)
       (Some fnt) :: fst (preview K macos E fuel file fnt v),
     match snd (preview K macos E fuel file fnt v) with
     | Go code => Return code
     | Halt o => o
     end) /\
    In e (fst (preview K macos E fuel file fnt v)).
Proof.
  intros Hin He.
  assert (Hkind : is_usage_text e = false /\ is_conversion e = false /\
                  forall s, e <> fprintf_stderr s).
  { destruct He as [He|(m & ->)]; [|repeat split; discriminate].
    destruct e; try discriminate; repeat split; discriminate. }
  destruct Hkind as (Hnu & Hnc & Hns).
  assert (Husage : forall name, ~ In e (usage name)).
  { intros name Hu.
    pose proof (usage_is_usage_text name) as HU.
    rewrite Forall_forall in HU. apply HU in Hu. congruence. }
  destruct (Nat.ltb_spec (argc argv) 2) as [Hlt|Hge].
  { exfalso. unfold main, run in Hin.
    replace (argc argv <? 2)%nat with true in Hin
      by (symmetry; apply Nat.ltb_lt; exact Hlt).
    apply (Husage _ Hin). }
  assert (Hargc : (argc argv <? 2)%nat = false) by (apply Nat.ltb_ge; lia).
  destruct (parse_options_cases K M argv) as [[v Hv]|Hno].
  - destruct (main_after_options K M macos E argv fuel v Hargc Hv)
      as (file & _ & Hm).
    rewrite Hm in Hin |- *. cbv zeta in Hin |- *.
    destruct (bdf_convert E file (gmin v) (gmax v) (ascender v) (flags v))
      as [fnt|].
    + destruct (Z.land (flags v) DISPLAY_FONT =? 0).
      * exfalso. destruct Hin as [<-|[]]. discriminate.
      * exists v, file, fnt. split; [reflexivity|].
        destruct Hin as [<-|Hin]; [discriminate | exact Hin].
    + exfalso. destruct Hin as [<-|[<-|[]]];
        [discriminate | eapply Hns; reflexivity].
  - exfalso.
    destruct (main_without_options K M macos E argv fuel Hargc) as [Hm|Hm].
    + intros v Hv. destruct Hno as [Hu|Hf]; congruence.
    + rewrite Hm in Hin. apply (Husage _ Hin).
    + rewrite Hm in Hin. destruct Hin.
Qed.

(** X8. When the I2C bus cannot be opened ([pi2c_open] returns a
    negative value), the run reports it on standard error and returns
    -1: after the conversion there is the call of [pi2c_open] and the
    report, and the display is not initialized. *)
Theorem i2c_open_failure_stops K M macos E argv fuel b r :
  In (pi2c_open b r) (fst (main K M macos E argv fuel)) -> r < 0 ->
  exists c,
    is_conversion c = true /\
    main K M macos E argv fuel =
    ([c; pi2c_open b r;
      fprintf_stderr ("Unable to open i2c bus " ++ decimal b ++ LF)%string],
     Return (-1)).
Proof.
  intros Hin Hneg.
  destruct (main_preview K M macos E argv fuel _ Hin (or_introl eq_refl))
    as (v & file & fnt & Hm & Hp).
  pose proof (preview_sends_all K macos E fuel file fnt v) as Hs.
  rewrite Forall_forall in Hs. destruct (Hs _ Hp) as (Hmac & -> & ->).
  exists (bdf_convert_call file (gmin v) (gmax v) (ascender v) (flags v)
            (Some fnt)).
  split; [reflexivity|]. rewrite Hm. subst macos. unfold preview.
  replace (pi2c_open_result E <? 0) with true
    by (symmetry; apply Z.ltb_lt; exact Hneg).
  reflexivity.
Qed.

(** X9. The terminal is given back: when a run that has set a terminal
    mode returns, it returns 0, and its last events are
    [stdin_mode(TERM_MODE_CAN)] and, unless [__MACOS_X__] is defined,
    [pi2c_close]; so it is whether the preview was quit with [q] or
    went through all its pages. *)
Theorem terminal_is_restored K M macos E argv fuel m code :
  In (stdin_mode m) (fst (main K M macos E argv fuel)) ->
  snd (main K M macos E argv fuel) = Return code ->
  code = 0 /\
  exists pre,
    fst (main K M macos E argv fuel)
    = pre ++ stdin_mode (TERM_MODE_CAN K)
          :: (if macos then [] else [pi2c_close (PI2C_BUS K)]).
Proof.
  intros Hin Hret.
  destruct (main_preview K M macos E argv fuel _ Hin
              (or_intror (ex_intro _ m eq_refl)))
    as (v & file & fnt & Hm & Hp).
  rewrite Hm in Hret |- *. cbn [fst snd] in Hret |- *.
  destruct (preview_exit K macos E fuel file fnt v) as [Hgo Hhalt].
  destruct (snd (preview K macos E fuel file fnt v)) as [c|o] eqn:Hs.
  - inversion Hret. subst c.
    destruct (Hgo code eq_refl) as (-> & pre & ->).
    split; [reflexivity|]. eexists (_ :: pre). reflexivity.
  - exfalso. subst o.
    destruct (Hhalt code eq_refl) as (_ & _ & _ & Hev).
    rewrite Hev in Hp. destruct Hp as [Hp|[Hp|[]]]; discriminate.
Qed.

Lemma i2c_open_failure_stops_witness :
  exists c,
    is_conversion c = true /\
    main headers0 LP64 false (env_with (font_of 8 3) (-1) 32)
         ["bdfe"; "-d"; "A.bdf"] 1 =
    ([c; pi2c_open 1 (-1);
      fprintf_stderr ("Unable to open i2c bus " ++ decimal 1 ++ LF)%string],
     Return (-1)).
Proof.
  apply (i2c_open_failure_stops headers0 LP64 false
           (env_with (font_of 8 3) (-1) 32) ["bdfe"; "-d"; "A.bdf"] 1).
  - vm_compute. right. left. reflexivity.
  - lia.
Defined.

Lemma terminal_is_restored_witness :
  0 = 0 /\
  exists pre,
    fst (main headers0 LP64 false (env_with (font_of 8 300) 0 32)
           ["bdfe"; "-d"; "A.bdf"] 12)
    = pre ++ [stdin_mode (TERM_MODE_CAN headers0);
              pi2c_close (PI2C_BUS headers0)].
Proof.
  apply (terminal_is_restored headers0 LP64 false
           (env_with (font_of 8 300) 0 32) ["bdfe"; "-d"; "A.bdf"] 12
           (TERM_MODE_RAW headers0) 0).
  - vm_compute. do 8 right. left. reflexivity.
  - vm_compute. reflexivity.
Defined.

(** *** What the preview draws *)

Lemma cells_app a b : cells (a ++ b) = cells a ++ cells b.
Proof. unfold cells. apply flat_map_app. Qed.

Lemma glyph_chars_app go g n1 n2 :
  glyph_chars go g (n1 + n2) =
  glyph_chars go g n1 ++ glyph_chars go (g + Z.of_nat n1) n2.
Proof.
  revert g. induction n1 as [|n1 IH]; intros g.
  - simpl. rewrite Z.add_0_r. reflexivity.
  - cbn [glyph_chars Nat.add app]. rewrite IH. do 3 f_equal. lia.
Qed.

Section Cells.
Variable macos : bool.
Variable E : env.
Variable fnt : bdfe_t.
Variable uf : ossd_font_t.
Variable gh : Z.
Hypothesis chars_fit : 0 <= chars fnt < 2 ^ 32.
Hypothesis width_pos : 0 <= of_gw uf.

Lemma drawn_app go g n1 n2 :
  drawn macos go g (n1 + n2)
  = drawn macos go g n1 ++ drawn macos go (g + Z.of_nat n1) n2.
Proof.
  unfold drawn. destruct macos; [reflexivity|]. apply glyph_chars_app.
Qed.

(** One row: the glyphs from [g] on, one cell each, at the columns
    [i*gw], [(i+1)*gw], ..., until the row or the font is at its end. *)
Lemma glyph_cells_draw cols i line g :
  0 <= g -> 0 <= i ->
  exists n,
    (n <= cols)%nat /\
    snd (glyph_cells macos fnt uf cols i line g) = Go (g + Z.of_nat n) /\
    g + Z.of_nat n <= Z.max g (chars fnt) /\
    map snd (cells (fst (glyph_cells macos fnt uf cols i line g)))
    = drawn macos (of_go uf) g n /\
    Forall (fun c => fst (fst c) = line /\
                     0 <= snd (fst c) /\
                     snd (fst c) + of_gw uf
                     <= (i + Z.of_nat cols) * of_gw uf)
           (cells (fst (glyph_cells macos fnt uf cols i line g))).
Proof.
  revert i g. induction cols as [|cols IH]; intros i g Hg Hi;
    cbn [glyph_cells].
  - exists 0%nat. unfold drawn. destruct macos; repeat split; simpl;
      try constructor; try lia; f_equal; lia.
  - destruct (Z.ltb_spec g (chars fnt)) as [Hlt|Hge].
    2:{ exists 0%nat. unfold drawn.
        destruct macos; repeat split; simpl;
          try constructor; try lia; f_equal; lia. }
    assert (Hw : to_unsigned (g + 1) = g + 1)
      by (unfold to_unsigned; apply Z.mod_small; lia).
    rewrite Hw.
    destruct (IH (i + 1) (g + 1)) as (n & Hn & Hgo & Hmax & Htext & Hpos);
      try lia.
    exists (S n). rewrite snd_bind, snd_hw, fst_bind, snd_hw, cells_app,
      map_app, Htext.
    split; [lia|]. split; [rewrite Hgo; f_equal; lia|]. split; [lia|].
    split.
    + change (S n) with (1 + n)%nat. rewrite drawn_app.
      replace (g + Z.of_nat 1) with (g + 1) by lia. f_equal.
      unfold hw, drawn. destruct macos; [reflexivity|].
      cbn. replace (0 <=? i * of_gw uf) with true
        by (symmetry; apply Z.leb_le; nia).
      reflexivity.
    + apply Forall_app. split.
      * unfold hw. destruct macos; [constructor|]. cbn.
        destruct (Z.leb_spec 0 (i * of_gw uf)); constructor;
          [|constructor]. cbn. repeat split; nia.
      * eapply Forall_impl; [|exact Hpos]. cbn. intros c (H1 & H2 & H3).
        repeat split; nia.
Qed.

Lemma glyph_row_draw line g :
  0 <= g ->
  (snd (glyph_row macos fnt uf line g) = Halt Fault /\
   fst (glyph_row macos fnt uf line g) = [] /\ of_gw uf = 0) \/
  exists n,
    snd (glyph_row macos fnt uf line g) = Go (g + Z.of_nat n) /\
    g + Z.of_nat n <= Z.max g (chars fnt) /\
    map snd (cells (fst (glyph_row macos fnt uf line g)))
    = drawn macos (of_go uf) g n /\
    Forall (fun c => fst (fst c) = line /\
                     0 <= snd (fst c) /\ snd (fst c) + of_gw uf <= 128)
           (cells (fst (glyph_row macos fnt uf line g))).
Proof.
  intros Hg. unfold glyph_row.
  destruct (Z.eqb_spec (of_gw uf) 0) as [H0|H0]; [left; auto|].
  right.
  destruct (glyph_cells_draw (Z.to_nat (128 ÷ of_gw uf)) 0 line g Hg)
    as (n & _ & Hgo & Hmax & Htext & Hpos); [lia|].
  exists n. repeat split; try assumption.
  eapply Forall_impl; [|exact Hpos]. cbn. intros c (H1 & H2 & H3).
  repeat split; try assumption.
  assert (Hq : 0 <= 128 ÷ of_gw uf) by (apply Z.quot_pos; lia).
  rewrite Z2Nat.id in H3 by exact Hq.
  rewrite Z.quot_div_nonneg in H3 by lia.
  pose proof (Z.mul_div_le 128 (of_gw uf)). nia.
Qed.

Lemma cells_bind_quiet {X Y : Type} (m : io X) (k : X -> io Y) :
  cells (fst m) = [] ->
  cells (fst (bind m k)) =
  match snd m with
  | Go x => cells (fst (k x))
  | Halt _ => []
  end.
Proof.
  intros Hm. rewrite fst_bind, cells_app, Hm.
  destruct (snd m); reflexivity.
Qed.

Lemma cells_hw_quiet e : cell e = [] -> cells (fst (hw macos e)) = [].
Proof.
  intros He. unfold hw. destruct macos; [reflexivity|]. cbn.
  rewrite He. reflexivity.
Qed.

(** The rows of one page. *)
Lemma glyph_lines_draw fuel line g :
  0 <= g -> 0 <= line -> 0 <= gh ->
  exists n,
    map snd (cells (fst (glyph_lines macos fnt uf gh fuel line g)))
    = drawn macos (of_go uf) g n /\
    g + Z.of_nat n <= Z.max g (chars fnt) /\
    (forall g', snd (glyph_lines macos fnt uf gh fuel line g) = Go g' ->
                g' = g + Z.of_nat n) /\
    Forall (fun c => 0 <= fst (fst c) < 8 /\
                     0 <= snd (fst c) /\ snd (fst c) + of_gw uf <= 128)
           (cells (fst (glyph_lines macos fnt uf gh fuel line g))).
Proof.
  revert line g. induction fuel as [|fuel IH]; intros line g Hg Hl Hgh;
    cbn [glyph_lines]; destruct (Z.ltb_spec line 8) as [Hlt|Hge];
    try (exists 0%nat; unfold drawn; destruct macos;
         repeat split; simpl; try constructor; try lia;
         try discriminate; intros g' Hg'; inversion Hg'; lia).
  rewrite fst_bind, snd_bind.
  destruct (glyph_row_draw line g Hg)
    as [(Hs & He & _)|(n1 & Hs & Hmax1 & Htext1 & Hpos1)].
  - rewrite Hs, He. exists 0%nat. unfold drawn.
    destruct macos; repeat split; simpl; try constructor; try lia;
      discriminate.
  - rewrite Hs.
    destruct (IH (line + gh) (g + Z.of_nat n1))
      as (n2 & Htext2 & Hmax2 & Hgo2 & Hpos2); try lia.
    exists (n1 + n2)%nat. rewrite cells_app, map_app, Htext1, Htext2.
    split; [symmetry; apply drawn_app|]. split; [lia|]. split.
    + intros g' Hg'. rewrite (Hgo2 g' Hg'). lia.
    + apply Forall_app. split; [|exact Hpos2].
      eapply Forall_impl; [|exact Hpos1]. cbn. intros c (H1 & H2 & H3).
      repeat split; lia.
Qed.

(** The pages: the glyphs are drawn one after the other from [g] on,
    none is left out and none comes twice; and when the loop is over and
    no key was [q], all glyphs of the font have been drawn. *)
Lemma pages_draw fuel g nkey :
  0 <= g -> 0 <= gh ->
  exists n,
    map snd (cells (fst (pages macos E fnt uf gh fuel g nkey)))
    = drawn macos (of_go uf) g n /\
    g + Z.of_nat n <= Z.max g (chars fnt) /\
    (snd (pages macos E fnt uf gh fuel g nkey) = Go tt ->
     (forall k, stdin_keys E k <> 113) ->
     chars fnt <= g + Z.of_nat n) /\
    Forall (fun c => 0 <= fst (fst c) < 8 /\
                     0 <= snd (fst c) /\ snd (fst c) + of_gw uf <= 128)
           (cells (fst (pages macos E fnt uf gh fuel g nkey))).
Proof.
  revert g nkey. induction fuel as [|fuel IH]; intros g nkey Hg Hgh;
    cbn [pages].
  - exists 0%nat. unfold drawn. destruct macos; repeat split; simpl;
      try constructor; try lia; discriminate.
  - set (ask := if 0 <? g then _ else _).
    assert (Hask : cells (fst ask) = [] /\
                   exists q, snd ask = Go q /\
                             (q = true -> stdin_keys E nkey = 113)).
    { unfold ask. destruct (0 <? g).
      - rewrite fst_bind, snd_bind. cbn [emit fst snd].
        rewrite fst_bind, snd_bind, snd_getch. cbn [getch].
        destruct (Z.eqb_spec (stdin_keys E nkey) 113) as [Hq|Hq].
        + split; [reflexivity|]. exists true. auto.
        + split.
          * rewrite fst_bind, snd_hw. unfold hw. destruct macos; reflexivity.
          * exists false. rewrite snd_bind, snd_hw.
            split; [reflexivity | discriminate].
      - split; [reflexivity|]. exists false.
        split; [reflexivity | discriminate]. }
    destruct Hask as (Hquiet & q & Hq & Hkey).
    rewrite (cells_bind_quiet _ _ Hquiet), snd_bind, Hq.
    destruct q.
    + exists 0%nat. unfold drawn. destruct macos; repeat split; simpl;
        try constructor; try lia;
        intros _ Hno; destruct (Hno nkey (Hkey eq_refl)).
    + rewrite fst_bind, snd_bind.
      destruct (glyph_lines_draw fuel 0 g Hg (Z.le_refl 0) Hgh)
        as (n1 & Htext1 & Hmax1 & Hgo1 & Hpos1).
      destruct (snd (glyph_lines macos fnt uf gh fuel 0 g)) as [g'|o]
        eqn:Hs.
      * rewrite (Hgo1 g' eq_refl).
        destruct (Z.ltb_spec (g + Z.of_nat n1) (chars fnt)) as [Hmore|Hdone].
        -- destruct (IH (g + Z.of_nat n1)
                        (if 0 <? g then S nkey else nkey))
             as (n2 & Htext2 & Hmax2 & Hall2 & Hpos2); try lia.
           exists (n1 + n2)%nat.
           rewrite cells_app, map_app, Htext1, Htext2.
           split; [symmetry; apply drawn_app|]. split; [lia|]. split.
           ++ intros Hgo Hno. specialize (Hall2 Hgo Hno). lia.
           ++ apply Forall_app. split; assumption.
        -- exists n1. cbn [ret fst]. rewrite app_nil_r.
           repeat split; try assumption; lia.
      * exists n1. rewrite app_nil_r.
        repeat split; try assumption; discriminate.
Qed.
End Cells.

(** The cells of the preview are those of its pages, if it gets to
    them. *)
Lemma preview_cells K macos E fuel file fnt v :
  (cells (fst (preview K macos E fuel file fnt v)) = [] /\
   forall code, snd (preview K macos E fuel file fnt v) = Go code ->
                stdin_keys E 0 = 113)
  \/ (cells (fst (preview K macos E fuel file fnt v))
      = cells (fst (pages macos E fnt (user_font K fnt v)
                      ((of_gh (user_font K fnt v) + 7) ÷ 8) fuel 0 1)) /\
      forall code, snd (preview K macos E fuel file fnt v) = Go code ->
                   snd (pages macos E fnt (user_font K fnt v)
                          ((of_gh (user_font K fnt v) + 7) ÷ 8) fuel 0 1)
                   = Go tt).
Proof.
  unfold preview.
  set (P := pages macos E fnt (user_font K fnt v) _ fuel 0 1).
  clearbody P.
  repeat first
    [ rewrite cells_bind_quiet
        by first [ apply cells_hw_quiet; reflexivity
                 | reflexivity
                 | destruct macos; reflexivity ]
    | rewrite snd_bind
    | rewrite snd_hw
    | rewrite snd_getch
    | progress cbn [emit ret halt snd fst]
    | match goal with
      | |- context [if macos then _ else _] => destruct macos
      | |- context [if ?b then _ else _] => destruct b eqn:?
      end ];
    try (left; split; [reflexivity | intros; discriminate]);
    try (left; split; [reflexivity|]; intros _ _;
         apply Z.eqb_eq; assumption).
  all: right; rewrite ?fst_bind, ?snd_bind, ?cells_app;
    destruct P as [es [[]|o]]; cbn; rewrite ?cells_app; cbn;
    rewrite ?app_nil_r;
    (split; [reflexivity|]); intros; first [reflexivity | discriminate].
Qed.

(** The cells of a run that has converted a font. *)
Lemma main_cells K M macos E argv fuel file lo hi asc fl fnt :
  In (bdf_convert_call file lo hi asc fl (Some fnt))
     (fst (main K M macos E argv fuel)) ->
  exists v,
    lo = gmin v /\ fl = flags v /\
    ((Z.land fl DISPLAY_FONT = 0 /\
      cells (fst (main K M macos E argv fuel)) = []) \/
     (Z.land fl DISPLAY_FONT <> 0 /\
      cells (fst (main K M macos E argv fuel))
      = cells (fst (preview K macos E fuel file fnt v)) /\
      snd (main K M macos E argv fuel)
      = match snd (preview K macos E fuel file fnt v) with
        | Go code => Return code
        | Halt o => o
        end)).
Proof.
  intros Hin.
  destruct (main_conversion K M macos E argv fuel _ _ _ _ _ _ Hin)
    as (v & rest & o & Hv & Hargc & Hfile & -> & -> & -> & -> & Hr & _).
  assert (Hlt : (argc argv <? 2)%nat = false) by (apply Nat.ltb_ge; lia).
  destruct (main_after_options K M macos E argv fuel v Hlt Hv)
    as (file' & Hfile' & Hm).
  rewrite Hfile in Hfile'. inversion Hfile'. subst file'.
  exists v. split; [reflexivity|]. split; [reflexivity|].
  rewrite Hm. cbv zeta. rewrite <- Hr.
  destruct (Z.eqb_spec (Z.land (flags v) DISPLAY_FONT) 0) as [H0|H0].
  - left. split; [exact H0 | reflexivity].
  - right. split; [exact H0|]. split; reflexivity.
Qed.

(** X10. The preview draws the glyphs of the font in order, each one
    once, as the characters [0 + of.go], [1 + of.go], ...: none is left
    out and none comes twice.  When the display was asked for, no key
    typed is [q] and [main] returns 0, every glyph of the font has been
    drawn. *)
Theorem preview_draws_glyphs_in_order
  K M macos E argv fuel file lo hi asc fl fnt :
  In (bdf_convert_call file lo hi asc fl (Some fnt))
     (fst (main K M macos E argv fuel)) ->
  0 <= chars fnt < 2 ^ 32 ->
  0 <= ossd_dim K (gw fnt) -> 0 <= ossd_dim K (bpg fnt) ->
  exists n,
    map snd (cells (fst (main K M macos E argv fuel)))
    = drawn macos (to_uint8 lo) 0 n /\
    Z.of_nat n <= chars fnt /\
    (Z.land fl DISPLAY_FONT <> 0 ->
     (forall k, stdin_keys E k <> 113) ->
     snd (main K M macos E argv fuel) = Return 0 ->
     Z.of_nat n = chars fnt).
Proof.
  intros Hin Hc Hw Hh.
  destruct (main_cells K M macos E argv fuel _ _ _ _ _ _ Hin)
    as (v & -> & -> & [(H0 & Hcells)|(H0 & Hcells & Hret)]).
  - exists 0%nat. rewrite Hcells. unfold drawn.
    destruct macos; repeat split; try reflexivity; try lia; congruence.
  - rewrite Hcells.
    assert (Hgh : 0 <= (of_gh (user_font K fnt v) + 7) ÷ 8)
      by (apply Z.quot_pos; cbn; lia).
    destruct (pages_draw macos E fnt (user_font K fnt v)
                ((of_gh (user_font K fnt v) + 7) ÷ 8) Hc Hw
                fuel 0 1 (Z.le_refl 0) Hgh)
      as (n & Htext & Hmax & Hall & _).
    destruct (preview_cells K macos E fuel file fnt v)
      as [(Hq & Hkey)|(Hp & Hgo)]; rewrite ?Hq, ?Hp.
    + exists 0%nat.
      split; [unfold drawn; destruct macos; reflexivity|].
      split; [lia|].
      intros _ Hno Hr. rewrite Hret in Hr.
      destruct (snd (preview K macos E fuel file fnt v)) as [c|o] eqn:Hs.
      * destruct (Hno 0%nat (Hkey _ eq_refl)).
      * rewrite Hr in Hs.
        destruct (preview_exit K macos E fuel file fnt v) as [_ Hh'].
        destruct (Hh' _ Hs) as (_ & _ & ? & _). lia.
    + exists n. split; [exact Htext|]. split; [lia|].
      intros _ Hno Hr. rewrite Hret in Hr.
      destruct (snd (preview K macos E fuel file fnt v)) as [c|o] eqn:Hs.
      * specialize (Hall (Hgo _ eq_refl) Hno). lia.
      * rewrite Hr in Hs.
        destruct (preview_exit K macos E fuel file fnt v) as [_ Hh'].
        destruct (Hh' _ Hs) as (_ & _ & ? & _). lia.
Qed.

Lemma preview_draws_glyphs_in_order_witness :
  exists n,
    map snd (cells (fst (main headers0 LP64 false
                           (env_with (font_of 8 300) 0 32)
                           ["bdfe"; "-d"; "A.bdf"] 12)))
    = drawn false (to_uint8 32) 0 n /\
    Z.of_nat n <= 300 /\
    (Z.land 2147483648 DISPLAY_FONT <> 0 ->
     (forall k : nat, 32 <> 113) ->
     snd (main headers0 LP64 false (env_with (font_of 8 300) 0 32)
            ["bdfe"; "-d"; "A.bdf"] 12) = Return 0 ->
     Z.of_nat n = 300).
Proof.
  apply (preview_draws_glyphs_in_order headers0 LP64 false
           (env_with (font_of 8 300) 0 32) ["bdfe"; "-d"; "A.bdf"] 12
           "A.bdf" 32 126 0 2147483648 (font_of 8 300)).
  - vm_compute. left. reflexivity.
  - vm_compute. split; congruence.
  - vm_compute. congruence.
  - vm_compute. congruence.
Defined.

(** X11. Every glyph that the preview draws lies on the display of 8
    lines by 128 columns: its line is between 0 and 7, and its column
    and width stay within 128. *)
Theorem preview_draws_within_display
  K M macos E argv fuel file lo hi asc fl fnt :
  In (bdf_convert_call file lo hi asc fl (Some fnt))
     (fst (main K M macos E argv fuel)) ->
  0 <= chars fnt < 2 ^ 32 ->
  0 <= ossd_dim K (gw fnt) -> 0 <= ossd_dim K (bpg fnt) ->
  Forall (fun c => 0 <= fst (fst c) < 8 /\
                   0 <= snd (fst c) /\
                   snd (fst c) + ossd_dim K (gw fnt) <= 128)
         (cells (fst (main K M macos E argv fuel))).
Proof.
  intros Hin Hc Hw Hh.
  destruct (main_cells K M macos E argv fuel _ _ _ _ _ _ Hin)
    as (v & -> & -> & [(H0 & Hcells)|(H0 & Hcells & Hret)]);
    rewrite Hcells; [constructor|].
  assert (Hgh : 0 <= (of_gh (user_font K fnt v) + 7) ÷ 8)
    by (apply Z.quot_pos; cbn; lia).
  destruct (pages_draw macos E fnt (user_font K fnt v)
              ((of_gh (user_font K fnt v) + 7) ÷ 8) Hc Hw
              fuel 0 1 (Z.le_refl 0) Hgh)
    as (n & _ & _ & _ & Hpos).
  destruct (preview_cells K macos E fuel file fnt v)
    as [(Hq & _)|(Hp & _)]; rewrite ?Hq, ?Hp; [constructor | exact Hpos].
Qed.

Lemma preview_draws_within_display_witness :
  Forall (fun c : Z * Z * string =>
            0 <= fst (fst c) < 8 /\
            0 <= snd (fst c) /\ snd (fst c) + to_uint8 24 <= 128)
         (cells (fst (main headers0 LP64 false
                        (env_with (font_of 24 40) 0 32)
                        ["bdfe"; "-d"; "A.bdf"] 12))).
Proof.
  apply (preview_draws_within_display headers0 LP64 false
           (env_with (font_of 24 40) 0 32) ["bdfe"; "-d"; "A.bdf"] 12
           "A.bdf" 32 126 0 2147483648 (font_of 24 40)).
  - vm_compute. left. reflexivity.
  - vm_compute. split; congruence.
  - vm_compute. congruence.
  - vm_compute. congruence.
Defined.

(** *** Fonts the preview cannot show *)

(** The outcome of a run that shows the font, whatever the fuel. *)
Lemma main_outcome K M macos E argv fuel file lo hi asc fl fnt :
  In (bdf_convert_call file lo hi asc fl (Some fnt))
     (fst (main K M macos E argv fuel)) ->
  Z.land fl DISPLAY_FONT <> 0 ->
  exists v,
    forall fuel',
      snd (main K M macos E argv fuel')
      = match snd (preview K macos E fuel' file fnt v) with
        | Go code => Return code
        | Halt o => o
        end.
Proof.
  intros Hin Hd.
  destruct (main_conversion K M macos E argv fuel _ _ _ _ _ _ Hin)
    as (v & rest & o & Hv & Hargc & Hfile & -> & -> & -> & -> & Hr & _).
  assert (Hlt : (argc argv <? 2)%nat = false) by (apply Nat.ltb_ge; lia).
  exists v. intros fuel'.
  destruct (main_after_options K M macos E argv fuel' v Hlt Hv)
    as (file' & Hfile' & Hm).
  rewrite Hfile in Hfile'. inversion Hfile'. subst file'.
  rewrite Hm. cbv zeta. rewrite <- Hr.
  destruct (Z.eqb_spec (Z.land (flags v) DISPLAY_FONT) 0) as [H0|H0];
    [contradiction | reflexivity].
Qed.

(** The preview up to its loop: once the bus is open and the first key
    is not [q], it ends as the loop of lines 215-231 does, unless the
    label of line 200 overflows its buffer. *)
Lemma preview_outcome K macos E fuel file fnt v :
  macos = true \/ 0 <= pi2c_open_result E ->
  stdin_keys E 0 <> 113 ->
  ((16 <= String.length (decimal (ossd_dim K (gw fnt)) ++ "x"
                         ++ decimal (ossd_dim K (bpg fnt))))%nat /\
   snd (preview K macos E fuel file fnt v) = Halt Fault) \/
  ((String.length (decimal (ossd_dim K (gw fnt)) ++ "x"
                   ++ decimal (ossd_dim K (bpg fnt))) < 16)%nat /\
   snd (preview K macos E fuel file fnt v)
   = match snd (pages macos E fnt (user_font K fnt v)
                  ((ossd_dim K (bpg fnt) + 7) ÷ 8) fuel 0 1) with
     | Go _ => Go 0
     | Halt o => Halt o
     end).
Proof.
  intros Hbus Hkey. unfold preview. cbv zeta. cbn [of_gw of_gh user_font].
  rewrite snd_bind.
  match goal with
  | |- context [snd ?t] =>
      match t with
      | (if macos then _ else _) => assert (Hpre : snd t = Go tt)
      end
  end.
  { destruct Hbus as [-> | Hbus]; [reflexivity|].
    destruct macos; [reflexivity|].
    rewrite snd_bind. cbn [snd emit].
    replace (pi2c_open_result E <? 0) with false
      by (symmetry; apply Z.ltb_ge; lia).
    reflexivity. }
  rewrite Hpre. rewrite !snd_bind, !snd_hw.
  destruct (Nat.leb_spec 16
              (String.length (decimal (ossd_dim K (gw fnt)) ++ "x"
                              ++ decimal (ossd_dim K (bpg fnt)))))
    as [Hlen|Hlen]; [left; split; [lia | reflexivity]|].
  right. split; [lia|].
  rewrite !snd_bind, !snd_hw. cbn [snd emit].
  rewrite snd_getch. cbv iota.
  replace (stdin_keys E 0 =? 113) with false
    by (symmetry; apply Z.eqb_neq; exact Hkey).
  rewrite !snd_bind, snd_hw.
  destruct (snd (pages macos E fnt (user_font K fnt v)
                   ((ossd_dim K (bpg fnt) + 7) ÷ 8) fuel 0 1))
    as [[]|o]; [|reflexivity].
  repeat first [rewrite snd_bind | rewrite snd_hw | progress cbn [snd emit]].
  reflexivity.
Qed.

Section Unshowable.
Variable macos : bool.
Variable E : env.
Variable fnt : bdfe_t.
Variable uf : ossd_font_t.
Variable gh : Z.

(** [128/of.gw] with a width of 0. *)
Lemma pages_zero_width fuel nkey :
  of_gw uf = 0 ->
  snd (pages macos E fnt uf gh (S (S fuel)) 0 nkey) = Halt Fault.
Proof.
  intros Hw. cbn [pages]. change (0 <? 0) with false. cbv iota.
  rewrite bind_ret_l. cbv iota. rewrite snd_bind.
  cbn [glyph_lines]. change (0 <? 8) with true. cbv iota.
  rewrite snd_bind. unfold glyph_row.
  rewrite Hw. reflexivity.
Qed.

(** A row of glyphs wider than half the display holds none: [128/of.gw]
    is 0 and the inner loop does not run. *)
Lemma glyph_lines_wide fuel line gidx :
  128 < of_gw uf ->
  glyph_lines macos fnt uf gh fuel line gidx = ([], Go gidx) \/
  glyph_lines macos fnt uf gh fuel line gidx = ([], Halt Running).
Proof.
  intros Hw. revert line.
  induction fuel as [|fuel IH]; intros line; cbn [glyph_lines];
    destruct (line <? 8); auto.
  unfold glyph_row.
  replace (of_gw uf =? 0) with false by (symmetry; apply Z.eqb_neq; lia).
  rewrite Z.quot_small by lia. cbn [Z.to_nat glyph_cells].
  rewrite bind_ret_l. apply IH.
Qed.

Lemma pages_wide fuel nkey :
  128 < of_gw uf -> 0 < chars fnt ->
  pages macos E fnt uf gh fuel 0 nkey = ([], Halt Running).
Proof.
  intros Hw Hc. induction fuel as [|fuel IH]; [reflexivity|].
  cbn [pages]. change (0 <? 0) with false. cbv iota.
  rewrite bind_ret_l. cbv iota.
  destruct (glyph_lines_wide fuel 0 0 Hw) as [-> | ->]; [|reflexivity].
  change (@nil event, @Go Z 0) with (@ret Z 0).
  rewrite bind_ret_l.
  replace (0 <? chars fnt) with true by (symmetry; apply Z.ltb_lt; lia).
  exact IH.
Qed.

(** With glyphs of no height [int gh = (of.gh + 7)/8] is 0, and
    [line += gh] of line 223 leaves [line] at 0. *)
Lemma glyph_cells_returns cols i line gidx :
  exists g, snd (glyph_cells macos fnt uf cols i line gidx) = Go g.
Proof.
  revert i gidx. induction cols as [|cols IH]; intros i gidx;
    cbn [glyph_cells]; [eexists; reflexivity|].
  destruct (gidx <? chars fnt); [|eexists; reflexivity].
  rewrite snd_bind, snd_hw. apply IH.
Qed.

Lemma glyph_lines_flat fuel gidx :
  gh = 0 -> of_gw uf <> 0 ->
  snd (glyph_lines macos fnt uf gh fuel 0 gidx) = Halt Running.
Proof.
  intros Hgh Hw. revert gidx.
  induction fuel as [|fuel IH]; intros gidx; cbn [glyph_lines];
    change (0 <? 8) with true; cbv iota; [reflexivity|].
  rewrite snd_bind. unfold glyph_row.
  replace (of_gw uf =? 0) with false by (symmetry; apply Z.eqb_neq; lia).
  destruct (glyph_cells_returns (Z.to_nat (128 ÷ of_gw uf)) 0 0 gidx)
    as (g & ->).
  replace (0 + gh) with 0 by lia. apply IH.
Qed.

Lemma pages_flat fuel nkey :
  gh = 0 -> of_gw uf <> 0 ->
  snd (pages macos E fnt uf gh fuel 0 nkey) = Halt Running.
Proof.
  intros Hgh Hw. destruct fuel as [|fuel]; [reflexivity|].
  cbn [pages]. change (0 <? 0) with false. cbv iota.
  rewrite bind_ret_l. cbv iota. rewrite snd_bind.
  rewrite glyph_lines_flat by assumption. reflexivity.
Qed.

End Unshowable.

(** X12. A font whose glyph width is 0 breaks the preview: once the bus
    is open and the first key typed is not [q], the run reaches
    [128/of.gw] of line 224 and divides by zero. *)
Theorem zero_width_font_faults
  K M macos E argv fuel fuel' file lo hi asc fl fnt :
  In (bdf_convert_call file lo hi asc fl (Some fnt))
     (fst (main K M macos E argv fuel)) ->
  Z.land fl DISPLAY_FONT <> 0 ->
  ossd_dim K (gw fnt) = 0 ->
  macos = true \/ 0 <= pi2c_open_result E ->
  stdin_keys E 0 <> 113 ->
  snd (main K M macos E argv (S (S fuel'))) = Fault.
Proof.
  intros Hin Hd Hw Hbus Hkey.
  destruct (main_outcome K M macos E argv fuel _ _ _ _ _ _ Hin Hd)
    as (v & Hout).
  rewrite Hout.
  destruct (preview_outcome K macos E (S (S fuel')) file fnt v Hbus Hkey)
    as [[_ ->] | [_ ->]]; [reflexivity|].
  rewrite pages_zero_width by exact Hw. reflexivity.
Qed.

Lemma zero_width_font_faults_witness :
  snd (main headers0 LP64 false (env_with (font_of 0 3) 0 32)
         ["bdfe"; "-d"; "A.bdf"] 2) = Fault.
Proof.
  apply (zero_width_font_faults headers0 LP64 false
           (env_with (font_of 0 3) 0 32) ["bdfe"; "-d"; "A.bdf"] 1 0
           "A.bdf" 32 126 0 2147483648 (font_of 0 3)).
  - vm_compute. left. reflexivity.
  - vm_compute. congruence.
  - reflexivity.
  - right. vm_compute. congruence.
  - vm_compute. congruence.
Defined.

(** X13. Glyphs wider than 128 pixels are never shown and the preview
    never comes to its end: [128/of.gw] is 0, so the loop of lines
    215-231 leaves [gidx] at 0, asks for no key and goes round again,
    whatever the number of rounds it is given. *)
Theorem wide_glyphs_never_finish
  K M macos E argv fuel fuel' file lo hi asc fl fnt :
  In (bdf_convert_call file lo hi asc fl (Some fnt))
     (fst (main K M macos E argv fuel)) ->
  Z.land fl DISPLAY_FONT <> 0 ->
  128 < ossd_dim K (gw fnt) -> 0 < chars fnt ->
  (String.length (decimal (ossd_dim K (gw fnt)) ++ "x"
                  ++ decimal (ossd_dim K (bpg fnt))) < 16)%nat ->
  macos = true \/ 0 <= pi2c_open_result E ->
  stdin_keys E 0 <> 113 ->
  snd (main K M macos E argv fuel') = Running.
Proof.
  intros Hin Hd Hw Hc Hlen Hbus Hkey.
  destruct (main_outcome K M macos E argv fuel _ _ _ _ _ _ Hin Hd)
    as (v & Hout).
  rewrite Hout.
  destruct (preview_outcome K macos E fuel' file fnt v Hbus Hkey)
    as [[Hlen' _] | [_ ->]]; [lia|].
  rewrite pages_wide by assumption. reflexivity.
Qed.

Lemma wide_glyphs_never_finish_witness :
  snd (main headers0 LP64 false (env_with (font_of 200 3) 0 32)
         ["bdfe"; "-d"; "A.bdf"] 1000) = Running.
Proof.
  apply (wide_glyphs_never_finish headers0 LP64 false
           (env_with (font_of 200 3) 0 32) ["bdfe"; "-d"; "A.bdf"] 1 1000
           "A.bdf" 32 126 0 2147483648 (font_of 200 3)).
  - vm_compute. left. reflexivity.
  - vm_compute. congruence.
  - vm_compute. reflexivity.
  - reflexivity.
  - vm_compute. lia.
  - right. vm_compute. congruence.
  - vm_compute. congruence.
Defined.

(** X14. Glyphs of height 0 stop the preview as well: [gh] of line 197
    is 0, [line += gh] of line 223 leaves [line] below 8, and the loop
    over the lines of the display has no end. *)
Theorem flat_glyphs_never_finish
  K M macos E argv fuel fuel' file lo hi asc fl fnt :
  In (bdf_convert_call file lo hi asc fl (Some fnt))
     (fst (main K M macos E argv fuel)) ->
  Z.land fl DISPLAY_FONT <> 0 ->
  ossd_dim K (bpg fnt) = 0 -> ossd_dim K (gw fnt) <> 0 ->
  (String.length (decimal (ossd_dim K (gw fnt)) ++ "x"
                  ++ decimal (ossd_dim K (bpg fnt))) < 16)%nat ->
  macos = true \/ 0 <= pi2c_open_result E ->
  stdin_keys E 0 <> 113 ->
  snd (main K M macos E argv fuel') = Running.
Proof.
  intros Hin Hd Hh Hw Hlen Hbus Hkey.
  destruct (main_outcome K M macos E argv fuel _ _ _ _ _ _ Hin Hd)
    as (v & Hout).
  rewrite Hout.
  destruct (preview_outcome K macos E fuel' file fnt v Hbus Hkey)
    as [[Hlen' _] | [_ ->]]; [lia|].
  rewrite pages_flat; [reflexivity | rewrite Hh; reflexivity | exact Hw].
Qed.

Lemma flat_glyphs_never_finish_witness :
  snd (main headers0 LP64 false
         (env_with {| gw := 8; bpg := 0; chars := 3; font := [] |} 0 32)
         ["bdfe"; "-d"; "A.bdf"] 1000) = Running.
Proof.
  apply (flat_glyphs_never_finish headers0 LP64 false
           (env_with {| gw := 8; bpg := 0; chars := 3; font := [] |} 0 32)
           ["bdfe"; "-d"; "A.bdf"] 1 1000
           "A.bdf" 32 126 0 2147483648
           {| gw := 8; bpg := 0; chars := 3; font := [] |}).
  - vm_compute. left. reflexivity.
  - vm_compute. congruence.
  - reflexivity.
  - vm_compute. congruence.
  - vm_compute. lia.
  - right. vm_compute. congruence.
  - vm_compute. congruence.
Defined.

(** *** The exit code *)

Lemma main_exit_code K M macos E argv fuel code :
  snd (main K M macos E argv fuel) = Return code ->
  (code = 0 \/ code = -1) /\
  (code = -1 ->
   (argc argv < 2)%nat \/
   exists pre msg,
     fst (main K M macos E argv fuel)
     = pre ++ [fprintf_stderr ("Unable to " ++ msg)]).
Proof.
  intros Hret.
  destruct (argc argv <? 2)%nat eqn:Hargc.
  { unfold main, run in Hret |- *. rewrite Hargc in Hret |- *.
    cbn [snd] in Hret. inversion Hret.
    split; [right; reflexivity|]. intros _. left.
    apply Nat.ltb_lt. exact Hargc. }
  destruct (parse_options_cases K M argv) as [[v Hv]|Hno].
  - destruct (main_after_options K M macos E argv fuel v Hargc Hv)
      as (file & _ & Hm).
    rewrite Hm in Hret |- *. cbv zeta in Hret |- *.
    destruct (bdf_convert E file (gmin v) (gmax v) (ascender v) (flags v))
      as [fnt|].
    + destruct (Z.land (flags v) DISPLAY_FONT =? 0).
      * inversion Hret. split; [left; reflexivity | discriminate].
      * cbn [fst snd] in Hret |- *.
        destruct (preview_exit K macos E fuel file fnt v) as [Hgo Hhalt].
        destruct (snd (preview K macos E fuel file fnt v)) as [c|o] eqn:Hs.
        -- inversion Hret. subst c. destruct (Hgo code eq_refl) as [-> _].
           split; [left; reflexivity | discriminate].
        -- subst o. destruct (Hhalt code eq_refl) as (_ & _ & -> & ->).
           split; [right; reflexivity|]. intros _. right.
           eexists [_; _], _. reflexivity.
    + inversion Hret. split; [right; reflexivity|]. intros _. right.
      eexists [_], _. reflexivity.
  - assert (Hn : forall v, parse_options K M argv <> ([], Go v)).
    { intros v Hv. destruct Hno as [Hu|Hf]; rewrite Hv in *; discriminate. }
    destruct (main_without_options K M macos E argv fuel Hargc Hn)
      as [Hm|Hm]; rewrite Hm in Hret; inversion Hret.
    split; [left; reflexivity | discriminate].
Qed.

(** X15. [main] returns 0 or -1 and nothing else; and -1 only when there
    are no arguments, or after one of the two messages [Unable to ...]
    on the standard error, which is then the last thing the run does. *)
Theorem exit_code_is_0_or_minus_1 K M macos E argv fuel code :
  snd (main K M macos E argv fuel) = Return code ->
  (code = 0 \/ code = -1) /\
  (code = -1 ->
   (argc argv < 2)%nat \/
   exists pre msg,
     fst (main K M macos E argv fuel)
     = pre ++ [fprintf_stderr ("Unable to " ++ msg)]).
Proof. apply main_exit_code. Qed.

Lemma exit_code_is_0_or_minus_1_witness :
  (-1 = 0 \/ -1 = -1) /\
  (-1 = -1 ->
   (argc ["bdfe"; "-d"; "A.bdf"] < 2)%nat \/
   exists pre msg,
     fst (main headers0 LP64 false (env_with (font_of 8 3) (-1) 32)
            ["bdfe"; "-d"; "A.bdf"] 1)
     = pre ++ [fprintf_stderr ("Unable to " ++ msg)]).
Proof.
  apply (exit_code_is_0_or_minus_1 headers0 LP64 false
           (env_with (font_of 8 3) (-1) 32) ["bdfe"; "-d"; "A.bdf"] 1).
  vm_compute. reflexivity.
Defined.

(** X16. With fonts the display can show (at least one pixel high and
    between 1 and 128 pixels wide) the run comes to an end, given as
    many rounds as the font has glyphs and nine more: it returns 0 or
    -1, or it breaks. *)
Theorem showable_fonts_end K M macos E argv fuel :
  (forall file lo hi asc fl fnt,
      bdf_convert E file lo hi asc fl = Some fnt ->
      0 <= chars fnt < 2 ^ 32 /\
      1 <= ossd_dim K (gw fnt) <= 128 /\
      1 <= ossd_dim K (bpg fnt) /\
      (Z.to_nat (chars fnt) + 9 <= fuel)%nat) ->
  snd (main K M macos E argv fuel) = Return 0 \/
  snd (main K M macos E argv fuel) = Return (-1) \/
  snd (main K M macos E argv fuel) = Fault.
Proof.
  intros H. pose proof (main_ends K M macos E argv fuel H) as Hne.
  destruct (snd (main K M macos E argv fuel)) as [c| |] eqn:Hs.
  - destruct (main_exit_code K M macos E argv fuel c Hs) as [[-> | ->] _];
      auto.
  - auto.
  - contradiction.
Qed.

Lemma showable_fonts_end_witness :
  snd (main headers0 LP64 false (env_with (font_of 8 300) 0 32)
         ["bdfe"; "-d"; "A.bdf"] 309) = Return 0 \/
  snd (main headers0 LP64 false (env_with (font_of 8 300) 0 32)
         ["bdfe"; "-d"; "A.bdf"] 309) = Return (-1) \/
  snd (main headers0 LP64 false (env_with (font_of 8 300) 0 32)
         ["bdfe"; "-d"; "A.bdf"] 309) = Fault.
Proof.
  apply (showable_fonts_end headers0 LP64 false
           (env_with (font_of 8 300) 0 32) ["bdfe"; "-d"; "A.bdf"] 309).
  intros file lo hi asc fl fnt Hf. inversion Hf. vm_compute.
  repeat split; congruence || lia.
Defined.

(** *** The arguments of [subset] and [ascender] *)

(** A single number: [gmax = gmin] of line 120 stays. *)
Lemma parse_subset_single M a r :
  0 <= a < 2 ^ 32 ->
  digit_val 10 (deref r) = None -> deref r <> "-"%char ->
  parse_subset M (decimal a ++ r) = (a, a).
Proof.
  intros Ha Hr Hdash. unfold parse_subset.
  rewrite strtoul_decimal by assumption.
  replace (Ascii.eqb (deref r) "-") with false
    by (symmetry; apply Ascii.eqb_neq; exact Hdash).
  unfold to_unsigned. rewrite Z.mod_small by lia.
  rewrite Z.ltb_irrefl. reflexivity.
Qed.

(** Two numbers, in either order. *)
Lemma parse_subset_pair M a b r :
  0 <= a < 2 ^ 32 -> 0 <= b < 2 ^ 32 ->
  digit_val 10 (deref r) = None ->
  parse_subset M (decimal a ++ "-" ++ decimal b ++ r)
  = (Z.min a b, Z.max a b).
Proof.
  intros Ha Hb Hr. unfold parse_subset.
  rewrite strtoul_decimal by (try reflexivity; lia).
  cbn [deref String.append next].
  change (Ascii.eqb "-" "-") with true. cbv iota.
  rewrite strtoul_decimal by (try assumption; lia).
  cbn [fst]. unfold to_unsigned. rewrite !Z.mod_small by lia.
  destruct (Z.ltb_spec b a) as [Hlt|Hge].
  - rewrite Z.min_r, Z.max_l by lia. reflexivity.
  - rewrite Z.min_l, Z.max_r by lia. reflexivity.
Qed.

(** A dash with no number after it: [strtoul] gives 0 for the upper
    bound, and lines 124-127 make it the lower one. *)
Lemma parse_subset_open M a r :
  0 <= a < 2 ^ 32 -> fst (strtoul M r 10) = 0 ->
  parse_subset M (decimal a ++ "-" ++ r) = (0, a).
Proof.
  intros Ha Hr. unfold parse_subset.
  rewrite strtoul_decimal by (try reflexivity; lia).
  cbn [deref String.append next].
  change (Ascii.eqb "-" "-") with true. cbv iota.
  rewrite Hr. unfold to_unsigned. rewrite !Z.mod_small by lia.
  destruct (Z.ltb_spec 0 a) as [Hlt|Hge]; [reflexivity|].
  replace a with 0 by lia. reflexivity.
Qed.

Lemma split_sign_decimal z rest :
  0 <= z ->
  split_sign (skip_space (decimal z ++ rest))
  = (false, (decimal z ++ rest)%string).
Proof.
  intros Hz. pose proof (decimal_starts_with_digit z rest Hz) as Hd.
  destruct (decimal z ++ rest)%string as [|c r]; [reflexivity|].
  simpl in Hd. unfold isdigit in Hd.
  apply andb_true_iff in Hd. destruct Hd as [H1 H2].
  apply Z.leb_le in H1, H2.
  cbn [skip_space]. unfold isspace.
  replace (code c =? 32) with false by (symmetry; apply Z.eqb_neq; lia).
  replace (code c <=? 13) with false by (symmetry; apply Z.leb_gt; lia).
  rewrite andb_false_r. cbn [orb].
  unfold split_sign.
  destruct c as [[] [] [] [] [] [] [] []]; try reflexivity;
    vm_compute in H1; vm_compute in H2; try congruence;
    exfalso; first [apply H1; reflexivity | apply H2; reflexivity].
Qed.

(** [atoi] reads back a number of type [int] that is not negative. *)
Lemma atoi_decimal M h r :
  0 <= h < 2 ^ 31 -> digit_val 10 (deref r) = None ->
  atoi M (decimal h ++ r) = h.
Proof.
  intros Hh Hr. unfold atoi, strtol.
  rewrite split_sign_decimal by lia.
  unfold skip_0x. simpl (10 =? 16). cbv iota.
  rewrite scan_digits_decimal by (try assumption; lia).
  replace (LONG_MAX M <? h) with false.
  2:{ symmetry. apply Z.ltb_ge.
      destruct M; unfold LONG_MAX, LONG_BIT; lia. }
  unfold to_int. rewrite Z.mod_small by lia. lia.
Qed.

Section ArgumentRounds.
Variable K : headers.
Variable M : abi.
Variable argv : list string.

Lemma ascender_round c s n :
  nth_error argv (idx c) = Some s ->
  arg_is s (Some "-a") (Some "ascender") = true ->
  nth_error argv (S (idx c)) = Some n ->
  isdigit (deref n) = true ->
  body K M argv c
  = ([], Go {| idx := S (idx c);
               vars := set_ascender (to_unsigned (atoi M n)) (vars c) |}).
Proof.
  intros Hs Hm Hn Hd. rewrite body_by_cases. unfold body_cases.
  rewrite Hs, Hn. apply arg_is_true in Hm.
  destruct Hm; subst s;
    change (arg_is _ (Some "-?") (Some "help")) with false;
    change (arg_is _ (Some "-a") (Some "ascender")) with true;
    cbv iota; rewrite Hd; reflexivity.
Qed.

End ArgumentRounds.

(** X17. [subset N], with one number and no dash after it, asks for the
    single glyph [N]: both bounds of the range become [N], whatever
    follows the number in the argument. *)
Theorem subset_of_one_number K M argv c s a r :
  nth_error argv (idx c) = Some s ->
  arg_is s (Some "-s") (Some "subset") = true ->
  nth_error argv (S (idx c)) = Some (decimal a ++ r)%string ->
  0 <= a < 2 ^ 32 ->
  digit_val 10 (deref r) = None -> deref r <> "-"%char ->
  body K M argv c
  = ([], Go {| idx := S (idx c); vars := set_range a a (vars c) |}).
Proof.
  intros Hs Hm Hn Ha Hr Hdash.
  rewrite (subset_round K M argv c s _ Hs Hm Hn)
    by (apply decimal_starts_with_digit; lia).
  rewrite parse_subset_single by assumption. reflexivity.
Qed.

Lemma subset_of_one_number_witness :
  body headers0 LP64 ["bdfe"; "subset"; "65,70"; "A.bdf"]
       {| idx := 1; vars := initial |}
  = ([], Go {| idx := 2; vars := set_range 65 65 initial |}).
Proof.
  apply (subset_of_one_number headers0 LP64
           ["bdfe"; "subset"; "65,70"; "A.bdf"]
           {| idx := 1; vars := initial |} "subset" 65 ",70");
    first [reflexivity | lia | discriminate].
Defined.

(** X18. [subset A-B] sets the range to the smaller and the larger of
    the two numbers, in whichever order they are written; what follows
    the second number is not looked at. *)
Theorem subset_range_is_min_max K M argv c s a b r :
  nth_error argv (idx c) = Some s ->
  arg_is s (Some "-s") (Some "subset") = true ->
  nth_error argv (S (idx c))
  = Some (decimal a ++ "-" ++ decimal b ++ r)%string ->
  0 <= a < 2 ^ 32 -> 0 <= b < 2 ^ 32 ->
  digit_val 10 (deref r) = None ->
  body K M argv c
  = ([], Go {| idx := S (idx c);
               vars := set_range (Z.min a b) (Z.max a b) (vars c) |}).
Proof.
  intros Hs Hm Hn Ha Hb Hr.
  rewrite (subset_round K M argv c s _ Hs Hm Hn)
    by (apply decimal_starts_with_digit; lia).
  rewrite parse_subset_pair by assumption. reflexivity.
Qed.

Lemma subset_range_is_min_max_witness :
  body headers0 ILP32 ["bdfe"; "-s"; "48-57-65"; "A.bdf"]
       {| idx := 1; vars := initial |}
  = ([], Go {| idx := 2;
               vars := set_range (Z.min 48 57) (Z.max 48 57) initial |}).
Proof.
  apply (subset_range_is_min_max headers0 ILP32
           ["bdfe"; "-s"; "48-57-65"; "A.bdf"]
           {| idx := 1; vars := initial |} "-s" 48 57 "-65");
    first [reflexivity | lia].
Defined.

(** X19. [subset A-] with no number after the dash does not mean "from
    A on": [strtoul] gives 0 for the missing bound, and the swap of
    lines 124-127 makes the range 0 to [A]. *)
Theorem subset_open_range_starts_at_0 K M argv c s a r :
  nth_error argv (idx c) = Some s ->
  arg_is s (Some "-s") (Some "subset") = true ->
  nth_error argv (S (idx c)) = Some (decimal a ++ "-" ++ r)%string ->
  0 <= a < 2 ^ 32 ->
  fst (strtoul M r 10) = 0 ->
  body K M argv c
  = ([], Go {| idx := S (idx c); vars := set_range 0 a (vars c) |}).
Proof.
  intros Hs Hm Hn Ha Hr.
  rewrite (subset_round K M argv c s _ Hs Hm Hn)
    by (apply decimal_starts_with_digit; lia).
  rewrite parse_subset_open by assumption. reflexivity.
Qed.

Lemma subset_open_range_starts_at_0_witness :
  body headers0 LP64 ["bdfe"; "-s"; "65-"; "A.bdf"]
       {| idx := 1; vars := initial |}
  = ([], Go {| idx := 2; vars := set_range 0 65 initial |}).
Proof.
  apply (subset_open_range_starts_at_0 headers0 LP64
           ["bdfe"; "-s"; "65-"; "A.bdf"]
           {| idx := 1; vars := initial |} "-s" 65 "");
    first [reflexivity | lia].
Defined.

(** X20. [ascender H] with a decimal number below 2^31 stores [H]
    itself, on both data models, and moves on past the number; the
    range and the flags stay as they were. *)
Theorem ascender_reads_its_number K M argv c s h r :
  nth_error argv (idx c) = Some s ->
  arg_is s (Some "-a") (Some "ascender") = true ->
  nth_error argv (S (idx c)) = Some (decimal h ++ r)%string ->
  0 <= h < 2 ^ 31 ->
  digit_val 10 (deref r) = None ->
  body K M argv c
  = ([], Go {| idx := S (idx c); vars := set_ascender h (vars c) |}).
Proof.
  intros Hs Hm Hn Hh Hr.
  rewrite (ascender_round K M argv c s _ Hs Hm Hn)
    by (apply decimal_starts_with_digit; lia).
  rewrite atoi_decimal by assumption.
  unfold to_unsigned. rewrite Z.mod_small by lia. reflexivity.
Qed.

Lemma ascender_reads_its_number_witness :
  body headers0 ILP32 ["bdfe"; "ascender"; "2px"; "A.bdf"]
       {| idx := 1; vars := initial |}
  = ([], Go {| idx := 2; vars := set_ascender 2 initial |}).
Proof.
  apply (ascender_reads_its_number headers0 ILP32
           ["bdfe"; "ascender"; "2px"; "A.bdf"]
           {| idx := 1; vars := initial |} "ascender" 2 "px");
    first [reflexivity | lia].
Defined.

(** *** The name of the program and the first prompt *)

Lemma has_slash_app a b :
  has_slash (a ++ b) = has_slash a || has_slash b.
Proof.
  induction a as [|c a IH]; [reflexivity|].
  cbn [String.append has_slash]. rewrite IH. apply orb_assoc.
Qed.

(** A path that does not end in a slash has no slashes to strip. *)
Lemma strip_slashes_name name :
  has_slash name = false -> strip_slashes name = name.
Proof.
  induction name as [|c r IH]; [reflexivity|].
  cbn [has_slash strip_slashes]. intros H.
  apply orb_false_iff in H. destruct H as [Hc Hr].
  rewrite (IH Hr), Hc. destruct r; reflexivity.
Qed.

Lemma strip_slashes_app dir t :
  t <> ""%string -> strip_slashes t = t ->
  strip_slashes (dir ++ t) = (dir ++ t)%string.
Proof.
  intros Hne Hs. induction dir as [|c d IH]; [exact Hs|].
  cbn [String.append strip_slashes]. rewrite IH.
  destruct (d ++ t)%string eqn:Hd; [|reflexivity].
  destruct d; [|discriminate]. simpl in Hd. contradiction.
Qed.

Lemma after_last_slash_app dir name :
  has_slash name = false ->
  after_last_slash (dir ++ "/" ++ name) = name.
Proof.
  intros Hs. induction dir as [|c d IH].
  - cbn [String.append after_last_slash]. rewrite Hs. reflexivity.
  - cbn [String.append after_last_slash].
    rewrite has_slash_app. cbn [String.append has_slash is_slash].
    change (Ascii.eqb "/" "/") with true.
    rewrite orb_true_r. exact IH.
Qed.

Lemma basename_of_path dir name :
  name <> ""%string -> has_slash name = false ->
  basename (Some (dir ++ "/" ++ name)%string) = name.
Proof.
  intros Hne Hs. unfold basename.
  assert (Hstrip : strip_slashes (dir ++ "/" ++ name)
                   = (dir ++ "/" ++ name)%string).
  { apply strip_slashes_app; [discriminate|].
    cbn [String.append strip_slashes].
    rewrite (strip_slashes_name name Hs).
    destruct name; [contradiction | reflexivity]. }
  rewrite Hstrip.
  destruct (dir ++ "/" ++ name)%string eqn:Hp.
  - destruct dir; discriminate.
  - rewrite <- Hp. apply after_last_slash_app. exact Hs.
Qed.

(** X21. Called by its path and without arguments, the program prints
    its usage under its own name, the path left off, and returns -1. *)
Theorem usage_names_the_program K M macos E fuel dir name :
  name <> ""%string -> has_slash name = false ->
  main K M macos E [(dir ++ "/" ++ name)%string] fuel
  = (usage name, Return (-1)).
Proof.
  intros Hne Hs. unfold main, run.
  change (argc [(dir ++ "/" ++ name)%string] <? 2)%nat with true.
  cbv iota. cbn [nth_error].
  rewrite basename_of_path by assumption. reflexivity.
Qed.

Lemma usage_names_the_program_witness :
  main headers0 LP64 false env0 [("/usr/local/bin" ++ "/" ++ "bdfe")%string] 0
  = (usage "bdfe", Return (-1)).
Proof.
  apply (usage_names_the_program headers0 LP64 false env0 0
           "/usr/local/bin" "bdfe");
    [discriminate | reflexivity].
Defined.

(** X22. [arg_is] holds exactly when the argument is one of the two
    names it is given; a name that is the null pointer matches
    nothing. *)
Theorem arg_is_either_name a sarg larg :
  arg_is a sarg larg = true <-> sarg = Some a \/ larg = Some a.
Proof.
  unfold arg_is, same_arg.
  destruct sarg as [s|], larg as [l|];
    repeat match goal with
    | |- context [String.eqb ?x ?y] => destruct (String.eqb_spec x y)
    end; subst;
    split; try tauto; try discriminate;
    intros [H|H]; inversion H; congruence.
Qed.

(** A run that shows the font is the conversion and then the preview,
    whatever the fuel. *)
Lemma main_shows K M macos E argv fuel file lo hi asc fl fnt :
  In (bdf_convert_call file lo hi asc fl (Some fnt))
     (fst (main K M macos E argv fuel)) ->
  Z.land fl DISPLAY_FONT <> 0 ->
  exists v,
    lo = gmin v /\
    forall fuel',
      main K M macos E argv fuel'
      = (bdf_convert_call file lo hi asc fl (Some fnt)
           :: fst (preview K macos E fuel' file fnt v),
         match snd (preview K macos E fuel' file fnt v) with
         | Go code => Return code
         | Halt o => o
         end).
Proof.
  intros Hin Hd.
  destruct (main_conversion K M macos E argv fuel _ _ _ _ _ _ Hin)
    as (v & rest & o & Hv & Hargc & Hfile & -> & -> & -> & -> & Hr & _).
  assert (Hlt : (argc argv <? 2)%nat = false) by (apply Nat.ltb_ge; lia).
  exists v. split; [reflexivity|]. intros fuel'.
  destruct (main_after_options K M macos E argv fuel' v Hlt Hv)
    as (file' & Hfile' & Hm).
  rewrite Hfile in Hfile'. inversion Hfile'. subst file'.
  rewrite Hm. cbv zeta. rewrite <- Hr.
  destruct (Z.eqb_spec (Z.land (flags v) DISPLAY_FONT) 0) as [H0|H0];
    [contradiction | reflexivity].
Qed.

(** X23. When the first key typed is [q], the preview shows its two
    header lines, the name of the file without its directory and the
    size of the glyphs, and no glyph at all; it puts the terminal back,
    closes the bus and returns 0. *)
Theorem quit_at_first_prompt
  K M macos E argv fuel file lo hi asc fl fnt :
  In (bdf_convert_call file lo hi asc fl (Some fnt))
     (fst (main K M macos E argv fuel)) ->
  Z.land fl DISPLAY_FONT <> 0 ->
  macos = true \/ 0 <= pi2c_open_result E ->
  (String.length (decimal (ossd_dim K (gw fnt)) ++ "x"
                  ++ decimal (ossd_dim K (bpg fnt))) < 16)%nat ->
  stdin_keys E 0 = 113 ->
  exists bus init,
    main K M macos E argv fuel
    = (bdf_convert_call file lo hi asc fl (Some fnt)
         :: (if macos then []
             else [pi2c_open (PI2C_BUS K) (pi2c_open_result E);
                   pi2c_select (PI2C_BUS K) bus;
                   ossd_init init;
                   ossd_set_user_font
                     {| of_gw := ossd_dim K (gw fnt);
                        of_gh := ossd_dim K (bpg fnt);
                        of_go := to_uint8 lo;
                        of_gn := to_uint8 (chars fnt);
                        of_font := font fnt |};
                   ossd_select_font (OSSD_FONT_USER K);
                   ossd_putlx 0 (-1) (basename (Some file))
                     (OSSD_TEXT_REVERSE K);
                   ossd_putlx (8 - (ossd_dim K (bpg fnt) + 7) ÷ 8) (-1)
                     (decimal (ossd_dim K (gw fnt)) ++ "x"
                      ++ decimal (ossd_dim K (bpg fnt)))
                     (Z.lor (OSSD_TEXT_UNDERLINE K)
                            (OSSD_TEXT_OVERLINE K))])
         ++ [stdin_mode (TERM_MODE_RAW K);
             fprintf_stderr prompt;
             stdin_getch (-1) 113;
             stdin_mode (TERM_MODE_CAN K)]
         ++ (if macos then [] else [pi2c_close (PI2C_BUS K)]),
       Return 0).
Proof.
  intros Hin Hd Hbus Hlen Hkey.
  destruct (main_shows K M macos E argv fuel _ _ _ _ _ _ Hin Hd)
    as (v & -> & Hm).
  exists (i2c_address v), (orientation v). rewrite Hm.
  apply Nat.leb_gt in Hlen.
  unfold preview, getch. cbv zeta. cbn [of_gw of_gh user_font].
  rewrite Hlen, Hkey. change (113 =? 113) with true. cbv iota.
  destruct Hbus as [-> | Hbus]; [reflexivity|].
  destruct macos; [reflexivity|].
  replace (pi2c_open_result E <? 0) with false
    by (symmetry; apply Z.ltb_ge; lia).
  reflexivity.
Qed.

Lemma quit_at_first_prompt_witness :
  exists bus init,
    main headers0 LP64 false (env_with (font_of 8 3) 0 113)
         ["bdfe"; "-d"; "fonts/A.bdf"] 0
    = (bdf_convert_call "fonts/A.bdf" 32 126 0 2147483648
         (Some (font_of 8 3))
         :: [pi2c_open 1 0; pi2c_select 1 bus; ossd_init init;
             ossd_set_user_font
               {| of_gw := 8; of_gh := 8; of_go := to_uint8 32;
                  of_gn := to_uint8 3; of_font := [] |};
             ossd_select_font 3;
             ossd_putlx 0 (-1) (basename (Some "fonts/A.bdf")) 1;
             ossd_putlx (8 - (8 + 7) ÷ 8) (-1)
               (decimal 8 ++ "x" ++ decimal 8) (Z.lor 2 4)]
         ++ [stdin_mode 1; fprintf_stderr prompt; stdin_getch (-1) 113;
             stdin_mode 0]
         ++ [pi2c_close 1],
       Return 0).
Proof.
  apply (quit_at_first_prompt headers0 LP64 false
           (env_with (font_of 8 3) 0 113) ["bdfe"; "-d"; "fonts/A.bdf"] 0
           "fonts/A.bdf" 32 126 0 2147483648 (font_of 8 3)).
  - vm_compute. left. reflexivity.
  - vm_compute. congruence.
  - right. vm_compute. congruence.
  - vm_compute. lia.
  - reflexivity.
Defined.

(** X24. The file handed to the conversion is always the last argument
    of the command line, [argv[argc-1]], even when the option loop has
    read that argument as an option or as the number of one. *)
Theorem file_is_last_argument K M macos E argv fuel file lo hi asc fl r :
  In (bdf_convert_call file lo hi asc fl r)
     (fst (main K M macos E argv fuel)) ->
  (2 <= argc argv)%nat /\ last argv ""%string = file.
Proof.
  intros Hin.
  destruct (main_conversion K M macos E argv fuel _ _ _ _ _ _ Hin)
    as (v & _ & _ & _ & Hargc & Hfile & _).
  split; [exact Hargc|].
  unfold argc in Hfile.
  destruct (@exists_last _ argv) as (front & x & ->).
  { intros ->. unfold argc in Hargc. simpl in Hargc. lia. }
  rewrite last_last. rewrite length_app in Hfile. cbn [List.length] in Hfile.
  rewrite nth_error_app2 in Hfile by lia.
  replace (List.length front + 1 - 1 - List.length front)%nat with 0%nat
    in Hfile by lia.
  inversion Hfile. reflexivity.
Qed.

Lemma file_is_last_argument_witness :
  (2 <= argc ["bdfe"; "-s"; "65"])%nat /\
  last ["bdfe"; "-s"; "65"] ""%string = "65"%string.
Proof.
  apply (file_is_last_argument headers0 LP64 false env0
           ["bdfe"; "-s"; "65"] 0 "65" 65 65 0 0
           (bdf_convert env0 "65" 65 65 0 0)).
  vm_compute. left. reflexivity.
Defined.
